(** * govips [vips/image.go]: the ImageRef handle, its mutation protocol and
      its export dispatcher, embedded over an abstract native engine.

    The Go type [ImageRef] owns one reference to a native [VipsImage].  Every
    mutating method asks the native engine for a new image and then swaps the
    reference with [setImage], which releases the previous one.  The native
    objects live in a heap addressed by pointers, and every native call is
    appended to a trace, so that statements such as "no primitive is invoked"
    or "the old reference is released once" can be read off that trace. *)

From Stdlib Require Import ZArith Ascii String List Bool Lia DecimalString.
From Stdlib Require Import Floats.PrimFloat Floats.FloatOps Floats.SpecFloat Uint63.
From stdpp Require Import gmap.

Open Scope Z_scope.

(** ** Go scalar types *)

(** Go's [float64]: the kernel's binary64 numbers. *)
Definition float64 : Set := PrimFloat.float.

(** [float64(n)] for an [int] (64 bits): exact up to 2^53 in magnitude,
    rounded to the nearest binary64 number beyond.  The magnitude of the
    smallest [int], 2^63, is the one that does not fit the kernel's 63-bit
    integers; it is a binary64 number itself. *)
Definition f64_of_magnitude (m : Z) : float64 :=
  if m <? 2 ^ 63 then PrimFloat.of_uint63 (Uint63.of_Z m)
  else 0x1p+63%float.

Definition f64_of_int (z : Z) : float64 :=
  if z <? 0 then PrimFloat.opp (f64_of_magnitude (- z))
  else f64_of_magnitude z.

(** [int(f)]: the fraction is discarded (truncation towards zero).  For a
    NaN, an infinity or an out-of-range value Go leaves the result to the
    platform; amd64 gives the smallest integer. *)
Definition int_of_f64 (f : float64) : Z :=
  match Prim2SF f with
  | S754_zero _ => 0
  | S754_finite s m e =>
      let v := if 0 <=? e then Z.pos m * 2 ^ e else Z.pos m / 2 ^ (- e) in
      if Z.log2 v <? 63 then (if s then - v else v) else - 2 ^ 63
  | _ => - 2 ^ 63
  end.

(** ** Enumerations used by image.go *)

(** [ImageType]: the constants image.go names, and any other value of the
    underlying [int] (BMP, SVG, PDF, ... are declared elsewhere). *)
Inductive ImageType :=
| ImageTypeUnknown | ImageTypeGIF | ImageTypeJPEG | ImageTypePNG
| ImageTypeTIFF | ImageTypeWEBP | ImageTypeHEIF | ImageTypeAVIF
| ImageTypeJP2K
| ImageTypeOther (code : Z).

Inductive BandFormat :=
| BandFormatNotSet | BandFormatUchar | BandFormatChar | BandFormatUshort
| BandFormatShort | BandFormatUint | BandFormatInt | BandFormatFloat
| BandFormatComplex | BandFormatDouble | BandFormatDpcomplex.

Inductive Interpretation :=
| InterpretationRGB | InterpretationSRGB | InterpretationLCH
| InterpretationHSV | InterpretationCMYK
| InterpretationOther (code : Z).

Inductive Angle := Angle0 | Angle90 | Angle180 | Angle270.
Inductive Direction := DirectionHorizontal | DirectionVertical.
Inductive Kernel :=
| KernelAuto | KernelNearest | KernelLinear | KernelCubic
| KernelMitchell | KernelLanczos2 | KernelLanczos3.
Inductive Intent :=
| IntentPerceptual | IntentRelative | IntentSaturation | IntentAbsolute.
Inductive TiffCompression :=
| TiffCompressionNone | TiffCompressionJpeg | TiffCompressionDeflate
| TiffCompressionPackbits | TiffCompressionLzw.
(** The constants behind [TiffPredictor] and [PngFilter] come from C headers;
    [..Unset] is the Go zero value of a field the caller left out. *)
Inductive TiffPredictor :=
| TiffPredictorUnset | TiffPredictorNone | TiffPredictorHorizontal | TiffPredictorFloat.
Inductive PngFilter := PngFilterUnset | PngFilterNone | PngFilterOther (code : Z).

(** Plain [int] enumerations whose values image.go only passes through. *)
Definition Interesting := Z.
Definition Size := Z.
Definition ExtendStrategy := Z.
Definition BlendMode := Z.
Definition SubsampleMode := Z.

Record Color := { R : Z; G : Z; B : Z }.
Record ColorRGBA := { rgbaR : Z; rgbaG : Z; rgbaB : Z; rgbaA : Z }.

#[global] Instance ImageType_eq_dec : EqDecision ImageType.
Proof. solve_decision. Defined.
#[global] Instance BandFormat_eq_dec : EqDecision BandFormat.
Proof. solve_decision. Defined.
#[global] Instance Interpretation_eq_dec : EqDecision Interpretation.
Proof. solve_decision. Defined.
#[global] Instance Angle_eq_dec : EqDecision Angle.
Proof. solve_decision. Defined.

(** ** Go errors *)

Inductive error :=
| NativeError (msg : string)          (* an error reported by a primitive *)
| ErrLinearLength                     (* "a and b must be of same length" *)
| ErrCannotSave (name : string).      (* "cannot save to %#v" *)

(** The pair [(value, err)] a Go call returns. *)
Inductive res (A : Type) :=
| Ok (a : A)
| Error (e : error).
Arguments Ok {A} a.
Arguments Error {A} e.

(** ** The native image object *)

(** Modelled from the spec: the header of a native image object, whose C
    declaration and accessors are not part of image.go.  The fields are the
    ones image.go reads ([Xsize], [Ysize], [Bands], [BandFmt], [Type]) and
    the stored attributes behind [vipsHasAlpha], [vipsGetImageNPages],
    [vipsGetPageHeight], [vipsGetMetaOrientation] and [vipsHasICCProfile];
    a stored attribute is read back as it was written.  [payload] stands for
    everything else (pixels, other metadata). *)
Record VipsImage := {
  Xsize : Z;
  Ysize : Z;
  Bands : Z;
  BandFmt : BandFormat;
  Type_ : Interpretation;
  has_alpha_channel : bool;
  n_pages : Z;
  page_height : Z;
  orientation : Z;
  icc_profile : bool;
  payload : Z
}.

Definition vipsHasAlpha (i : VipsImage) : bool := has_alpha_channel i.
Definition vipsGetImageNPages (i : VipsImage) : Z := n_pages i.
Definition vipsGetPageHeight (i : VipsImage) : Z := page_height i.
Definition vipsGetMetaOrientation (i : VipsImage) : Z := orientation i.
Definition vipsHasICCProfile (i : VipsImage) : bool := icc_profile i.

(** Attribute writes that image.go performs on a native object in place.
    None of them can fail. *)
Inductive HeaderEdit :=
| vipsSetMetaOrientation (o : Z)
| vipsRemoveMetaOrientation
| vipsSetImageNPages (pages : Z)
| vipsSetPageHeight (height : Z)
| vipsRemoveICCProfile
| vipsRemoveMetadata (keep : list string).

(** Modelled from the spec: the effect of an attribute write on the header;
    the C setters are not part of image.go.  [vipsRemoveMetadata] keeps the
    profile, orientation and page attributes (its comment in image.go), so
    it touches none of the modelled fields. *)
Definition apply_edit (e : HeaderEdit) (i : VipsImage) : VipsImage :=
  match e with
  | vipsSetMetaOrientation o =>
      {| Xsize := Xsize i; Ysize := Ysize i; Bands := Bands i; BandFmt := BandFmt i;
         Type_ := Type_ i; has_alpha_channel := has_alpha_channel i;
         n_pages := n_pages i; page_height := page_height i;
         orientation := o; icc_profile := icc_profile i; payload := payload i |}
  | vipsRemoveMetaOrientation =>
      {| Xsize := Xsize i; Ysize := Ysize i; Bands := Bands i; BandFmt := BandFmt i;
         Type_ := Type_ i; has_alpha_channel := has_alpha_channel i;
         n_pages := n_pages i; page_height := page_height i;
         orientation := 0; icc_profile := icc_profile i; payload := payload i |}
  | vipsSetImageNPages pages =>
      {| Xsize := Xsize i; Ysize := Ysize i; Bands := Bands i; BandFmt := BandFmt i;
         Type_ := Type_ i; has_alpha_channel := has_alpha_channel i;
         n_pages := pages; page_height := page_height i;
         orientation := orientation i; icc_profile := icc_profile i; payload := payload i |}
  | vipsSetPageHeight height =>
      {| Xsize := Xsize i; Ysize := Ysize i; Bands := Bands i; BandFmt := BandFmt i;
         Type_ := Type_ i; has_alpha_channel := has_alpha_channel i;
         n_pages := n_pages i; page_height := height;
         orientation := orientation i; icc_profile := icc_profile i; payload := payload i |}
  | vipsRemoveICCProfile =>
      {| Xsize := Xsize i; Ysize := Ysize i; Bands := Bands i; BandFmt := BandFmt i;
         Type_ := Type_ i; has_alpha_channel := has_alpha_channel i;
         n_pages := n_pages i; page_height := page_height i;
         orientation := orientation i; icc_profile := false; payload := payload i |}
  | vipsRemoveMetadata _ => i
  end.

(** ** Export parameter sets *)

Record ExportParams := {
  Format : ImageType;
  Quality : Z;
  Compression : Z;
  Interlaced : bool;
  Lossless : bool;
  Effort : Z;
  StripMetadata : bool;
  OptimizeCoding : bool;
  SubsampleMode_ : SubsampleMode;
  TrellisQuant : bool;
  OvershootDeringing : bool;
  OptimizeScans : bool;
  QuantTable : Z;
  Speed : Z
}.

Record JpegExportParams := {
  jpegStripMetadata : bool;
  jpegQuality : Z;
  jpegInterlace : bool;
  jpegOptimizeCoding : bool;
  jpegSubsampleMode : SubsampleMode;
  jpegTrellisQuant : bool;
  jpegOvershootDeringing : bool;
  jpegOptimizeScans : bool;
  jpegQuantTable : Z
}.

Definition NewJpegExportParams : JpegExportParams :=
  {| jpegStripMetadata := false; jpegQuality := 80; jpegInterlace := true;
     jpegOptimizeCoding := false; jpegSubsampleMode := 0; jpegTrellisQuant := false;
     jpegOvershootDeringing := false; jpegOptimizeScans := false; jpegQuantTable := 0 |}.

Record PngExportParams := {
  pngStripMetadata : bool;
  pngCompression : Z;
  pngFilter : PngFilter;
  pngInterlace : bool;
  pngQuality : Z;
  pngPalette : bool;
  pngDither : float64;
  pngBitdepth : Z;
  pngProfile : string
}.

Definition NewPngExportParams : PngExportParams :=
  {| pngStripMetadata := false; pngCompression := 6; pngFilter := PngFilterNone;
     pngInterlace := false; pngQuality := 0; pngPalette := false;
     pngDither := 0%float; pngBitdepth := 0; pngProfile := ""%string |}.

Record WebpExportParams := {
  webpStripMetadata : bool;
  webpQuality : Z;
  webpLossless : bool;
  webpNearLossless : bool;
  webpReductionEffort : Z;
  IccProfile : string
}.

Definition NewWebpExportParams : WebpExportParams :=
  {| webpStripMetadata := false; webpQuality := 75; webpLossless := false;
     webpNearLossless := false; webpReductionEffort := 4; IccProfile := ""%string |}.

Record HeifExportParams := { heifQuality : Z; heifLossless : bool }.

Definition NewHeifExportParams : HeifExportParams :=
  {| heifQuality := 80; heifLossless := false |}.

Record TiffExportParams := {
  tiffStripMetadata : bool;
  tiffQuality : Z;
  tiffCompression : TiffCompression;
  tiffPredictor : TiffPredictor
}.

Definition NewTiffExportParams : TiffExportParams :=
  {| tiffStripMetadata := false; tiffQuality := 80;
     tiffCompression := TiffCompressionLzw; tiffPredictor := TiffPredictorHorizontal |}.

Record GifExportParams := {
  gifStripMetadata : bool;
  gifQuality : Z;
  gifDither : float64;
  gifEffort : Z;
  gifBitdepth : Z
}.

Definition NewGifExportParams : GifExportParams :=
  {| gifStripMetadata := false; gifQuality := 75; gifDither := 0%float;
     gifEffort := 7; gifBitdepth := 8 |}.

Record AvifExportParams := {
  avifStripMetadata : bool;
  avifQuality : Z;
  avifLossless : bool;
  avifSpeed : Z
}.

Definition NewAvifExportParams : AvifExportParams :=
  {| avifStripMetadata := false; avifQuality := 80; avifLossless := false; avifSpeed := 5 |}.

Record Jp2kExportParams := {
  jp2kQuality : Z;
  jp2kLossless : bool;
  jp2kTileWidth : Z;
  jp2kTileHeight : Z;
  jp2kSubsampleMode : SubsampleMode
}.

Definition NewJp2kExportParams : Jp2kExportParams :=
  {| jp2kQuality := 80; jp2kLossless := false; jp2kTileWidth := 512;
     jp2kTileHeight := 512; jp2kSubsampleMode := 0 |}.

Record ImageMetadata := {
  mdFormat : ImageType;
  mdWidth : Z;
  mdHeight : Z;
  mdColorspace : Interpretation;
  mdOrientation : Z;
  mdPages : Z
}.

(** ** Calls into the native engine *)

(** The image-producing primitives image.go calls, with their scalar
    arguments; the images they read are passed beside them. *)
Inductive Primitive :=
| vipsCopyImage
| vipsComposite (modes xs ys : list Z)
| vipsComposite2 (mode : BlendMode) (x y : Z)
| vipsInsert (x y : Z) (expand : bool) (background : option ColorRGBA)
| vipsJoin (dir : Direction)
| vipsArrayJoin (across : Z)
| vipsMapim
| vipsMaplut
| vipsExtractBand (band num : Z)
| vipsBandJoin
| vipsBandJoinConst (constants : list float64)
| vipsAddAlpha
| vipsPremultiplyAlpha
| vipsUnpremultiplyAlpha
| vipsCast (format : BandFormat)
| vipsAdd
| vipsMultiply
| vipsDivide
| vipsLinear (a b : list float64) (n : Z)
| vipsLinear1 (a b : float64)
| vipsAutoRotate
| vipsExtractAreaMultiPage (left top width height : Z)
| vipsExtractArea (left top width height : Z)
| vipsICCTransform (outputProfile inputProfile : string) (intent : Intent)
                   (depth : Z) (embedded : bool)
| vipsToColorSpace (interpretation : Interpretation)
| vipsFlatten (backgroundColor : option Color)
| vipsGaussianBlur (sigma : float64)
| vipsSharpen (sigma x1 m2 : float64)
| vipsInvert
| vipsRank (width height index : Z)
| vipsResizeWithVScale (hScale vScale : float64) (kernel : Kernel)
| vipsThumbnail (width height : Z) (crop : Interesting) (size : Size)
| vipsEmbedMultiPage (left top width height : Z) (extend : ExtendStrategy)
| vipsEmbed (left top width height : Z) (extend : ExtendStrategy)
| vipsEmbedMultiPageBackground (left top width height : Z) (c : option ColorRGBA)
| vipsEmbedBackground (left top width height : Z) (c : option ColorRGBA)
| vipsZoom (xFactor yFactor : Z)
| vipsFlip (direction : Direction)
| vipsRotate (angle : Angle)
| vipsSimilarity (scale angle : float64) (backgroundColor : option ColorRGBA)
                 (idx idy odx ody : float64)
| vipsGrid (tileHeight across down : Z)
| vipsSmartCrop (width height : Z) (interesting : Interesting)
| labelImage (labelParams : string)
| vipsReplicate (across down : Z).

(** Native calls that write into the object they are given and report an
    error code. *)
Inductive InPlace :=
| vipsImageSetDelay (data : list Z)
| vipsDrawRect (ink : ColorRGBA) (left top width height : Z) (fill : bool).

(** The encoders, with the parameter set each is handed. *)
Inductive SaveCall :=
| vipsSaveJPEGToBuffer (p : JpegExportParams)
| vipsSavePNGToBuffer (p : PngExportParams)
| vipsSaveWebPToBuffer (p : WebpExportParams)
| vipsSaveHEIFToBuffer (p : HeifExportParams)
| vipsSaveTIFFToBuffer (p : TiffExportParams)
| vipsSaveGIFToBuffer (p : GifExportParams)
| vipsSaveAVIFToBuffer (p : AvifExportParams)
| vipsSaveJP2KToBuffer (p : Jp2kExportParams).

(** The native engine is a parameter of the development.  A primitive reads
    the images it is given and either builds a new one or fails; it never
    changes its inputs.  An in-place call yields the new content of the
    object, or fails and leaves it alone. *)
Record Engine := {
  exec : Primitive -> list VipsImage -> res VipsImage;
  exec_inplace : InPlace -> VipsImage -> res VipsImage;
  save : SaveCall -> VipsImage -> res (list Byte.byte)
}.

(** What the native side sees, in order. *)
Inductive Event :=
| EvPrim (op : Primitive) (ins : list N)
| EvEdit (e : HeaderEdit) (p : N)
| EvInPlace (op : InPlace) (p : N)
| EvSave (c : SaveCall) (p : N)
| EvClear (p : N).

(** ** The handle *)

Record PreMultiplicationState := { bandFormat : BandFormat }.

(** [ImageRef] without its lock: calls are taken one at a time, and a nil
    pointer or slice is [None]. *)
Record ImageRef := {
  buf : option (list Byte.byte);
  image : option N;
  format : ImageType;
  originalFormat : ImageType;
  preMultiplication : option PreMultiplicationState;
  optimizedIccProfile : string
}.

Record State := {
  handle : ImageRef;
  heap : gmap N VipsImage;
  trace : list Event
}.

Definition with_handle (r : ImageRef) (s : State) : State :=
  {| handle := r; heap := heap s; trace := trace s |}.
Definition with_heap (h : gmap N VipsImage) (s : State) : State :=
  {| handle := handle s; heap := h; trace := trace s |}.
Definition log (e : Event) (s : State) : State :=
  {| handle := handle s; heap := heap s; trace := trace s ++ [e] |}.

Definition set_buf (b : option (list Byte.byte)) (r : ImageRef) : ImageRef :=
  {| buf := b; image := image r; format := format r; originalFormat := originalFormat r;
     preMultiplication := preMultiplication r; optimizedIccProfile := optimizedIccProfile r |}.
Definition set_image (p : option N) (r : ImageRef) : ImageRef :=
  {| buf := buf r; image := p; format := format r; originalFormat := originalFormat r;
     preMultiplication := preMultiplication r; optimizedIccProfile := optimizedIccProfile r |}.
Definition set_preMultiplication (pm : option PreMultiplicationState) (r : ImageRef) : ImageRef :=
  {| buf := buf r; image := image r; format := format r; originalFormat := originalFormat r;
     preMultiplication := pm; optimizedIccProfile := optimizedIccProfile r |}.
Definition set_optimizedIccProfile (path : string) (r : ImageRef) : ImageRef :=
  {| buf := buf r; image := image r; format := format r; originalFormat := originalFormat r;
     preMultiplication := preMultiplication r; optimizedIccProfile := path |}.

(** ** A state monad for method bodies

    [None] is a crash: a nil or dangling native pointer was dereferenced. *)

Definition M (A : Type) : Type := State -> option (A * State).

Definition ret {A} (a : A) : M A := fun s => Some (a, s).
Definition bind {A B} (m : M A) (k : A -> M B) : M B :=
  fun s => match m s with
           | Some (a, s1) => k a s1
           | None => None
           end.
Definition crash {A} : M A := fun _ => None.

Declare Scope go_scope.
Delimit Scope go_scope with go.
Notation "x <- m ;; k" := (bind m (fun x => k))
  (at level 100, m at next level, right associativity) : go_scope.
Notation "m ;; k" := (bind m (fun _ => k))
  (at level 100, right associativity) : go_scope.
(** [x, err := m; if err != nil { return err }] *)
Notation "x <~ m ;; k" :=
  (bind m (fun r => match r with Ok x => k | Error e => ret (Error e) end))
  (at level 100, m at next level, right associativity) : go_scope.
Open Scope go_scope.

Definition self : M ImageRef := fun s => Some (handle s, s).
Definition update (f : ImageRef -> ImageRef) : M unit :=
  fun s => Some (tt, with_handle (f (handle s)) s).
Definition emit (e : Event) : M unit := fun s => Some (tt, log e s).

(** Reading through a native pointer. *)
Definition deref (p : option N) : M VipsImage :=
  fun s => match p with
           | Some a => match heap s !! a with
                       | Some i => Some (i, s)
                       | None => None
                       end
           | None => None
           end.

Fixpoint deref_all (ps : list (option N)) : M (list (N * VipsImage)) :=
  match ps with
  | [] => ret []
  | p :: ps' =>
      i <- deref p ;;
      rest <- deref_all ps' ;;
      match p with
      | Some a => ret ((a, i) :: rest)
      | None => crash
      end
  end.

(** [defer d] around the rest of a body: [d] runs when the body returns. *)
Definition defer {A} (d : M unit) (body : M A) : M A :=
  x <- body ;; d ;; ret x.

(** ** The methods of [ImageRef] *)

(** [LabelParams] is declared outside image.go and only passed through. *)
Definition LabelParams := string.

(** An overlay of [CompositeMulti]: the handle's native pointer and its
    placement. *)
Record ImageComposite := {
  compImage : option N;
  compBlendMode : BlendMode;
  compX : Z;
  compY : Z
}.

Section Methods.

(** The engine and the package-level values image.go takes from other
    files: the table of supported types with its names, and the paths of the
    bundled colour profiles. *)
Context (E : Engine).
Context (IsTypeSupported : ImageType -> bool).
Context (ImageTypes : ImageType -> string).
Context (SRGBV2MicroICCProfilePath SGrayV2MicroICCProfilePath
         SRGBIEC6196621ICCProfilePath : string).
Context (SizeBoth : Size).

(** A fresh native object. *)
Definition alloc (i : VipsImage) : M N :=
  fun s => let p := fresh (dom (heap s)) in
           Some (p, with_heap (<[p := i]> (heap s)) s).

(** [out, err := vipsXxx(in..., args)] *)
Definition call (op : Primitive) (ins : list (option N)) : M (res N) :=
  args <- deref_all ins ;;
  emit (EvPrim op (map fst args)) ;;
  match exec E op (map snd args) with
  | Error e => ret (Error e)
  | Ok out => p <- alloc out ;; ret (Ok p)
  end.

(** An attribute write on the object behind [p]. *)
Definition edit (e : HeaderEdit) (p : option N) : M unit :=
  i <- deref p ;;
  match p with
  | Some a =>
      emit (EvEdit e a) ;;
      fun s => Some (tt, with_heap (<[a := apply_edit e i]> (heap s)) s)
  | None => crash
  end.

(** [err := vipsXxx(in, args)] for the calls that write in place. *)
Definition call_inplace (op : InPlace) (p : option N) : M (res unit) :=
  i <- deref p ;;
  match p with
  | Some a =>
      emit (EvInPlace op a) ;;
      match exec_inplace E op i with
      | Error e => ret (Error e)
      | Ok i' => fun s => Some (Ok tt, with_heap (<[a := i']> (heap s)) s)
      end
  | None => crash
  end.

(** [buf, err := vipsSaveXxxToBuffer(in, params)] *)
Definition call_save (c : SaveCall) (p : option N) : M (res (list Byte.byte)) :=
  i <- deref p ;;
  match p with
  | Some a => emit (EvSave c a) ;; ret (save E c i)
  | None => crash
  end.

(** [clearImage]: drops the reference held on a native object. *)
Definition clearImage (p : N) : M unit :=
  emit (EvClear p) ;;
  fun s => Some (tt, with_heap (delete p (heap s)) s).

(** [setImage] resets the image for this handle and frees the previous one. *)
Definition setImage (image' : option N) : M unit :=
  r <- self ;;
  if decide (image r = image') then ret tt
  else
    (match image r with
     | Some old => clearImage old
     | None => ret tt
     end) ;;
    update (set_image image').

(** [Close] *)
Definition Close : M unit :=
  r <- self ;;
  (match image r with
   | Some p => clearImage p ;; update (set_image None)
   | None => ret tt
   end) ;;
  update (set_buf None).

(** *** Queries *)

Definition Width : M Z := r <- self ;; i <- deref (image r) ;; ret (Xsize i).
Definition Height : M Z := r <- self ;; i <- deref (image r) ;; ret (Ysize i).
Definition Bands_ : M Z := r <- self ;; i <- deref (image r) ;; ret (Bands i).
Definition BandFormat_ : M BandFormat :=
  r <- self ;; i <- deref (image r) ;; ret (BandFmt i).
Definition Interpretation_ : M Interpretation :=
  r <- self ;; i <- deref (image r) ;; ret (Type_ i).
Definition ColorSpace : M Interpretation := Interpretation_.
Definition HasAlpha : M bool :=
  r <- self ;; i <- deref (image r) ;; ret (vipsHasAlpha i).
Definition HasProfile : M bool :=
  r <- self ;; i <- deref (image r) ;; ret (vipsHasICCProfile i).
Definition HasICCProfile : M bool := HasProfile.
Definition Orientation : M Z :=
  r <- self ;; i <- deref (image r) ;; ret (vipsGetMetaOrientation i).

(** [Pages]: JP2K uses the attribute for pyramid layers, so it reports 1. *)
Definition Pages : M Z :=
  r <- self ;;
  if decide (format r = ImageTypeJP2K) then ret 1
  else i <- deref (image r) ;; ret (vipsGetImageNPages i).

Definition PageHeight : M Z :=
  r <- self ;; i <- deref (image r) ;; ret (vipsGetPageHeight i).
Definition GetPageHeight : M Z :=
  r <- self ;; i <- deref (image r) ;; ret (vipsGetPageHeight i).

Definition newMetadata (format : ImageType) : M ImageMetadata :=
  w <- Width ;;
  h <- Height ;;
  c <- ColorSpace ;;
  o <- Orientation ;;
  p <- Pages ;;
  ret {| mdFormat := format; mdWidth := w; mdHeight := h;
         mdColorspace := c; mdOrientation := o; mdPages := p |}.

Definition determineInputICCProfile : M string :=
  i <- Interpretation_ ;;
  if decide (i = InterpretationCMYK) then ret "cmyk"%string else ret ""%string.

(** *** Mutations made of one primitive and one swap

    The body shared by most mutating methods:
    [out, err := vipsXxx(r.image, ...); if err != nil { return err };
     r.setImage(out); return nil]. *)
Definition transform (op : Primitive) (others : list (option N)) : M (res unit) :=
  r <- self ;;
  out <~ call op (image r :: others) ;;
  setImage (Some out) ;;
  ret (Ok tt).

(** The same with an attribute write on the copy before the swap. *)
Definition copy_edit (e : HeaderEdit) : M (res unit) :=
  r <- self ;;
  out <~ call vipsCopyImage [image r] ;;
  edit e (Some out) ;;
  setImage (Some out) ;;
  ret (Ok tt).

Definition SetOrientation (o : Z) : M (res unit) :=
  copy_edit (vipsSetMetaOrientation o).
Definition RemoveOrientation : M (res unit) :=
  copy_edit vipsRemoveMetaOrientation.

(** [SetPages]: the attribute is written on [r.image], the object about to
    be replaced, not on the copy. *)
Definition SetPages (pages : Z) : M (res unit) :=
  r <- self ;;
  out <~ call vipsCopyImage [image r] ;;
  edit (vipsSetImageNPages pages) (image r) ;;
  setImage (Some out) ;;
  ret (Ok tt).

Definition SetPageHeight (height : Z) : M (res unit) :=
  copy_edit (vipsSetPageHeight height).

Definition SetPageDelay (delay : list Z) : M (res unit) :=
  r <- self ;;
  call_inplace (vipsImageSetDelay delay) (image r).

Definition CompositeMulti (ins : list ImageComposite) : M (res unit) :=
  transform (vipsComposite (map compBlendMode ins) (map compX ins) (map compY ins))
            (map compImage ins).
Definition Composite (overlay : ImageRef) (mode : BlendMode) (x y : Z) : M (res unit) :=
  transform (vipsComposite2 mode x y) [image overlay].
Definition Insert (sub : ImageRef) (x y : Z) (expand : bool)
    (background : option ColorRGBA) : M (res unit) :=
  transform (vipsInsert x y expand background) [image sub].
Definition Join (in_ : ImageRef) (dir : Direction) : M (res unit) :=
  transform (vipsJoin dir) [image in_].
Definition ArrayJoin (images : list ImageRef) (across : Z) : M (res unit) :=
  transform (vipsArrayJoin across) (map image images).
Definition Mapim (index : ImageRef) : M (res unit) :=
  transform vipsMapim [image index].
Definition Maplut (lut : ImageRef) : M (res unit) :=
  transform vipsMaplut [image lut].
Definition ExtractBand (band num : Z) : M (res unit) :=
  transform (vipsExtractBand band num) [].
Definition BandJoin (images : list ImageRef) : M (res unit) :=
  transform vipsBandJoin (map image images).
Definition BandJoinConst (constants : list float64) : M (res unit) :=
  transform (vipsBandJoinConst constants) [].

Definition AddAlpha : M (res unit) :=
  a <- HasAlpha ;;
  if a then ret (Ok tt) else transform vipsAddAlpha [].

Definition PremultiplyAlpha : M (res unit) :=
  r <- self ;;
  match preMultiplication r with
  | Some _ => ret (Ok tt)
  | None =>
      a <- HasAlpha ;;
      if negb a then ret (Ok tt)
      else
        band <- BandFormat_ ;;
        out <~ call vipsPremultiplyAlpha [image r] ;;
        update (set_preMultiplication (Some {| bandFormat := band |})) ;;
        setImage (Some out) ;;
        ret (Ok tt)
  end.

Definition UnpremultiplyAlpha : M (res unit) :=
  r <- self ;;
  match preMultiplication r with
  | None => ret (Ok tt)
  | Some pm =>
      unpremultiplied <~ call vipsUnpremultiplyAlpha [image r] ;;
      defer (clearImage unpremultiplied)
        (out <~ call (vipsCast (bandFormat pm)) [Some unpremultiplied] ;;
         update (set_preMultiplication None) ;;
         setImage (Some out) ;;
         ret (Ok tt))
  end.

Definition Cast (format : BandFormat) : M (res unit) :=
  transform (vipsCast format) [].
Definition Add (addend : ImageRef) : M (res unit) :=
  transform vipsAdd [image addend].
Definition Multiply (multiplier : ImageRef) : M (res unit) :=
  transform vipsMultiply [image multiplier].
Definition Divide (denominator : ImageRef) : M (res unit) :=
  transform vipsDivide [image denominator].

Definition Linear (a b : list float64) : M (res unit) :=
  if negb (Nat.eqb (length a) (length b)) then ret (Error ErrLinearLength)
  else transform (vipsLinear a b (Z.of_nat (length a))) [].

Definition Linear1 (a b : float64) : M (res unit) :=
  transform (vipsLinear1 a b) [].
Definition AutoRotate : M (res unit) := transform vipsAutoRotate [].

Definition ExtractArea (left top width height : Z) : M (res unit) :=
  h <- Height ;;
  ph <- PageHeight ;;
  if ph <? h then transform (vipsExtractAreaMultiPage left top width height) []
  else transform (vipsExtractArea left top width height) [].

Definition RemoveICCProfile : M (res unit) := copy_edit vipsRemoveICCProfile.

Definition TransformICCProfile (outputProfilePath : string) : M (res unit) :=
  embedded <- HasICCProfile ;;
  let inputProfile := SRGBIEC6196621ICCProfilePath in
  transform (vipsICCTransform outputProfilePath inputProfile IntentPerceptual 0 embedded) [].

Definition OptimizeICCProfile : M (res unit) :=
  inputProfile <- determineInputICCProfile ;;
  hasProfile <- HasICCProfile ;;
  if negb hasProfile && String.eqb inputProfile ""%string then ret (Ok tt)
  else
    update (set_optimizedIccProfile SRGBV2MicroICCProfilePath) ;;
    bands <- Bands_ ;;
    (if bands <=? 2 then update (set_optimizedIccProfile SGrayV2MicroICCProfilePath)
     else ret tt) ;;
    embedded <- HasICCProfile ;;
    fmt <- BandFormat_ ;;
    let depth :=
      match fmt with
      | BandFormatUchar | BandFormatChar | BandFormatNotSet => 8
      | _ => 16
      end in
    r <- self ;;
    transform (vipsICCTransform (optimizedIccProfile r) inputProfile
                                IntentPerceptual depth embedded) [].

Definition RemoveMetadata (keep : list string) : M (res unit) :=
  copy_edit (vipsRemoveMetadata keep).
Definition ToColorSpace (interpretation : Interpretation) : M (res unit) :=
  transform (vipsToColorSpace interpretation) [].
Definition Flatten (backgroundColor : option Color) : M (res unit) :=
  transform (vipsFlatten backgroundColor) [].
Definition GaussianBlur (sigma : float64) : M (res unit) :=
  transform (vipsGaussianBlur sigma) [].
Definition Sharpen (sigma x1 m2 : float64) : M (res unit) :=
  transform (vipsSharpen sigma x1 m2) [].
Definition Invert : M (res unit) := transform vipsInvert [].

Definition DrawRect (ink : ColorRGBA) (left top width height : Z) (fill : bool)
    : M (res unit) :=
  r <- self ;;
  call_inplace (vipsDrawRect ink left top width height fill) (image r).

Definition Rank (width height index : Z) : M (res unit) :=
  transform (vipsRank width height index) [].
Definition Thumbnail (width height : Z) (crop : Interesting) : M (res unit) :=
  transform (vipsThumbnail width height crop SizeBoth) [].
Definition ThumbnailWithSize (width height : Z) (crop : Interesting) (size : Size)
    : M (res unit) :=
  transform (vipsThumbnail width height crop size) [].

Definition Embed (left top width height : Z) (extend : ExtendStrategy) : M (res unit) :=
  h <- Height ;;
  ph <- PageHeight ;;
  if ph <? h then transform (vipsEmbedMultiPage left top width height extend) []
  else transform (vipsEmbed left top width height extend) [].

Definition EmbedBackgroundRGBA (left top width height : Z)
    (backgroundColor : option ColorRGBA) : M (res unit) :=
  h <- Height ;;
  ph <- PageHeight ;;
  if ph <? h
  then transform (vipsEmbedMultiPageBackground left top width height backgroundColor) []
  else transform (vipsEmbedBackground left top width height backgroundColor) [].

Definition EmbedBackground (left top width height : Z) (backgroundColor : option Color)
    : M (res unit) :=
  match backgroundColor with
  | None => crash
  | Some bg =>
      let c := Some {| rgbaR := R bg; rgbaG := G bg; rgbaB := B bg; rgbaA := 255 |} in
      h <- Height ;;
      ph <- PageHeight ;;
      if ph <? h
      then transform (vipsEmbedMultiPageBackground left top width height c) []
      else transform (vipsEmbedBackground left top width height c) []
  end.

Definition Zoom (xFactor yFactor : Z) : M (res unit) :=
  transform (vipsZoom xFactor yFactor) [].
Definition Flip (direction : Direction) : M (res unit) :=
  transform (vipsFlip direction) [].
Definition Similarity (scale angle : float64) (backgroundColor : option ColorRGBA)
    (idx idy odx ody : float64) : M (res unit) :=
  transform (vipsSimilarity scale angle backgroundColor idx idy odx ody) [].
Definition Grid (tileHeight across down : Z) : M (res unit) :=
  transform (vipsGrid tileHeight across down) [].
Definition SmartCrop (width height : Z) (interesting : Interesting) : M (res unit) :=
  transform (vipsSmartCrop width height interesting) [].
Definition Label (labelParams : LabelParams) : M (res unit) :=
  transform (labelImage labelParams) [].
Definition Replicate (across down : Z) : M (res unit) :=
  transform (vipsReplicate across down) [].

(** *** Mutations made of several steps *)

Definition Modulate (brightness saturation hue : float64) : M (res unit) :=
  colorspace <- ColorSpace ;;
  let colorspace :=
    if decide (colorspace = InterpretationRGB) then InterpretationSRGB else colorspace in
  let multiplications := [brightness; saturation; 1%float] in
  let additions := [0%float; 0%float; hue] in
  a <- HasAlpha ;;
  let multiplications := if a then multiplications ++ [1%float] else multiplications in
  let additions := if a then additions ++ [0%float] else additions in
  _ <~ ToColorSpace InterpretationLCH ;;
  _ <~ Linear multiplications additions ;;
  _ <~ ToColorSpace colorspace ;;
  ret (Ok tt).

Definition ModulateHSV (brightness saturation : float64) (hue : Z) : M (res unit) :=
  colorspace <- ColorSpace ;;
  let colorspace :=
    if decide (colorspace = InterpretationRGB) then InterpretationSRGB else colorspace in
  a <- HasAlpha ;;
  let multiplications :=
    if a then [1%float; saturation; brightness; 1%float]
    else [1%float; saturation; brightness] in
  let additions :=
    if a then [f64_of_int hue; 0%float; 0%float; 0%float]
    else [f64_of_int hue; 0%float; 0%float] in
  _ <~ ToColorSpace InterpretationHSV ;;
  _ <~ Linear multiplications additions ;;
  _ <~ ToColorSpace colorspace ;;
  ret (Ok tt).

(** The factor [ResizeWithVScale] applies to the page height:
    [scale := hScale; if vScale != -1 { scale = vScale }]. *)
Definition page_scale (hScale vScale : float64) : float64 :=
  if negb (PrimFloat.eqb vScale (-1)%float) then vScale else hScale.

(** [int(float64(pageHeight) * scale)] *)
Definition scaled_page_height (pageHeight : Z) (scale : float64) : Z :=
  int_of_f64 (PrimFloat.mul (f64_of_int pageHeight) scale).

Definition ResizeWithVScale (hScale vScale : float64) (kernel : Kernel) : M (res unit) :=
  _ <~ PremultiplyAlpha ;;
  pages <- Pages ;;
  pageHeight <- GetPageHeight ;;
  r <- self ;;
  out <~ call (vipsResizeWithVScale hScale vScale kernel) [image r] ;;
  setImage (Some out) ;;
  _ <~ (if 1 <? pages
        then
          let scale := page_scale hScale vScale in
          let newPageHeight := scaled_page_height pageHeight scale in
          SetPageHeight newPageHeight
        else ret (Ok tt)) ;;
  UnpremultiplyAlpha.

Definition Resize (scale : float64) (kernel : Kernel) : M (res unit) :=
  ResizeWithVScale scale (-1)%float kernel.

Definition is_quarter_turn (angle : Angle) : bool :=
  match angle with Angle90 | Angle270 => true | _ => false end.

Definition Rotate (angle : Angle) : M (res unit) :=
  width <- Width ;;
  pages <- Pages ;;
  _ <~ (if (1 <? pages) && is_quarter_turn angle
        then
          _ <~ (if decide (angle = Angle270) then Flip DirectionHorizontal
                else ret (Ok tt)) ;;
          ph <- GetPageHeight ;;
          n <- Pages ;;
          _ <~ Grid ph n 1 ;;
          _ <~ (if decide (angle = Angle270) then Flip DirectionHorizontal
                else ret (Ok tt)) ;;
          ret (Ok tt)
        else ret (Ok tt)) ;;
  r <- self ;;
  out <~ call (vipsRotate angle) [image r] ;;
  setImage (Some out) ;;
  pages' <- Pages ;;
  _ <~ (if (1 <? pages') && is_quarter_turn angle
        then SetPageHeight width
        else ret (Ok tt)) ;;
  ret (Ok tt).

(** *** Export *)

(** What an export returns: [([]byte, *ImageMetadata, error)]. *)
Definition ExportOut : Type :=
  option (list Byte.byte) * option ImageMetadata * option error.

(** The tail shared by the per-codec methods. *)
Definition export_with (c : SaveCall) (format : ImageType) : M ExportOut :=
  r <- self ;;
  b <- call_save c (image r) ;;
  match b with
  | Error e => ret (None, None, Some e)
  | Ok bytes => md <- newMetadata format ;; ret (Some bytes, Some md, None)
  end.

Definition ExportJpeg (params : option JpegExportParams) : M ExportOut :=
  let params := match params with None => NewJpegExportParams | Some p => p end in
  export_with (vipsSaveJPEGToBuffer params) ImageTypeJPEG.

Definition ExportPng (params : option PngExportParams) : M ExportOut :=
  let params := match params with None => NewPngExportParams | Some p => p end in
  export_with (vipsSavePNGToBuffer params) ImageTypePNG.

Definition with_IccProfile (path : string) (p : WebpExportParams) : WebpExportParams :=
  {| webpStripMetadata := webpStripMetadata p; webpQuality := webpQuality p;
     webpLossless := webpLossless p; webpNearLossless := webpNearLossless p;
     webpReductionEffort := webpReductionEffort p; IccProfile := path |}.

(** [ExportWebp].  [params] is a pointer in Go; the struct it points to is
    threaded through the model and handed back beside the result, so that
    what the call leaves in the caller's struct can be stated.  The profile
    is written into the local copy [paramsWithIccProfile]. *)
Definition ExportWebp_inout (params : option WebpExportParams)
    : M (ExportOut * option WebpExportParams) :=
  let caller := params in
  let params := match params with None => NewWebpExportParams | Some p => p end in
  r <- self ;;
  let paramsWithIccProfile := params in
  let paramsWithIccProfile := with_IccProfile (optimizedIccProfile r) paramsWithIccProfile in
  out <- export_with (vipsSaveWebPToBuffer paramsWithIccProfile) ImageTypeWEBP ;;
  ret (out, caller).

Definition ExportWebp (params : option WebpExportParams) : M ExportOut :=
  x <- ExportWebp_inout params ;; ret (fst x).

Definition ExportHeif (params : option HeifExportParams) : M ExportOut :=
  let params := match params with None => NewHeifExportParams | Some p => p end in
  export_with (vipsSaveHEIFToBuffer params) ImageTypeHEIF.

Definition ExportTiff (params : option TiffExportParams) : M ExportOut :=
  let params := match params with None => NewTiffExportParams | Some p => p end in
  export_with (vipsSaveTIFFToBuffer params) ImageTypeTIFF.

Definition ExportGIF (params : option GifExportParams) : M ExportOut :=
  let params := match params with None => NewGifExportParams | Some p => p end in
  export_with (vipsSaveGIFToBuffer params) ImageTypeGIF.

Definition ExportAvif (params : option AvifExportParams) : M ExportOut :=
  let params := match params with None => NewAvifExportParams | Some p => p end in
  export_with (vipsSaveAVIFToBuffer params) ImageTypeAVIF.

Definition ExportJp2k (params : option Jp2kExportParams) : M ExportOut :=
  let params := match params with None => NewJp2kExportParams | Some p => p end in
  export_with (vipsSaveJP2KToBuffer params) ImageTypeJP2K.

Definition ExportNative : M ExportOut :=
  r <- self ;;
  match format r with
  | ImageTypeJPEG => ExportJpeg (Some NewJpegExportParams)
  | ImageTypePNG => ExportPng (Some NewPngExportParams)
  | ImageTypeWEBP => ExportWebp (Some NewWebpExportParams)
  | ImageTypeHEIF => ExportHeif (Some NewHeifExportParams)
  | ImageTypeTIFF => ExportTiff (Some NewTiffExportParams)
  | ImageTypeAVIF => ExportAvif (Some NewAvifExportParams)
  | ImageTypeJP2K => ExportJp2k (Some NewJp2kExportParams)
  | ImageTypeGIF => ExportGIF (Some NewGifExportParams)
  | _ => ExportJpeg (Some NewJpegExportParams)
  end.

(** [Export] once a format has been requested: the part of the method after
    [format := params.Format]. *)
Definition Export_as (params : ExportParams) : M ExportOut :=
  let format := Format params in
  if negb (IsTypeSupported format)
  then md <- newMetadata ImageTypeUnknown ;;
       ret (None, Some md, Some (ErrCannotSave (ImageTypes format)))
  else
    match format with
    | ImageTypeGIF =>
        ExportGIF (Some {| gifStripMetadata := false; gifQuality := Quality params;
                           gifDither := 0%float; gifEffort := 0; gifBitdepth := 0 |})
    | ImageTypeWEBP =>
        ExportWebp (Some {| webpStripMetadata := StripMetadata params;
                            webpQuality := Quality params;
                            webpLossless := Lossless params;
                            webpNearLossless := false;
                            webpReductionEffort := Effort params;
                            IccProfile := ""%string |})
    | ImageTypePNG =>
        ExportPng (Some {| pngStripMetadata := StripMetadata params;
                           pngCompression := Compression params;
                           pngFilter := PngFilterUnset;
                           pngInterlace := Interlaced params;
                           pngQuality := 0; pngPalette := false; pngDither := 0%float;
                           pngBitdepth := 0; pngProfile := ""%string |})
    | ImageTypeTIFF =>
        let compression :=
          if Lossless params then TiffCompressionNone else TiffCompressionLzw in
        ExportTiff (Some {| tiffStripMetadata := StripMetadata params;
                            tiffQuality := Quality params;
                            tiffCompression := compression;
                            tiffPredictor := TiffPredictorUnset |})
    | ImageTypeHEIF =>
        ExportHeif (Some {| heifQuality := Quality params; heifLossless := Lossless params |})
    | ImageTypeAVIF =>
        ExportAvif (Some {| avifStripMetadata := StripMetadata params;
                            avifQuality := Quality params;
                            avifLossless := Lossless params;
                            avifSpeed := Speed params |})
    | _ =>
        ExportJpeg (Some {| jpegStripMetadata := StripMetadata params;
                            jpegQuality := Quality params;
                            jpegInterlace := Interlaced params;
                            jpegOptimizeCoding := OptimizeCoding params;
                            jpegSubsampleMode := SubsampleMode_ params;
                            jpegTrellisQuant := TrellisQuant params;
                            jpegOvershootDeringing := OvershootDeringing params;
                            jpegOptimizeScans := OptimizeScans params;
                            jpegQuantTable := QuantTable params |})
    end.

(** [Export]: nil parameters or an unset format go to [ExportNative]. *)
Definition Export (params : option ExportParams) : M ExportOut :=
  match params with
  | None => ExportNative
  | Some p =>
      if decide (Format p = ImageTypeUnknown) then ExportNative
      else Export_as p
  end.

End Methods.

(** ** A small engine and sample handles

    A stand-in for the native library, used to run the methods on concrete
    handles.  It tracks the header only: premultiplication promotes to
    float, a cast sets the band format, a resize needs a positive scale and
    scales the geometry, a grid lays [across * down] tiles out, a quarter
    turn swaps width and height, and [linear] wants one constant or one per
    band. *)

Definition with_geometry (w h : Z) (i : VipsImage) : VipsImage :=
  {| Xsize := w; Ysize := h; Bands := Bands i; BandFmt := BandFmt i;
     Type_ := Type_ i; has_alpha_channel := has_alpha_channel i;
     n_pages := n_pages i; page_height := page_height i;
     orientation := orientation i; icc_profile := icc_profile i; payload := payload i |}.
Definition with_BandFmt (f : BandFormat) (i : VipsImage) : VipsImage :=
  {| Xsize := Xsize i; Ysize := Ysize i; Bands := Bands i; BandFmt := f;
     Type_ := Type_ i; has_alpha_channel := has_alpha_channel i;
     n_pages := n_pages i; page_height := page_height i;
     orientation := orientation i; icc_profile := icc_profile i; payload := payload i |}.
Definition with_Type (c : Interpretation) (i : VipsImage) : VipsImage :=
  {| Xsize := Xsize i; Ysize := Ysize i; Bands := Bands i; BandFmt := BandFmt i;
     Type_ := c; has_alpha_channel := has_alpha_channel i;
     n_pages := n_pages i; page_height := page_height i;
     orientation := orientation i; icc_profile := icc_profile i; payload := payload i |}.
Definition with_alpha (i : VipsImage) : VipsImage :=
  {| Xsize := Xsize i; Ysize := Ysize i; Bands := Bands i + 1; BandFmt := BandFmt i;
     Type_ := Type_ i; has_alpha_channel := true;
     n_pages := n_pages i; page_height := page_height i;
     orientation := orientation i; icc_profile := icc_profile i; payload := payload i |}.

Definition sample_exec (op : Primitive) (ins : list VipsImage) : res VipsImage :=
  match ins with
  | [] => Error (NativeError "no input image")
  | i :: _ =>
      match op with
      | vipsPremultiplyAlpha | vipsUnpremultiplyAlpha => Ok (with_BandFmt BandFormatFloat i)
      | vipsCast f => Ok (with_BandFmt f i)
      | vipsToColorSpace c => Ok (with_Type c i)
      | vipsAddAlpha => Ok (with_alpha i)
      | vipsLinear _ _ n =>
          if (n =? Bands i) || (n =? 1) then Ok i
          else Error (NativeError "linear: vector must have 1 or bands elements")
      | vipsResizeWithVScale h v _ =>
          if PrimFloat.ltb 0%float h
          then Ok (with_geometry (scaled_page_height (Xsize i) h)
                                 (scaled_page_height (Ysize i) (page_scale h v)) i)
          else Error (NativeError "resize: scale out of range")
      | vipsGrid tileHeight across down =>
          Ok (with_geometry (Xsize i * across) (tileHeight * down) i)
      | vipsRotate a =>
          if is_quarter_turn a then Ok (with_geometry (Ysize i) (Xsize i) i) else Ok i
      | _ => Ok i
      end
  end.

Definition sample_engine : Engine :=
  {| exec := sample_exec;
     exec_inplace := fun _ i => Ok i;
     save := fun _ _ => Ok [] |}.

(** Every named type can be written except the ones image.go has no name
    for. *)
Definition sample_supported (t : ImageType) : bool :=
  match t with
  | ImageTypeUnknown | ImageTypeOther _ => false
  | _ => true
  end.

Definition sample_names (t : ImageType) : string :=
  match t with
  | ImageTypeUnknown => "" | ImageTypeGIF => "gif" | ImageTypeJPEG => "jpeg"
  | ImageTypePNG => "png" | ImageTypeTIFF => "tiff" | ImageTypeWEBP => "webp"
  | ImageTypeHEIF => "heif" | ImageTypeAVIF => "avif" | ImageTypeJP2K => "jp2k"
  | ImageTypeOther _ => ""
  end.

(** A three-frame animation, 100 wide, frames of height 80, with alpha. *)
Definition animation : VipsImage :=
  {| Xsize := 100; Ysize := 240; Bands := 4; BandFmt := BandFormatUchar;
     Type_ := InterpretationSRGB; has_alpha_channel := true;
     n_pages := 3; page_height := 80; orientation := 0; icc_profile := false;
     payload := 0 |}.

(** An opaque 100 x 100 picture. *)
Definition photo : VipsImage :=
  {| Xsize := 100; Ysize := 100; Bands := 3; BandFmt := BandFormatUchar;
     Type_ := InterpretationSRGB; has_alpha_channel := false;
     n_pages := 1; page_height := 100; orientation := 0; icc_profile := false;
     payload := 0 |}.

(** A handle freshly loaded from [i], detected as [t]. *)
Definition loaded (i : VipsImage) (t : ImageType) : State :=
  {| handle := {| buf := Some []; image := Some 7%N; format := t; originalFormat := t;
                  preMultiplication := None; optimizedIccProfile := "" |};
     heap := {[ 7%N := i ]};
     trace := [] |}.


(** ** Observations, outcomes and sample data *)

(** [m] called [n] times in a row. *)
Fixpoint repeatM (n : nat) (m : M unit) : M unit :=
  match n with
  | O => ret tt
  | S n' => m ;; repeatM n' m
  end.

(** What a caller can see of a handle: the native pointer, the two format
    fields, the pre-multiplication state, and the native object the pointer
    leads to (which carries the page attributes). *)
Definition observe (s : State)
    : option N * ImageType * ImageType * option PreMultiplicationState * option VipsImage :=
  (image (handle s), format (handle s), originalFormat (handle s),
   preMultiplication (handle s),
   match image (handle s) with
   | Some p => heap s !! p
   | None => None
   end).

(** The handle of [s] points to the native object [i] at address [p]. *)
Definition live (s : State) (p : N) (i : VipsImage) : Prop :=
  image (handle s) = Some p /\ heap s !! p = Some i.

(** The state [setImage] leaves when the incoming pointer differs from the
    current one. *)
Definition swapped (image' : option N) (s : State) : State :=
  {| handle := set_image image' (handle s);
     heap := match image (handle s) with
             | Some old => delete old (heap s)
             | None => heap s
             end;
     trace := trace s ++ match image (handle s) with
                         | Some old => [EvClear old]
                         | None => []
                         end |}.

(** The state a successful [transform] leaves: the new object sits at a
    fresh address, the old one is released. *)
Definition replaced (op : Primitive) (ins : list N) (p : N) (out : VipsImage)
    (s : State) : State :=
  {| handle := set_image (Some (fresh (dom (heap s)))) (handle s);
     heap := delete p (<[fresh (dom (heap s)) := out]> (heap s));
     trace := trace s ++ [EvPrim op ins; EvClear p] |}.

(** The page count [Pages] reports for a handle of format [t] on image [i]. *)
Definition page_count (t : ImageType) (i : VipsImage) : Z :=
  if decide (t = ImageTypeJP2K) then 1 else n_pages i.

(** The state a successful copy-and-edit leaves. *)
Definition edited (e : HeaderEdit) (p : N) (out : VipsImage) (s : State) : State :=
  {| handle := set_image (Some (fresh (dom (heap s)))) (handle s);
     heap := delete p (<[fresh (dom (heap s)) := apply_edit e out]> (heap s));
     trace := trace s ++ [EvPrim vipsCopyImage [p];
                          EvEdit e (fresh (dom (heap s))); EvClear p] |}.

(** The formats [ExportNative] has an encoder for. *)
Definition encodable (t : ImageType) : bool :=
  match t with
  | ImageTypeJPEG | ImageTypePNG | ImageTypeWEBP | ImageTypeHEIF
  | ImageTypeTIFF | ImageTypeAVIF | ImageTypeJP2K | ImageTypeGIF => true
  | _ => false
  end.

(** The format an export without a requested format ends in. *)
Definition native_target (t : ImageType) : ImageType :=
  if encodable t then t else ImageTypeJPEG.

(** The encoder of an encodable format with that codec's default parameter
    set; the WEBP set carries the profile the handle has recorded. *)
Definition default_call (t : ImageType) (profile : string) : SaveCall :=
  match t with
  | ImageTypePNG => vipsSavePNGToBuffer NewPngExportParams
  | ImageTypeWEBP => vipsSaveWebPToBuffer (with_IccProfile profile NewWebpExportParams)
  | ImageTypeHEIF => vipsSaveHEIFToBuffer NewHeifExportParams
  | ImageTypeTIFF => vipsSaveTIFFToBuffer NewTiffExportParams
  | ImageTypeAVIF => vipsSaveAVIFToBuffer NewAvifExportParams
  | ImageTypeJP2K => vipsSaveJP2KToBuffer NewJp2kExportParams
  | ImageTypeGIF => vipsSaveGIFToBuffer NewGifExportParams
  | _ => vipsSaveJPEGToBuffer NewJpegExportParams
  end.

(** What an export method hands back once the encoder has answered. *)
Definition export_result (b : res (list Byte.byte)) (md : ImageMetadata) : ExportOut :=
  match b with
  | Error e => (None, None, Some e)
  | Ok bytes => (Some bytes, Some md, None)
  end.

Definition metadata_of (t : ImageType) (r : ImageRef) (i : VipsImage) : ImageMetadata :=
  {| mdFormat := t; mdWidth := Xsize i; mdHeight := Ysize i;
     mdColorspace := Type_ i; mdOrientation := orientation i;
     mdPages := page_count (format r) i |}.

(** A handle on [photo] whose profile has been optimised. *)
Definition optimized_photo : State :=
  {| handle := {| buf := Some []; image := Some 7%N; format := ImageTypeWEBP;
                  originalFormat := ImageTypeWEBP; preMultiplication := None;
                  optimizedIccProfile := "srgb_v2_micro.icc" |};
     heap := {[ 7%N := photo ]};
     trace := [] |}.

Definition caller_webp : WebpExportParams :=
  {| webpStripMetadata := true; webpQuality := 90; webpLossless := false;
     webpNearLossless := false; webpReductionEffort := 2;
     IccProfile := "caller.icc" |}.

Definition bmp_request : ExportParams :=
  {| Format := ImageTypeOther 10; Quality := 80; Compression := 6; Interlaced := true;
     Lossless := false; Effort := 4; StripMetadata := false; OptimizeCoding := false;
     SubsampleMode_ := 0; TrellisQuant := false; OvershootDeringing := false;
     OptimizeScans := false; QuantTable := 0; Speed := 0 |}.

(** The state after a premultiplication that took place. *)
Definition premultiplied (p : N) (i out : VipsImage) (s : State) : State :=
  replaced vipsPremultiplyAlpha [p] p out
    (with_handle (set_preMultiplication (Some {| bandFormat := BandFmt i |}) (handle s)) s).

(** The state after the cast back failed: the intermediate object has been
    released again, the handle is as before. *)
Definition cast_failed (p : N) (f : BandFormat) (u : VipsImage) (s : State) : State :=
  let q := fresh (dom (heap s)) in
  {| handle := handle s;
     heap := delete q (<[q := u]> (heap s));
     trace := trace s ++ [EvPrim vipsUnpremultiplyAlpha [p]; EvPrim (vipsCast f) [q];
                          EvClear q] |}.

(** The state after a reversal that took place. *)
Definition unpremultiplied (p : N) (f : BandFormat) (u out : VipsImage) (s : State)
    : State :=
  let q := fresh (dom (heap s)) in
  let q2 := fresh (dom (<[q := u]> (heap s))) in
  {| handle := set_image (Some q2) (set_preMultiplication None (handle s));
     heap := delete q (delete p (<[q2 := out]> (<[q := u]> (heap s))));
     trace := trace s ++ [EvPrim vipsUnpremultiplyAlpha [p]; EvPrim (vipsCast f) [q];
                          EvClear p; EvClear q] |}.

(** The contract of the cast primitive: its result has the band format it
    was asked for. *)
Definition cast_sets_format (E : Engine) : Prop :=
  forall f i out, exec E (vipsCast f) [i] = Ok out -> BandFmt out = f.

(** The round trip as the claim words it, for any handle whose image has an
    alpha channel. *)
Definition roundtrip_restores_format (E : Engine) : Prop :=
  forall s p i s1 s2,
    live s p i -> vipsHasAlpha i = true ->
    PremultiplyAlpha E s = Some (Ok tt, s1) ->
    UnpremultiplyAlpha E s1 = Some (Ok tt, s2) ->
    exists q j, live s2 q j /\ BandFmt j = BandFmt i /\
                preMultiplication (handle s2) = None.

(** A handle on [animation] on which [PremultiplyAlpha] has already been
    called: the image is float, the tracker remembers uchar. *)
Definition already_premultiplied : State :=
  {| handle := {| buf := Some []; image := Some 7%N; format := ImageTypeGIF;
                  originalFormat := ImageTypeGIF;
                  preMultiplication := Some {| bandFormat := BandFormatUchar |};
                  optimizedIccProfile := "" |};
     heap := {[ 7%N := with_BandFmt BandFormatFloat animation ]};
     trace := [] |}.

(** A call of a mutating method of [ImageRef], with its arguments. *)
Inductive Mutation :=
| CallSetOrientation (o : Z)
| CallRemoveOrientation
| CallSetPages (pages : Z)
| CallSetPageHeight (height : Z)
| CallSetPageDelay (delay : list Z)
| CallCompositeMulti (ins : list ImageComposite)
| CallComposite (overlay : ImageRef) (mode : BlendMode) (x y : Z)
| CallInsert (sub : ImageRef) (x y : Z) (expand : bool) (background : option ColorRGBA)
| CallJoin (in_ : ImageRef) (dir : Direction)
| CallArrayJoin (images : list ImageRef) (across : Z)
| CallMapim (index : ImageRef)
| CallMaplut (lut : ImageRef)
| CallExtractBand (band num : Z)
| CallBandJoin (images : list ImageRef)
| CallBandJoinConst (constants : list float64)
| CallAddAlpha
| CallPremultiplyAlpha
| CallUnpremultiplyAlpha
| CallCast (format : BandFormat)
| CallAdd (addend : ImageRef)
| CallMultiply (multiplier : ImageRef)
| CallDivide (denominator : ImageRef)
| CallLinear (a b : list float64)
| CallLinear1 (a b : float64)
| CallAutoRotate
| CallExtractArea (left top width height : Z)
| CallRemoveICCProfile
| CallTransformICCProfile (outputProfilePath : string)
| CallOptimizeICCProfile
| CallRemoveMetadata (keep : list string)
| CallToColorSpace (interpretation : Interpretation)
| CallFlatten (backgroundColor : option Color)
| CallGaussianBlur (sigma : float64)
| CallSharpen (sigma x1 m2 : float64)
| CallModulate (brightness saturation hue : float64)
| CallModulateHSV (brightness saturation : float64) (hue : Z)
| CallInvert
| CallDrawRect (ink : ColorRGBA) (left top width height : Z) (fill : bool)
| CallRank (width height index : Z)
| CallResize (scale : float64) (kernel : Kernel)
| CallResizeWithVScale (hScale vScale : float64) (kernel : Kernel)
| CallThumbnail (width height : Z) (crop : Interesting)
| CallThumbnailWithSize (width height : Z) (crop : Interesting) (size : Size)
| CallEmbed (left top width height : Z) (extend : ExtendStrategy)
| CallEmbedBackground (left top width height : Z) (backgroundColor : option Color)
| CallEmbedBackgroundRGBA (left top width height : Z) (backgroundColor : option ColorRGBA)
| CallZoom (xFactor yFactor : Z)
| CallFlip (direction : Direction)
| CallRotate (angle : Angle)
| CallSimilarity (scale angle : float64) (backgroundColor : option ColorRGBA)
                 (idx idy odx ody : float64)
| CallGrid (tileHeight across down : Z)
| CallSmartCrop (width height : Z) (interesting : Interesting)
| CallLabel (labelParams : LabelParams)
| CallReplicate (across down : Z).

(** The methods whose body strings several mutating calls together. *)
Definition composed (m : Mutation) : bool :=
  match m with
  | CallModulate _ _ _ | CallModulateHSV _ _ _ | CallResize _ _
  | CallResizeWithVScale _ _ _ | CallRotate _ => true
  | _ => false
  end.

Create HintDb methods.
#[global] Hint Unfold SetOrientation RemoveOrientation SetPageHeight SetPageDelay
  CompositeMulti Composite Insert Join ArrayJoin Mapim Maplut ExtractBand BandJoin
  BandJoinConst Cast Add Multiply Divide Linear1 AutoRotate RemoveICCProfile
  RemoveMetadata ToColorSpace Flatten GaussianBlur Sharpen Invert DrawRect Rank
  Thumbnail ThumbnailWithSize Zoom Flip Similarity Grid SmartCrop Label Replicate
  : methods.

Section Invoke.
Context (E : Engine).
Context (SRGBV2MicroICCProfilePath SGrayV2MicroICCProfilePath
         SRGBIEC6196621ICCProfilePath : string).
Context (SizeBoth : Size).

(** The method body a call stands for. *)
Definition invoke (m : Mutation) : M (res unit) :=
  match m with
  | CallSetOrientation o => SetOrientation E o
  | CallRemoveOrientation => RemoveOrientation E
  | CallSetPages pages => SetPages E pages
  | CallSetPageHeight height => SetPageHeight E height
  | CallSetPageDelay delay => SetPageDelay E delay
  | CallCompositeMulti ins => CompositeMulti E ins
  | CallComposite overlay mode x y => Composite E overlay mode x y
  | CallInsert sub x y expand background => Insert E sub x y expand background
  | CallJoin in_ dir => Join E in_ dir
  | CallArrayJoin images across => ArrayJoin E images across
  | CallMapim index => Mapim E index
  | CallMaplut lut => Maplut E lut
  | CallExtractBand band num => ExtractBand E band num
  | CallBandJoin images => BandJoin E images
  | CallBandJoinConst constants => BandJoinConst E constants
  | CallAddAlpha => AddAlpha E
  | CallPremultiplyAlpha => PremultiplyAlpha E
  | CallUnpremultiplyAlpha => UnpremultiplyAlpha E
  | CallCast format => Cast E format
  | CallAdd addend => Add E addend
  | CallMultiply multiplier => Multiply E multiplier
  | CallDivide denominator => Divide E denominator
  | CallLinear a b => Linear E a b
  | CallLinear1 a b => Linear1 E a b
  | CallAutoRotate => AutoRotate E
  | CallExtractArea x0 y0 width height => ExtractArea E x0 y0 width height
  | CallRemoveICCProfile => RemoveICCProfile E
  | CallTransformICCProfile path =>
      TransformICCProfile E SRGBIEC6196621ICCProfilePath path
  | CallOptimizeICCProfile =>
      OptimizeICCProfile E SRGBV2MicroICCProfilePath SGrayV2MicroICCProfilePath
  | CallRemoveMetadata keep => RemoveMetadata E keep
  | CallToColorSpace interpretation => ToColorSpace E interpretation
  | CallFlatten backgroundColor => Flatten E backgroundColor
  | CallGaussianBlur sigma => GaussianBlur E sigma
  | CallSharpen sigma x1 m2 => Sharpen E sigma x1 m2
  | CallModulate brightness saturation hue => Modulate E brightness saturation hue
  | CallModulateHSV brightness saturation hue => ModulateHSV E brightness saturation hue
  | CallInvert => Invert E
  | CallDrawRect ink x0 y0 width height fill =>
      DrawRect E ink x0 y0 width height fill
  | CallRank width height index => Rank E width height index
  | CallResize scale kernel => Resize E scale kernel
  | CallResizeWithVScale hScale vScale kernel => ResizeWithVScale E hScale vScale kernel
  | CallThumbnail width height crop => Thumbnail E SizeBoth width height crop
  | CallThumbnailWithSize width height crop size =>
      ThumbnailWithSize E width height crop size
  | CallEmbed x0 y0 width height extend => Embed E x0 y0 width height extend
  | CallEmbedBackground x0 y0 width height backgroundColor =>
      EmbedBackground E x0 y0 width height backgroundColor
  | CallEmbedBackgroundRGBA x0 y0 width height backgroundColor =>
      EmbedBackgroundRGBA E x0 y0 width height backgroundColor
  | CallZoom xFactor yFactor => Zoom E xFactor yFactor
  | CallFlip direction => Flip E direction
  | CallRotate angle => Rotate E angle
  | CallSimilarity scale angle backgroundColor idx idy odx ody =>
      Similarity E scale angle backgroundColor idx idy odx ody
  | CallGrid tileHeight across down => Grid E tileHeight across down
  | CallSmartCrop width height interesting => SmartCrop E width height interesting
  | CallLabel labelParams => Label E labelParams
  | CallReplicate across down => Replicate E across down
  end.

End Invoke.

(** [m] neither calls the engine nor changes what a caller can see. *)
Definition silent {A} (m : M A) : Prop :=
  forall s a s', m s = Some (a, s') -> trace s' = trace s /\ observe s' = observe s.

(** An error return leaves what a caller can see as it was. *)
Definition fail_safe (m : M (res unit)) : Prop :=
  forall s e s', m s = Some (Error e, s') -> observe s' = observe s.

(** [m] is fail-safe, and when it succeeds it has either done nothing or
    made at least two native calls (a primitive and a release). *)
Definition stage (m : M (res unit)) : Prop :=
  forall s r s', m s = Some (r, s') ->
    exists new, trace s' = trace s ++ new /\
      match r with
      | Error _ => observe s' = observe s
      | Ok _ => (new = [] /\ observe s' = observe s) \/ (2 <= length new)%nat
      end.

(** An error return after at most one native call leaves what a caller can
    see as it was; a success has either done nothing or made at least two
    native calls.  Unlike [stage], this survives sequencing. *)
Definition guarded (m : M (res unit)) : Prop :=
  forall s r s', m s = Some (r, s') ->
    exists new, trace s' = trace s ++ new /\
      match r with
      | Error _ => (length new <= 1)%nat -> observe s' = observe s
      | Ok _ => (new = [] /\ observe s' = observe s) \/ (2 <= length new)%nat
      end.

(** C1 as stated: every mutating method is fail-safe. *)
Definition every_mutation_fail_safe (E : Engine) : Prop :=
  forall m s e s',
    invoke E "srgb.icc" "sgray.icc" "srgb_iec.icc" 0 m s = Some (Error e, s') ->
    observe s' = observe s.

(** Contracts of a primitive on the page attributes of its result. *)
Definition keeps_page_count (E : Engine) (op : Primitive) : Prop :=
  forall i out, exec E op [i] = Ok out -> n_pages out = n_pages i.
Definition keeps_page_height (E : Engine) (op : Primitive) : Prop :=
  forall i out, exec E op [i] = Ok out -> page_height out = page_height i.


(** The mirroring [Rotate] wraps around the grid: for [Angle270] the image is
    flipped horizontally, for any other angle it is passed on as it is. *)
Definition mirrored_for (E : Engine) (angle : Angle) (x y : VipsImage) : Prop :=
  if decide (angle = Angle270) then exec E (vipsFlip DirectionHorizontal) [x] = Ok y
  else y = x.

(** No event of [t] writes the page-height attribute. *)
Definition no_page_height_write (t : list Event) : Prop :=
  forall h q, ~ In (EvEdit (vipsSetPageHeight h) q) t.

(** The state a run ends in ([d] if it crashed). *)
Definition final_state {A} (o : option (A * State)) (d : State) : State :=
  match o with
  | Some (_, s) => s
  | None => d
  end.

(** ** The rest of image.go: orientation, import options, copies, pixelate *)

(** [GetRotationAngleFromExif]: the angle an EXIF orientation stands for and
    whether the picture is mirrored. *)
Definition GetRotationAngleFromExif (orientation : Z) : Angle * bool :=
  if (orientation =? 0) || (orientation =? 1) || (orientation =? 2)
  then (Angle0, orientation =? 2)
  else if (orientation =? 3) || (orientation =? 4)
  then (Angle180, orientation =? 4)
  else if (orientation =? 5) || (orientation =? 8)
  then (Angle90, orientation =? 5)
  else if (orientation =? 6) || (orientation =? 7)
  then (Angle270, orientation =? 7)
  else (Angle0, false).

(** A value stored in a Go [interface{}]. *)
Inductive GoValue :=
| GoBool (b : bool)
| GoInt (n : Z)
| GoFloat64 (f : float64).

(** [Parameter] (a reserved word here, hence the underscore): an optional
    value; a nil interface is [None]. *)
Record Parameter_ := { value : option GoValue; isSet : bool }.

Definition IsSet (p : Parameter_) : bool := isSet p.

(** [Parameter.set] *)
Definition Parameter_set (v : GoValue) (p : Parameter_) : Parameter_ :=
  {| value := Some v; isSet := true |}.

(** The zero value of a [Parameter]. *)
Definition unset : Parameter_ := {| value := None; isSet := false |}.

(** [Set] and [Get] of [BoolParameter], [IntParameter] and
    [Float64Parameter].  [Get] asserts the dynamic type of the stored value
    and panics ([None]) when the assertion fails. *)
Definition BoolParameter_Set (v : bool) (p : Parameter_) : Parameter_ :=
  Parameter_set (GoBool v) p.
Definition BoolParameter_Get (p : Parameter_) : option bool :=
  match value p with
  | Some (GoBool b) => Some b
  | _ => None
  end.
Definition IntParameter_Set (v : Z) (p : Parameter_) : Parameter_ :=
  Parameter_set (GoInt v) p.
Definition IntParameter_Get (p : Parameter_) : option Z :=
  match value p with
  | Some (GoInt n) => Some n
  | _ => None
  end.
Definition Float64Parameter_Set (v : float64) (p : Parameter_) : Parameter_ :=
  Parameter_set (GoFloat64 v) p.
Definition Float64Parameter_Get (p : Parameter_) : option float64 :=
  match value p with
  | Some (GoFloat64 f) => Some f
  | _ => None
  end.

(** [ImportParams] ([AutoRotate_] is the field [AutoRotate]). *)
Record ImportParams := {
  AutoRotate_ : Parameter_;
  FailOnError : Parameter_;
  Page : Parameter_;
  NumPages : Parameter_;
  Density : Parameter_;
  JpegShrinkFactor : Parameter_;
  HeifThumbnail : Parameter_;
  SvgUnlimited : Parameter_
}.

Definition NewImportParams : ImportParams :=
  {| AutoRotate_ := unset; FailOnError := BoolParameter_Set true unset;
     Page := unset; NumPages := unset; Density := unset;
     JpegShrinkFactor := unset; HeifThumbnail := unset; SvgUnlimited := unset |}.

Definition boolToStr (v : bool) : string :=
  if v then "TRUE"%string else "FALSE"%string.

(** [strconv.Itoa] *)
Definition Itoa (n : Z) : string := NilZero.string_of_int (Z.to_int n).

(** [if v := p; v.IsSet() { values = append(values, key+strconv.Itoa(v.Get())) }] *)
Definition append_int (key : string) (p : Parameter_) (values : list string)
    : option (list string) :=
  if IsSet p
  then match IntParameter_Get p with
       | Some n => Some (values ++ [String.append key (Itoa n)])
       | None => None
       end
  else Some values.

(** [if v := p; v.IsSet() { values = append(values, key+boolToStr(v.Get())) }] *)
Definition append_bool (key : string) (p : Parameter_) (values : list string)
    : option (list string) :=
  if IsSet p
  then match BoolParameter_Get p with
       | Some b => Some (values ++ [String.append key (boolToStr b)])
       | None => None
       end
  else Some values.

(** [OptionString]: the set options as [key=value], joined by commas. *)
Definition OptionString (i : ImportParams) : option string :=
  values ← append_int "n=" (NumPages i) [];
  values ← append_int "page=" (Page i) values;
  values ← append_int "dpi=" (Density i) values;
  values ← append_bool "fail=" (FailOnError i) values;
  values ← append_int "shrink=" (JpegShrinkFactor i) values;
  values ← append_bool "autorotate=" (AutoRotate_ i) values;
  values ← append_bool "unlimited=" (SvgUnlimited i) values;
  values ← append_bool "thumbnail=" (HeifThumbnail i) values;
  Some (String.concat "," values).

(** A parameter as the exported API can build it: never set, or set through
    the [Set] of its type. *)
Definition int_parameter (p : Parameter_) : Prop :=
  isSet p = true -> exists n, value p = Some (GoInt n).
Definition bool_parameter (p : Parameter_) : Prop :=
  isSet p = true -> exists b, value p = Some (GoBool b).

Definition well_typed (i : ImportParams) : Prop :=
  int_parameter (NumPages i) /\ int_parameter (Page i) /\ int_parameter (Density i) /\
  bool_parameter (FailOnError i) /\ int_parameter (JpegShrinkFactor i) /\
  bool_parameter (AutoRotate_ i) /\ bool_parameter (SvgUnlimited i) /\
  bool_parameter (HeifThumbnail i).

(** How many options of [i] are set. *)
Definition set_count (i : ImportParams) : nat :=
  length (List.filter isSet
            [NumPages i; Page i; Density i; FailOnError i; JpegShrinkFactor i;
             AutoRotate_ i; SvgUnlimited i; HeifThumbnail i]).

(** How many commas a string holds. *)
Fixpoint commas (s : string) : nat :=
  match s with
  | EmptyString => 0
  | String c s' => (if Ascii.eqb c ","%char then 1 else 0) + commas s'
  end.

(** [newImageRef], without the finalizer it registers. *)
Definition newImageRef (vipsImage : option N) (currentFormat originalFormat : ImageType)
    (buf : option (list Byte.byte)) : ImageRef :=
  {| buf := buf; image := vipsImage; format := currentFormat;
     originalFormat := originalFormat; preMultiplication := None;
     optimizedIccProfile := "" |}.

(** The error [Pixelate] returns: its own, or the one a resize returned. *)
Inductive PixelateError :=
| ErrFactor                 (* "factor must be greater then 1" *)
| ErrResize (e : error).

Section MoreMethods.
Context (E : Engine).
Context (SRGBV2MicroICCProfilePath SGrayV2MicroICCProfilePath
         SRGBIEC6196621ICCProfilePath : string).
Context (SizeBoth : Size).

(** [Copy]: a new handle on a copy of the image. *)
Definition Copy : M (res ImageRef) :=
  r <- self ;;
  out <~ call E vipsCopyImage [image r] ;;
  ret (Ok (newImageRef (Some out) (format r) (originalFormat r) (buf r))).

(** [Metadata] *)
Definition Metadata : M ImageMetadata :=
  r <- self ;;
  newMetadata (format r).

(** [Pixelate], a package-level function on a handle. *)
Definition Pixelate (factor : float64) : M (option PixelateError) :=
  if PrimFloat.ltb factor 1%float then ret (Some ErrFactor)
  else
    width <- Width ;;
    height <- Height ;;
    r1 <- Resize E (PrimFloat.div 1%float factor) KernelAuto ;;
    match r1 with
    | Error e => ret (Some (ErrResize e))
    | Ok _ =>
        width' <- Width ;;
        height' <- Height ;;
        let hScale := PrimFloat.div (f64_of_int width) (f64_of_int width') in
        let vScale := PrimFloat.div (f64_of_int height) (f64_of_int height') in
        r2 <- ResizeWithVScale E hScale vScale KernelNearest ;;
        match r2 with
        | Error e => ret (Some (ErrResize e))
        | Ok _ => ret None
        end
    end.

(** A caller making the calls [ms] one after the other, whatever each
    returns. *)
Fixpoint run_calls (ms : list Mutation) : M (list (res unit)) :=
  match ms with
  | [] => ret []
  | m :: ms' =>
      r <- invoke E SRGBV2MicroICCProfilePath SGrayV2MicroICCProfilePath
             SRGBIEC6196621ICCProfilePath SizeBoth m ;;
      rs <- run_calls ms' ;;
      ret (r :: rs)
  end.

End MoreMethods.

(** *** Vocabulary for the properties below *)

(** The codec a request for format [f] ends in when [Export] is given a
    supported format: six formats have a case of their own, every other one
    takes the JPEG branch. *)
Definition generic_target (f : ImageType) : ImageType :=
  match f with
  | ImageTypeGIF | ImageTypeWEBP | ImageTypePNG | ImageTypeTIFF
  | ImageTypeHEIF | ImageTypeAVIF => f
  | _ => ImageTypeJPEG
  end.

(** The codec an encoder call belongs to. *)
Definition codec_of (c : SaveCall) : ImageType :=
  match c with
  | vipsSaveJPEGToBuffer _ => ImageTypeJPEG
  | vipsSavePNGToBuffer _ => ImageTypePNG
  | vipsSaveWebPToBuffer _ => ImageTypeWEBP
  | vipsSaveHEIFToBuffer _ => ImageTypeHEIF
  | vipsSaveTIFFToBuffer _ => ImageTypeTIFF
  | vipsSaveGIFToBuffer _ => ImageTypeGIF
  | vipsSaveAVIFToBuffer _ => ImageTypeAVIF
  | vipsSaveJP2KToBuffer _ => ImageTypeJP2K
  end.

(** [ep] with the chosen groups of fields kept and every other field put
    back to its zero value; [jpeg] stands for the six fields only the JPEG
    encoder knows. *)
Definition pick (ep : ExportParams)
    (quality compression interlaced lossless effort strip jpeg speed : bool)
    : ExportParams :=
  {| Format := Format ep;
     Quality := if quality then Quality ep else 0;
     Compression := if compression then Compression ep else 0;
     Interlaced := if interlaced then Interlaced ep else false;
     Lossless := if lossless then Lossless ep else false;
     Effort := if effort then Effort ep else 0;
     StripMetadata := if strip then StripMetadata ep else false;
     OptimizeCoding := if jpeg then OptimizeCoding ep else false;
     SubsampleMode_ := if jpeg then SubsampleMode_ ep else 0;
     TrellisQuant := if jpeg then TrellisQuant ep else false;
     OvershootDeringing := if jpeg then OvershootDeringing ep else false;
     OptimizeScans := if jpeg then OptimizeScans ep else false;
     QuantTable := if jpeg then QuantTable ep else 0;
     Speed := if speed then Speed ep else 0 |}.

(** [ep] reduced to the fields the codec of [Format ep] is handed. *)
Definition forwarded (ep : ExportParams) : ExportParams :=
  match Format ep with
  | ImageTypeGIF => pick ep true false false false false false false false
  | ImageTypeWEBP => pick ep true false false true true true false false
  | ImageTypePNG => pick ep false true true false false true false false
  | ImageTypeTIFF => pick ep true false false true false true false false
  | ImageTypeHEIF => pick ep true false false true false false false false
  | ImageTypeAVIF => pick ep true false false true false true false true
  | _ => pick ep true false true false false true true false
  end.

(** Contracts of [vipsAddAlpha] and [vipsToColorSpace] on the header of
    their result. *)
Definition adds_alpha (E : Engine) : Prop :=
  forall i out, exec E vipsAddAlpha [i] = Ok out -> vipsHasAlpha out = true.
Definition sets_interpretation (E : Engine) : Prop :=
  forall c i out, exec E (vipsToColorSpace c) [i] = Ok out -> Type_ out = c.

(** Two states hold the same number of native objects, and if the handle of
    the first points to one, so does the handle of the second. *)
Definition same_footprint (s s' : State) : Prop :=
  size (heap s') = size (heap s) /\
  ((exists p i, live s p i) -> exists p' i', live s' p' i').

(** Whatever [m] returns, it leaves the footprint as it found it. *)
Definition keeps_footprint {A} (m : M A) : Prop :=
  forall s a s', m s = Some (a, s') -> same_footprint s s'.

(** The profile [OptimizeICCProfile] picks for image [i]. *)
Definition chosen_profile (srgb sgray : string) (i : VipsImage) : string :=
  if Bands i <=? 2 then sgray else srgb.

(** [OptimizeICCProfile] has something to do for image [i]. *)
Definition needs_profile (i : VipsImage) : bool :=
  vipsHasICCProfile i || bool_decide (Type_ i = InterpretationCMYK).

(** *** More sample data and vocabulary *)

(** The transform [OptimizeICCProfile] asks for on image [i]. *)
Definition optimize_call (srgb sgray : string) (i : VipsImage) : Primitive :=
  vipsICCTransform (chosen_profile srgb sgray i)
    (if decide (Type_ i = InterpretationCMYK) then "cmyk" else "")
    IntentPerceptual
    (match BandFmt i with
     | BandFormatUchar | BandFormatChar | BandFormatNotSet => 8
     | _ => 16
     end)
    (vipsHasICCProfile i).

(** An entry of the option list: not empty, no comma inside. *)
Definition entry (s : string) : Prop := s <> ""%string /\ commas s = 0%nat.

(** Import parameters asking for three pages from page 2, strictly. *)
Definition three_pages : ImportParams :=
  {| AutoRotate_ := unset; FailOnError := BoolParameter_Set true unset;
     Page := IntParameter_Set 2 unset; NumPages := IntParameter_Set 3 unset;
     Density := unset; JpegShrinkFactor := unset; HeifThumbnail := unset;
     SvgUnlimited := unset |}.

(** A request for JPEG 2000, everything else left at zero. *)
Definition jp2k_request : ExportParams :=
  {| Format := ImageTypeJP2K; Quality := 80; Compression := 0; Interlaced := false;
     Lossless := false; Effort := 0; StripMetadata := false; OptimizeCoding := false;
     SubsampleMode_ := 0; TrellisQuant := false; OvershootDeringing := false;
     OptimizeScans := false; QuantTable := 0; Speed := 0 |}.

(** Two WEBP requests that differ in [Interlaced], [Compression] and the
    JPEG-only switches. *)
Definition webp_plain : ExportParams :=
  {| Format := ImageTypeWEBP; Quality := 75; Compression := 0; Interlaced := false;
     Lossless := false; Effort := 4; StripMetadata := true; OptimizeCoding := false;
     SubsampleMode_ := 0; TrellisQuant := false; OvershootDeringing := false;
     OptimizeScans := false; QuantTable := 0; Speed := 0 |}.
Definition webp_decorated : ExportParams :=
  {| Format := ImageTypeWEBP; Quality := 75; Compression := 9; Interlaced := true;
     Lossless := false; Effort := 4; StripMetadata := true; OptimizeCoding := true;
     SubsampleMode_ := 2; TrellisQuant := true; OvershootDeringing := true;
     OptimizeScans := true; QuantTable := 3; Speed := 8 |}.

(** The interpretation [Modulate] converts back to. *)
Definition back_to (c : Interpretation) : Interpretation :=
  if decide (c = InterpretationRGB) then InterpretationSRGB else c.

(** A one-band picture. *)
Definition grey : VipsImage :=
  {| Xsize := 10; Ysize := 10; Bands := 1; BandFmt := BandFormatUchar;
     Type_ := InterpretationOther 1; has_alpha_channel := false;
     n_pages := 1; page_height := 10; orientation := 0; icc_profile := false;
     payload := 0 |}.

(** A resize, a quarter turn, a call that fails on its arguments, a resize
    the engine rejects, and a colour change. *)
Definition sample_calls : list Mutation :=
  [CallResize 0.5%float KernelAuto; CallRotate Angle90;
   CallLinear [1%float] [1%float; 2%float];
   CallResizeWithVScale (-2)%float (-1)%float KernelAuto;
   CallToColorSpace InterpretationLCH].

(** ** Running method bodies *)

Ltac unfold_monad :=
  unfold bind, ret, crash, self, update, emit, defer, with_handle, with_heap, log in *.

Lemma bind_Some {A B} (m : M A) (k : A -> M B) s b s' :
  bind m k s = Some (b, s') <->
  exists a s1, m s = Some (a, s1) /\ k a s1 = Some (b, s').
Proof.
  unfold bind. split.
  - destruct (m s) as [[a s1]|] eqn:Hm; [|discriminate]. intros H. eauto.
  - intros (a & s1 & -> & H). exact H.
Qed.

Lemma state_eta s : {| handle := handle s; heap := heap s; trace := trace s |} = s.
Proof. destruct s; reflexivity. Qed.

Lemma deref_Some p s i s' :
  deref p s = Some (i, s') <-> exists a, p = Some a /\ heap s !! a = Some i /\ s' = s.
Proof.
  unfold deref. split.
  - destruct p as [a|]; [|discriminate].
    destruct (heap s !! a) as [j|] eqn:Hj; [|discriminate].
    intros [= <- <-]. eauto.
  - intros (a & -> & -> & ->). reflexivity.
Qed.

Lemma deref_live s p i : live s p i -> deref (image (handle s)) s = Some (i, s).
Proof. intros [Hp Hi]. apply deref_Some. eauto. Qed.

Lemma deref_all_state ps s args s' :
  deref_all ps s = Some (args, s') -> s' = s.
Proof.
  revert s args s'. induction ps as [|p ps IH]; intros s args s'; cbn.
  - unfold ret. congruence.
  - intros H. apply bind_Some in H as (i & s1 & Hd & H).
    apply deref_Some in Hd as (a & -> & _ & ->).
    apply bind_Some in H as (rest & s2 & Hr & H).
    apply IH in Hr as ->. unfold ret in H. congruence.
Qed.

Lemma fresh_not_live (h : gmap N VipsImage) p i :
  h !! p = Some i -> p <> fresh (dom h).
Proof.
  intros Hp ->. apply (is_fresh (dom h)). apply elem_of_dom. eauto.
Qed.

Arguments setImage : simpl never.
Arguments transform : simpl never.
Arguments call : simpl never.

(** *** The swap *)

Lemma setImage_run image' s :
  setImage image' s =
  Some (tt, if decide (image (handle s) = image') then s else swapped image' s).
Proof.
  unfold setImage, swapped, clearImage. unfold_monad.
  destruct (decide (image (handle s) = image')) as [Heq|Hne]; [reflexivity|].
  destruct (image (handle s)) as [old|]; cbn.
  - reflexivity.
  - rewrite app_nil_r. reflexivity.
Qed.

Lemma Close_run s :
  Close s =
  Some (tt, {| handle := set_buf None (set_image None (handle s));
               heap := match image (handle s) with
                       | Some p => delete p (heap s)
                       | None => heap s
                       end;
               trace := trace s ++ match image (handle s) with
                                   | Some p => [EvClear p]
                                   | None => []
                                   end |}).
Proof.
  unfold Close, clearImage. unfold_monad.
  destruct s as [[b [p|] f o pm icc] h t]; cbn.
  - reflexivity.
  - rewrite app_nil_r. reflexivity.
Qed.

Lemma Close_closed s :
  image (handle s) = None -> buf (handle s) = None -> Close s = Some (tt, s).
Proof.
  intros Hi Hb. rewrite Close_run.
  destruct s as [[b p f o pm icc] h t]; cbn in *. subst.
  rewrite app_nil_r. reflexivity.
Qed.

Lemma repeatM_fixed (m : M unit) s :
  m s = Some (tt, s) -> forall n, repeatM n m s = Some (tt, s).
Proof.
  intros Hm n. induction n as [|n IH]; cbn; [reflexivity|].
  unfold bind. rewrite Hm. exact IH.
Qed.

(** *** Calls *)

Section Calls.
Context (E : Engine).

Lemma call_inv op ins s r s' :
  call E op ins s = Some (r, s') ->
  exists args, deref_all ins s = Some (args, s) /\
    match exec E op (map snd args) with
    | Error e => r = Error e /\ s' = log (EvPrim op (map fst args)) s
    | Ok out =>
        r = Ok (fresh (dom (heap s))) /\
        s' = {| handle := handle s;
                heap := <[fresh (dom (heap s)) := out]> (heap s);
                trace := trace s ++ [EvPrim op (map fst args)] |}
    end.
Proof.
  unfold call. intros H.
  apply bind_Some in H as (args & s1 & Hd & H).
  pose proof (deref_all_state _ _ _ _ Hd) as ->.
  exists args. split; [exact Hd|].
  unfold alloc in H. unfold_monad.
  destruct (exec E op (map snd args)) as [out|e]; cbn in H.
  - injection H as <- <-. split; reflexivity.
  - injection H as <- <-. split; reflexivity.
Qed.

Lemma deref_all_cons p others s args :
  deref_all (p :: others) s = Some (args, s) ->
  exists a i rest, p = Some a /\ heap s !! a = Some i /\
                   deref_all others s = Some (rest, s) /\ args = (a, i) :: rest.
Proof.
  cbn. intros H.
  apply bind_Some in H as (i & s1 & Hd & H).
  apply deref_Some in Hd as (a & -> & Hi & ->).
  apply bind_Some in H as (rest & s2 & Hr & H).
  pose proof (deref_all_state _ _ _ _ Hr) as ->.
  unfold ret in H. injection H as <-.
  exists a, i, rest. auto.
Qed.

Lemma transform_inv op others s r s' :
  transform E op others s = Some (r, s') ->
  exists p i rest, live s p i /\ deref_all others s = Some (rest, s) /\
    match exec E op (i :: map snd rest) with
    | Error e => r = Error e /\ s' = log (EvPrim op (p :: map fst rest)) s
    | Ok out => r = Ok tt /\ s' = replaced op (p :: map fst rest) p out s
    end.
Proof.
  unfold transform. intros H.
  apply bind_Some in H as (r0 & s0 & Hs & H).
  unfold self in Hs. injection Hs as <- <-.
  apply bind_Some in H as (c & s1 & Hc & H).
  apply call_inv in Hc as (args & Hd & Hc).
  apply deref_all_cons in Hd as (p & i & rest & Hp & Hi & Hrest & ->).
  exists p, i, rest. split; [split; assumption|]. split; [assumption|].
  cbn [map fst snd] in *.
  destruct (exec E op (i :: map snd rest)) as [out|e].
  - destruct Hc as [-> ->].
    rewrite bind_Some in H. destruct H as ([] & s2 & Hset & H).
    rewrite setImage_run in Hset. cbn [handle] in Hset.
    destruct (decide (image (handle s) = Some (fresh (dom (heap s))))) as [Heq|Hne].
    + exfalso. rewrite Hp in Heq. injection Heq as Heq.
      exact (fresh_not_live _ _ _ Hi Heq).
    + injection Hset as <-. unfold ret in H. injection H as <- <-.
      split; [reflexivity|]. unfold replaced, swapped. cbn. rewrite Hp. cbn.
      rewrite <- app_assoc. reflexivity.
  - destruct Hc as [-> ->]. unfold ret in H. injection H as <- <-. auto.
Qed.

Lemma transform_run op s p i :
  live s p i ->
  transform E op [] s =
  Some (match exec E op [i] with
        | Error e => (Error e, log (EvPrim op [p]) s)
        | Ok out => (Ok tt, replaced op [p] p out s)
        end).
Proof.
  intros [Hp Hi]. unfold transform, call, alloc. unfold_monad. cbn.
  rewrite Hp. cbn. unfold deref. unfold_monad. rewrite Hi. cbn.
  destruct (exec E op [i]) as [out|e]; [|reflexivity].
  rewrite setImage_run. cbn. rewrite Hp.
  rewrite decide_False by (intros [= Heq]; exact (fresh_not_live _ _ _ Hi Heq)).
  unfold replaced, swapped. cbn. rewrite Hp. cbn. rewrite <- app_assoc. reflexivity.
Qed.

Lemma replaced_live op ins p out s i :
  heap s !! p = Some i ->
  live (replaced op ins p out s) (fresh (dom (heap s))) out.
Proof.
  intros Hi. split; [reflexivity|]. cbn.
  rewrite lookup_delete_ne by (exact (fresh_not_live _ _ _ Hi)).
  apply lookup_insert_eq.
Qed.

(** *** Forward steps on a live handle *)

Lemma bind_run {A B} (m : M A) (k : A -> M B) s a s1 :
  m s = Some (a, s1) -> bind m k s = k a s1.
Proof. intros H. unfold bind. rewrite H. reflexivity. Qed.

Lemma bind_run_pair {A B} (m : M A) (k : A -> M B) s x :
  m s = Some x -> bind m k s = k (fst x) (snd x).
Proof. intros H. unfold bind. rewrite H. destruct x; reflexivity. Qed.

Lemma call_run op s p i :
  heap s !! p = Some i ->
  call E op [Some p] s =
  Some (match exec E op [i] with
        | Error e => (Error e, log (EvPrim op [p]) s)
        | Ok out =>
            (Ok (fresh (dom (heap s))),
             {| handle := handle s;
                heap := <[fresh (dom (heap s)) := out]> (heap s);
                trace := trace s ++ [EvPrim op [p]] |})
        end).
Proof.
  intros Hi. unfold call, alloc. unfold_monad. cbn.
  unfold deref. unfold_monad. rewrite Hi. cbn.
  destruct (exec E op [i]); reflexivity.
Qed.

Lemma edit_run e s a i :
  heap s !! a = Some i ->
  edit e (Some a) s =
  Some (tt, {| handle := handle s;
               heap := <[a := apply_edit e i]> (heap s);
               trace := trace s ++ [EvEdit e a] |}).
Proof.
  intros Hi. unfold edit, deref. unfold_monad. rewrite Hi. reflexivity.
Qed.

Lemma read_run {A} (f : VipsImage -> A) s p i :
  live s p i ->
  (r <- self ;; j <- deref (image r) ;; ret (f j)) s = Some (f i, s).
Proof.
  intros [Hp Hi]. unfold deref. unfold_monad. rewrite Hp, Hi. reflexivity.
Qed.

Lemma Width_run s p i : live s p i -> Width s = Some (Xsize i, s).
Proof. apply (read_run Xsize). Qed.
Lemma Height_run s p i : live s p i -> Height s = Some (Ysize i, s).
Proof. apply (read_run Ysize). Qed.
Lemma BandFormat_run s p i : live s p i -> BandFormat_ s = Some (BandFmt i, s).
Proof. apply (read_run BandFmt). Qed.
Lemma ColorSpace_run s p i : live s p i -> ColorSpace s = Some (Type_ i, s).
Proof. apply (read_run Type_). Qed.
Lemma HasAlpha_run s p i : live s p i -> HasAlpha s = Some (vipsHasAlpha i, s).
Proof. apply (read_run vipsHasAlpha). Qed.
Lemma Orientation_run s p i : live s p i -> Orientation s = Some (orientation i, s).
Proof. apply (read_run vipsGetMetaOrientation). Qed.
Lemma GetPageHeight_run s p i : live s p i -> GetPageHeight s = Some (page_height i, s).
Proof. apply (read_run vipsGetPageHeight). Qed.

Lemma Pages_run s p i :
  live s p i -> Pages s = Some (page_count (format (handle s)) i, s).
Proof.
  intros [Hp Hi]. unfold Pages, page_count, deref. unfold_monad.
  destruct (decide (format (handle s) = ImageTypeJP2K)); [reflexivity|].
  rewrite Hp, Hi. reflexivity.
Qed.

Lemma newMetadata_run t s p i :
  live s p i ->
  newMetadata t s =
  Some ({| mdFormat := t; mdWidth := Xsize i; mdHeight := Ysize i;
           mdColorspace := Type_ i; mdOrientation := orientation i;
           mdPages := page_count (format (handle s)) i |}, s).
Proof.
  intros Hl. unfold newMetadata.
  rewrite (bind_run _ _ _ _ _ (Width_run _ _ _ Hl)).
  rewrite (bind_run _ _ _ _ _ (Height_run _ _ _ Hl)).
  rewrite (bind_run _ _ _ _ _ (ColorSpace_run _ _ _ Hl)).
  rewrite (bind_run _ _ _ _ _ (Orientation_run _ _ _ Hl)).
  rewrite (bind_run _ _ _ _ _ (Pages_run _ _ _ Hl)).
  reflexivity.
Qed.

Lemma copy_edit_run e s p i :
  live s p i ->
  copy_edit E e s =
  Some (match exec E vipsCopyImage [i] with
        | Error err => (Error err, log (EvPrim vipsCopyImage [p]) s)
        | Ok out => (Ok tt, edited e p out s)
        end).
Proof.
  intros [Hp Hi]. unfold copy_edit.
  rewrite (bind_run _ _ _ _ _ (eq_refl : self s = Some (handle s, s))).
  rewrite Hp.
  rewrite (bind_run_pair _ _ _ _ (call_run _ _ _ _ Hi)).
  destruct (exec E vipsCopyImage [i]) as [out|err]; [|reflexivity].
  cbn [fst snd].
  set (q := fresh (dom (heap s))).
  assert (Hq : p <> q) by exact (fresh_not_live _ _ _ Hi).
  erewrite bind_run by (apply edit_run; cbn; apply lookup_insert_eq).
  erewrite bind_run by apply setImage_run.
  cbn. rewrite Hp. rewrite decide_False by congruence.
  unfold ret, edited, swapped. cbn. rewrite Hp. fold q.
  rewrite insert_insert_eq. rewrite <- !app_assoc. reflexivity.
Qed.

Lemma edited_live e p out s i :
  heap s !! p = Some i ->
  live (edited e p out s) (fresh (dom (heap s))) (apply_edit e out).
Proof.
  intros Hi. split; [reflexivity|]. cbn.
  rewrite lookup_delete_ne by (exact (fresh_not_live _ _ _ Hi)).
  apply lookup_insert_eq.
Qed.

End Calls.

Arguments Width : simpl never.
Arguments Pages : simpl never.
Arguments GetPageHeight : simpl never.
Arguments copy_edit : simpl never.

(** ** Release and replace *)

(** C9.  [setImage] compares the incoming native pointer with the current
    one.  When they are the same pointer the call changes nothing, so the
    trace gains no release.  When they differ, the old reference (if the
    handle held one) is released exactly once and removed from the heap, the
    new pointer is stored, and the other fields of the handle stay. *)
Theorem setImage_identity_or_release (s : State) (image' : option N) :
  (image (handle s) = image' -> setImage image' s = Some (tt, s)) /\
  (image (handle s) <> image' ->
   exists s', setImage image' s = Some (tt, s') /\
     image (handle s') = image' /\
     (forall old, image (handle s) = Some old ->
        trace s' = trace s ++ [EvClear old] /\ heap s' = delete old (heap s)) /\
     (image (handle s) = None -> trace s' = trace s /\ heap s' = heap s) /\
     buf (handle s') = buf (handle s) /\
     format (handle s') = format (handle s) /\
     originalFormat (handle s') = originalFormat (handle s) /\
     preMultiplication (handle s') = preMultiplication (handle s) /\
     optimizedIccProfile (handle s') = optimizedIccProfile (handle s)).
Proof.
  split; intros H; rewrite setImage_run.
  - rewrite decide_True by exact H. reflexivity.
  - rewrite decide_False by exact H.
    exists (swapped image' s). split; [reflexivity|].
    unfold swapped. cbn. split; [reflexivity|].
    split; [|split].
    + intros old Hold. rewrite Hold. auto.
    + intros Hnil. rewrite Hnil. rewrite app_nil_r. auto.
    + repeat split.
Qed.

Example setImage_same_pointer :
  setImage (Some 7%N) (loaded photo ImageTypeJPEG) = Some (tt, loaded photo ImageTypeJPEG).
Proof. reflexivity. Qed.

Example setImage_other_pointer :
  option_map (fun x => trace (snd x)) (setImage (Some 9%N) (loaded photo ImageTypeJPEG))
  = Some [EvClear 7%N].
Proof. reflexivity. Qed.

(** C8.  [Close] always returns.  The first call releases the native object
    the handle holds (one release, the object leaves the heap), sets the
    pointer to nil and drops the buffer.  Called again, any number of times,
    it returns the same state: nothing is released and nothing changes. *)
Theorem Close_twice_is_safe (s : State) :
  exists s1, Close s = Some (tt, s1) /\
    image (handle s1) = None /\ buf (handle s1) = None /\
    (forall p, image (handle s) = Some p ->
       trace s1 = trace s ++ [EvClear p] /\ heap s1 = delete p (heap s)) /\
    (image (handle s) = None -> trace s1 = trace s /\ heap s1 = heap s) /\
    Close s1 = Some (tt, s1) /\
    (forall n, repeatM n Close s1 = Some (tt, s1)).
Proof.
  eexists. split; [apply Close_run|].
  split; [reflexivity|]. split; [reflexivity|].
  split; [|split; [|split]].
  - intros p Hp. cbn. rewrite Hp. auto.
  - intros Hnil. cbn. rewrite Hnil, app_nil_r. auto.
  - apply Close_closed; reflexivity.
  - intros n. apply repeatM_fixed. apply Close_closed; reflexivity.
Qed.

Example Close_then_Close :
  option_map (fun x => trace (snd x)) ((Close ;; Close) (loaded photo ImageTypeJPEG))
  = Some [EvClear 7%N].
Proof. reflexivity. Qed.

(** ** Page count *)

Section PageCount.
Context (E : Engine).

(** A successful [SetPages]: the attribute is written at [p], the old
    address, which is then released; the handle ends on the copy [out]. *)
Lemma SetPages_run (pages : Z) s p i out :
  live s p i ->
  exec E vipsCopyImage [i] = Ok out ->
  SetPages E pages s =
  Some (Ok tt,
        {| handle := set_image (Some (fresh (dom (heap s)))) (handle s);
           heap := delete p (<[p := apply_edit (vipsSetImageNPages pages) i]>
                               (<[fresh (dom (heap s)) := out]> (heap s)));
           trace := trace s ++ [EvPrim vipsCopyImage [p];
                                EvEdit (vipsSetImageNPages pages) p; EvClear p] |}).
Proof.
  intros [Hp Hi] Hcopy.
  set (q := fresh (dom (heap s))).
  assert (Hq : p <> q) by exact (fresh_not_live _ _ _ Hi).
  unfold SetPages.
  rewrite (bind_run _ _ _ _ _ (eq_refl : self s = Some (handle s, s))).
  rewrite Hp.
  rewrite (bind_run_pair _ _ _ _ (call_run _ _ _ _ _ Hi)). rewrite Hcopy.
  cbn [fst snd]. fold q.
  erewrite bind_run
    by (apply edit_run; cbn; rewrite lookup_insert_ne by congruence; exact Hi).
  erewrite bind_run by apply setImage_run.
  cbn [handle]. rewrite Hp. rewrite decide_False by congruence.
  unfold ret, swapped. cbn. rewrite Hp. rewrite <- !app_assoc. reflexivity.
Qed.

(** After [SetPages], [Pages] reports what the copy carries, whatever the
    argument was. *)
Lemma SetPages_then_Pages (pages : Z) s p i out :
  live s p i -> format (handle s) <> ImageTypeJP2K ->
  exec E vipsCopyImage [i] = Ok out ->
  exists s', (r <- SetPages E pages ;; n <- Pages ;; ret (r, n)) s
             = Some ((Ok tt, n_pages out), s').
Proof.
  intros Hl Hfmt Hcopy. pose proof Hl as [Hp Hi].
  assert (Hq : p <> fresh (dom (heap s))) by exact (fresh_not_live _ _ _ Hi).
  rewrite (bind_run _ _ _ _ _ (SetPages_run pages _ _ _ _ Hl Hcopy)).
  erewrite bind_run.
  2:{ apply (Pages_run _ (fresh (dom (heap s))) out). split; [reflexivity|]. cbn.
      rewrite lookup_delete_ne by congruence.
      rewrite lookup_insert_ne by congruence. apply lookup_insert_eq. }
  unfold page_count. cbn. rewrite decide_False by exact Hfmt.
  eexists. reflexivity.
Qed.

End PageCount.

(** C10.  On a PNG handle whose image reports one page, [SetPages 3]
    returns without error and the following [Pages] still answers 1: the
    attribute went to the object that [setImage] then released. *)
Theorem SetPages_3_then_Pages_answers_1 :
  exists s',
    (r <- SetPages sample_engine 3 ;; n <- Pages ;; ret (r, n)) (loaded photo ImageTypePNG)
    = Some ((Ok tt, 1), s') /\
    trace s' = [EvPrim vipsCopyImage [7%N]; EvEdit (vipsSetImageNPages 3) 7%N; EvClear 7%N].
Proof. eexists. split; vm_compute; reflexivity. Qed.

(** ** Export dispatch *)

Section ExportFacts.
Context (E : Engine).
Context (IsTypeSupported : ImageType -> bool) (ImageTypes : ImageType -> string).

Lemma live_log s p i ev : live s p i -> live (log ev s) p i.
Proof. intros [Hp Hi]. split; assumption. Qed.

Lemma call_save_run c s p i :
  heap s !! p = Some i ->
  call_save E c (Some p) s = Some (save E c i, log (EvSave c p) s).
Proof.
  intros Hi. unfold call_save, deref. unfold_monad. rewrite Hi. reflexivity.
Qed.

Lemma export_with_run c t s p i :
  live s p i ->
  export_with E c t s =
  Some (export_result (save E c i) (metadata_of t (handle s) i), log (EvSave c p) s).
Proof.
  intros Hl. pose proof Hl as [Hp Hi]. unfold export_with.
  rewrite (bind_run _ _ _ _ _ (eq_refl : self s = Some (handle s, s))).
  rewrite Hp.
  rewrite (bind_run _ _ _ _ _ (call_save_run c _ _ _ Hi)).
  destruct (save E c i) as [bytes|e]; cbn [export_result]; [|reflexivity].
  erewrite bind_run by (apply (newMetadata_run _ _ p i); apply live_log; exact Hl).
  reflexivity.
Qed.

Lemma ExportWebp_inout_run params s p i :
  live s p i ->
  let sent := with_IccProfile (optimizedIccProfile (handle s))
                (match params with None => NewWebpExportParams | Some q => q end) in
  ExportWebp_inout E params s =
  Some ((export_result (save E (vipsSaveWebPToBuffer sent) i)
                       (metadata_of ImageTypeWEBP (handle s) i), params),
        log (EvSave (vipsSaveWebPToBuffer sent) p) s).
Proof.
  intros Hl sent. unfold ExportWebp_inout.
  rewrite (bind_run _ _ _ _ _ (eq_refl : self s = Some (handle s, s))).
  erewrite bind_run by (apply export_with_run; exact Hl).
  reflexivity.
Qed.

Lemma ExportNative_run s p i :
  live s p i ->
  let t := native_target (format (handle s)) in
  let c := default_call t (optimizedIccProfile (handle s)) in
  ExportNative E s =
  Some (export_result (save E c i) (metadata_of t (handle s) i), log (EvSave c p) s).
Proof.
  intros Hl t c. unfold ExportNative.
  rewrite (bind_run _ _ _ _ _ (eq_refl : self s = Some (handle s, s))).
  subst t c. unfold native_target.
  destruct (format (handle s)) eqn:Hf; cbn [encodable default_call];
    try (unfold ExportJpeg, ExportPng, ExportHeif, ExportTiff, ExportGIF, ExportAvif,
           ExportJp2k; apply export_with_run; exact Hl).
  unfold ExportWebp.
  erewrite bind_run by (apply ExportWebp_inout_run; exact Hl).
  reflexivity.
Qed.

End ExportFacts.

(** C5.  [ExportWebp] hands the WEBP encoder the caller's parameter set (or
    the default set when [params] is nil) with [IccProfile] replaced by the
    profile recorded in the handle, whatever the caller had put there; the
    other fields are the caller's.  The struct behind [params] comes back as
    it went in, and the handle is only read: the state differs by the one
    encoder event. *)
Theorem ExportWebp_sends_handle_profile (E : Engine) (params : option WebpExportParams)
    (s : State) (p : N) (i : VipsImage) :
  live s p i ->
  exists sent out,
    ExportWebp_inout E params s
      = Some ((out, params), log (EvSave (vipsSaveWebPToBuffer sent) p) s) /\
    IccProfile sent = optimizedIccProfile (handle s) /\
    (forall q, params = Some q ->
       webpStripMetadata sent = webpStripMetadata q /\
       webpQuality sent = webpQuality q /\
       webpLossless sent = webpLossless q /\
       webpNearLossless sent = webpNearLossless q /\
       webpReductionEffort sent = webpReductionEffort q) /\
    (params = None -> sent = with_IccProfile (optimizedIccProfile (handle s))
                                             NewWebpExportParams).
Proof.
  intros Hl. eexists. eexists.
  split; [apply ExportWebp_inout_run; exact Hl|].
  split; [reflexivity|]. split.
  - intros q ->. cbn. auto.
  - intros ->. reflexivity.
Qed.

Lemma ExportWebp_sends_handle_profile_witness :
  exists sent out,
    ExportWebp_inout sample_engine (Some caller_webp) optimized_photo
      = Some ((out, Some caller_webp),
              log (EvSave (vipsSaveWebPToBuffer sent) 7%N) optimized_photo) /\
    IccProfile sent = "srgb_v2_micro.icc"%string /\
    webpQuality sent = 90.
Proof.
  destruct (ExportWebp_sends_handle_profile sample_engine (Some caller_webp)
              optimized_photo 7%N photo) as (sent & out & Hrun & Hicc & Hq & _).
  - split; reflexivity.
  - exists sent, out. split; [exact Hrun|]. split; [exact Hicc|].
    destruct (Hq caller_webp eq_refl) as (_ & Hquality & _). exact Hquality.
Defined.

Example OptimizeICCProfile_then_ExportWebp :
  option_map (fun x => trace (snd x))
    ((_ <- OptimizeICCProfile sample_engine "srgb_v2_micro.icc" "sgray_v2_micro.icc" ;;
      ExportWebp sample_engine (Some caller_webp))
       (loaded (with_Type InterpretationCMYK photo) ImageTypeJPEG))
  = Some [EvPrim (vipsICCTransform "srgb_v2_micro.icc" "cmyk" IntentPerceptual 8 false)
                 [7%N];
          EvClear 7%N;
          EvSave (vipsSaveWebPToBuffer (with_IccProfile "srgb_v2_micro.icc" caller_webp))
                 8%N].
Proof. vm_compute. reflexivity. Qed.

(** C6.  With nil parameters, or with [Format] left at [ImageTypeUnknown],
    [Export] runs exactly one encoder on the handle's image: the encoder of
    the recorded format with that codec's default parameters when the format
    is encodable, and the JPEG encoder with the JPEG defaults otherwise.  The
    metadata it returns carries that format. *)
Theorem Export_unset_format_uses_recorded_format (E : Engine)
    (IsTypeSupported : ImageType -> bool) (ImageTypes : ImageType -> string)
    (params : option ExportParams) (s : State) (p : N) (i : VipsImage) :
  live s p i ->
  (params = None \/ exists ep, params = Some ep /\ Format ep = ImageTypeUnknown) ->
  let t := native_target (format (handle s)) in
  let c := default_call t (optimizedIccProfile (handle s)) in
  Export E IsTypeSupported ImageTypes params s
    = Some (export_result (save E c i) (metadata_of t (handle s) i),
            log (EvSave c p) s) /\
  (encodable (format (handle s)) = true -> t = format (handle s)) /\
  (encodable (format (handle s)) = false ->
     t = ImageTypeJPEG /\ c = vipsSaveJPEGToBuffer NewJpegExportParams).
Proof.
  intros Hl Hparams t c. split; [|split].
  - unfold Export. destruct Hparams as [-> | (ep & -> & Hep)].
    + apply ExportNative_run. exact Hl.
    + rewrite decide_True by exact Hep. apply ExportNative_run. exact Hl.
  - intros Henc. subst t. unfold native_target. rewrite Henc. reflexivity.
  - intros Henc. subst c t. unfold native_target. rewrite Henc. split; reflexivity.
Qed.

Lemma Export_unset_format_uses_recorded_format_witness :
  Export sample_engine sample_supported sample_names None (loaded photo (ImageTypeOther 10))
  = Some ((Some [], Some (metadata_of ImageTypeJPEG
                            (handle (loaded photo (ImageTypeOther 10))) photo), None),
          log (EvSave (vipsSaveJPEGToBuffer NewJpegExportParams) 7%N)
              (loaded photo (ImageTypeOther 10))).
Proof.
  destruct (Export_unset_format_uses_recorded_format sample_engine sample_supported
              sample_names None (loaded photo (ImageTypeOther 10)) 7%N photo)
    as (Hrun & _ & _).
  - split; reflexivity.
  - left. reflexivity.
  - exact Hrun.
Defined.

Example Export_native_png :
  option_map (fun x => trace (snd x))
    (Export sample_engine sample_supported sample_names None (loaded photo ImageTypePNG))
  = Some [EvSave (vipsSavePNGToBuffer NewPngExportParams) 7%N].
Proof. reflexivity. Qed.

(** C7.  When a format is requested and [IsTypeSupported] rejects it,
    [Export] returns the error "cannot save to ..." with no bytes, and the
    state is the one it started from: no encoder (indeed no native call) is
    in the trace and no field of the handle has changed. *)
Theorem Export_unsupported_format_fails_first (E : Engine)
    (IsTypeSupported : ImageType -> bool) (ImageTypes : ImageType -> string)
    (ep : ExportParams) (s : State) (p : N) (i : VipsImage) :
  live s p i ->
  Format ep <> ImageTypeUnknown ->
  IsTypeSupported (Format ep) = false ->
  Export E IsTypeSupported ImageTypes (Some ep) s
    = Some ((None, Some (metadata_of ImageTypeUnknown (handle s) i),
             Some (ErrCannotSave (ImageTypes (Format ep)))), s).
Proof.
  intros Hl Hfmt Hsup. unfold Export, Export_as.
  rewrite decide_False by exact Hfmt. rewrite Hsup. cbn [negb].
  erewrite bind_run by (apply (newMetadata_run _ _ p i); exact Hl).
  reflexivity.
Qed.

Lemma Export_unsupported_format_fails_first_witness :
  Export sample_engine sample_supported sample_names (Some bmp_request)
         (loaded photo ImageTypePNG)
  = Some ((None, Some (metadata_of ImageTypeUnknown (handle (loaded photo ImageTypePNG)) photo),
           Some (ErrCannotSave "")), loaded photo ImageTypePNG).
Proof.
  apply (Export_unsupported_format_fails_first sample_engine sample_supported sample_names
           bmp_request (loaded photo ImageTypePNG) 7%N photo).
  - split; reflexivity.
  - discriminate.
  - reflexivity.
Defined.

(** ** The pre-multiplication bracket *)

Arguments PremultiplyAlpha : simpl never.
Arguments UnpremultiplyAlpha : simpl never.
Arguments HasAlpha : simpl never.
Arguments BandFormat_ : simpl never.

Section Premultiplication.
Context (E : Engine).

Lemma PremultiplyAlpha_run s p i :
  live s p i ->
  PremultiplyAlpha E s =
  Some (match preMultiplication (handle s) with
        | Some _ => (Ok tt, s)
        | None =>
            if negb (vipsHasAlpha i) then (Ok tt, s)
            else match exec E vipsPremultiplyAlpha [i] with
                 | Error e => (Error e, log (EvPrim vipsPremultiplyAlpha [p]) s)
                 | Ok out => (Ok tt, premultiplied p i out s)
                 end
        end).
Proof.
  intros Hl. pose proof Hl as [Hp Hi]. unfold PremultiplyAlpha.
  rewrite (bind_run _ _ _ _ _ (eq_refl : self s = Some (handle s, s))).
  destruct (preMultiplication (handle s)) as [pm|] eqn:Hpm; [reflexivity|].
  rewrite (bind_run _ _ _ _ _ (HasAlpha_run _ _ _ Hl)).
  destruct (vipsHasAlpha i); cbn [negb]; [|reflexivity].
  rewrite (bind_run _ _ _ _ _ (BandFormat_run _ _ _ Hl)).
  rewrite Hp.
  rewrite (bind_run_pair _ _ _ _ (call_run E _ _ _ _ Hi)).
  destruct (exec E vipsPremultiplyAlpha [i]) as [out|e]; [|reflexivity].
  cbn [fst snd].
  set (q := fresh (dom (heap s))).
  assert (Hq : p <> q) by exact (fresh_not_live _ _ _ Hi).
  rewrite (bind_run _ _ _ _ _ (eq_refl : update _ _ = Some (tt, _))).
  erewrite bind_run by apply setImage_run.
  cbn. rewrite Hp. rewrite decide_False by congruence.
  unfold ret, premultiplied, replaced, swapped. cbn. rewrite Hp. fold q.
  rewrite <- !app_assoc. reflexivity.
Qed.

Lemma premultiplied_live p i out s :
  heap s !! p = Some i ->
  live (premultiplied p i out s) (fresh (dom (heap s))) out.
Proof.
  intros Hi. split; [reflexivity|]. cbn.
  rewrite lookup_delete_ne by (exact (fresh_not_live _ _ _ Hi)).
  apply lookup_insert_eq.
Qed.

Lemma UnpremultiplyAlpha_run s p i :
  live s p i ->
  UnpremultiplyAlpha E s =
  Some (match preMultiplication (handle s) with
        | None => (Ok tt, s)
        | Some pm =>
            match exec E vipsUnpremultiplyAlpha [i] with
            | Error e => (Error e, log (EvPrim vipsUnpremultiplyAlpha [p]) s)
            | Ok u =>
                match exec E (vipsCast (bandFormat pm)) [u] with
                | Error e => (Error e, cast_failed p (bandFormat pm) u s)
                | Ok out => (Ok tt, unpremultiplied p (bandFormat pm) u out s)
                end
            end
        end).
Proof.
  intros Hl. pose proof Hl as [Hp Hi]. unfold UnpremultiplyAlpha.
  rewrite (bind_run _ _ _ _ _ (eq_refl : self s = Some (handle s, s))).
  destruct (preMultiplication (handle s)) as [pm|] eqn:Hpm; [|reflexivity].
  rewrite Hp.
  rewrite (bind_run_pair _ _ _ _ (call_run E _ _ _ _ Hi)).
  destruct (exec E vipsUnpremultiplyAlpha [i]) as [u|e]; [|reflexivity].
  cbn [fst snd].
  set (q := fresh (dom (heap s))).
  assert (Hq : p <> q) by exact (fresh_not_live _ _ _ Hi).
  assert (Hu : <[q := u]> (heap s) !! q = Some u) by apply lookup_insert_eq.
  unfold defer. unfold bind at 1.
  erewrite bind_run_pair by (apply call_run; cbn; exact Hu).
  cbn [heap handle trace].
  destruct (exec E (vipsCast (bandFormat pm)) [u]) as [out|e].
  - cbn [fst snd].
    set (q2 := fresh (dom (<[q := u]> (heap s)))).
    assert (Hq2 : p <> q2).
    { apply (fresh_not_live _ _ i). rewrite lookup_insert_ne by congruence. exact Hi. }
    rewrite (bind_run _ _ _ _ _ (eq_refl : update _ _ = Some (tt, _))).
    erewrite bind_run by apply setImage_run.
    cbn. rewrite Hp. rewrite decide_False by congruence.
    unfold clearImage. unfold_monad. cbn. unfold unpremultiplied, swapped. cbn.
    rewrite Hp. fold q. fold q2. rewrite <- !app_assoc. reflexivity.
  - cbn [fst snd]. unfold clearImage. unfold_monad. cbn.
    unfold cast_failed. fold q. rewrite <- !app_assoc. reflexivity.
Qed.

Lemma unpremultiplied_live p f u out s i :
  heap s !! p = Some i ->
  live (unpremultiplied p f u out s)
       (fresh (dom (<[fresh (dom (heap s)) := u]> (heap s)))) out.
Proof.
  intros Hi. split; [reflexivity|]. cbn.
  set (q := fresh (dom (heap s))).
  set (q2 := fresh (dom (<[q := u]> (heap s)))).
  assert (Hq : p <> q) by exact (fresh_not_live _ _ _ Hi).
  assert (Hq2 : p <> q2).
  { apply (fresh_not_live _ _ i). rewrite lookup_insert_ne by congruence. exact Hi. }
  assert (Hqq : q <> q2).
  { apply (fresh_not_live _ _ u). apply lookup_insert_eq. }
  rewrite lookup_delete_ne by congruence.
  rewrite lookup_delete_ne by congruence.
  apply lookup_insert_eq.
Qed.

End Premultiplication.

Lemma sample_cast_sets_format : cast_sets_format sample_engine.
Proof. intros f i out H. cbn in H. injection H as <-. reflexivity. Qed.

(** C2, as stated, fails on a handle whose tracker is already active: the
    first call is skipped by its guard and the second casts the float image
    to the remembered uchar, so the band format after the pair differs from
    the one before it. *)
Lemma roundtrip_fails_when_already_active :
  cast_sets_format sample_engine /\
  (exists s2,
     PremultiplyAlpha sample_engine already_premultiplied
       = Some (Ok tt, already_premultiplied) /\
     UnpremultiplyAlpha sample_engine already_premultiplied = Some (Ok tt, s2) /\
     BandFormat_ already_premultiplied = Some (BandFormatFloat, already_premultiplied) /\
     BandFormat_ s2 = Some (BandFormatUchar, s2)) /\
  ~ roundtrip_restores_format sample_engine.
Proof.
  pose (s2 := unpremultiplied 7%N BandFormatUchar
                (with_BandFmt BandFormatFloat animation)
                (with_BandFmt BandFormatUchar animation) already_premultiplied).
  assert (Hun : UnpremultiplyAlpha sample_engine already_premultiplied = Some (Ok tt, s2))
    by (vm_compute; reflexivity).
  split; [exact sample_cast_sets_format|]. split.
  - exists s2. split; [reflexivity|]. split; [exact Hun|].
    split; vm_compute; reflexivity.
  - intros H.
    destruct (H already_premultiplied 7%N (with_BandFmt BandFormatFloat animation)
                already_premultiplied s2) as (q & j & [Hq Hj] & Hfmt & _).
    + split; reflexivity.
    + reflexivity.
    + reflexivity.
    + exact Hun.
    + vm_compute in Hq. injection Hq as <-.
      vm_compute in Hj. injection Hj as <-.
      discriminate Hfmt.
Qed.

(** C2, amended.  On a handle whose tracker is inactive and whose image has
    an alpha channel, a successful [PremultiplyAlpha] followed by a
    successful [UnpremultiplyAlpha] ends on an image of the band format the
    pair started from, with the tracker nil again.  On an image without alpha
    [PremultiplyAlpha] returns nil and the state, trace included, is
    untouched: no primitive ran. *)
Theorem premultiply_unpremultiply_roundtrip (E : Engine) (s : State) (p : N)
    (i : VipsImage) :
  cast_sets_format E ->
  live s p i ->
  (vipsHasAlpha i = true -> preMultiplication (handle s) = None ->
   forall s1 s2,
     PremultiplyAlpha E s = Some (Ok tt, s1) ->
     UnpremultiplyAlpha E s1 = Some (Ok tt, s2) ->
     exists q j, live s2 q j /\ BandFmt j = BandFmt i /\
                 preMultiplication (handle s2) = None) /\
  (vipsHasAlpha i = false -> PremultiplyAlpha E s = Some (Ok tt, s)).
Proof.
  intros Hcast Hl. pose proof Hl as [Hp Hi]. split.
  - intros Ha Hpm s1 s2 H1 H2.
    rewrite (PremultiplyAlpha_run E _ _ _ Hl), Hpm, Ha in H1. cbn [negb] in H1.
    destruct (exec E vipsPremultiplyAlpha [i]) as [out|e] eqn:Hpre; [|discriminate].
    injection H1 as <-.
    pose proof (premultiplied_live p i out s Hi) as Hl1.
    rewrite (UnpremultiplyAlpha_run E _ _ _ Hl1) in H2. cbn [premultiplied] in H2.
    cbn in H2.
    destruct (exec E vipsUnpremultiplyAlpha [out]) as [u|e] eqn:Hun; [|discriminate].
    destruct (exec E (vipsCast (BandFmt i)) [u]) as [back|e] eqn:Hback; [|discriminate].
    injection H2 as <-.
    eexists. exists back. split; [|split].
    + apply (unpremultiplied_live _ _ _ _ _ out). apply Hl1.
    + exact (Hcast _ _ _ Hback).
    + reflexivity.
  - intros Ha. rewrite (PremultiplyAlpha_run E _ _ _ Hl), Ha.
    destruct (preMultiplication (handle s)); reflexivity.
Qed.

Lemma premultiply_unpremultiply_roundtrip_witness :
  exists s1 s2 q j,
    PremultiplyAlpha sample_engine (loaded animation ImageTypeGIF) = Some (Ok tt, s1) /\
    UnpremultiplyAlpha sample_engine s1 = Some (Ok tt, s2) /\
    live s2 q j /\ BandFmt j = BandFormatUchar /\
    preMultiplication (handle s2) = None.
Proof.
  pose (s := loaded animation ImageTypeGIF).
  pose (s1 := premultiplied 7%N animation (with_BandFmt BandFormatFloat animation) s).
  pose (s2 := unpremultiplied 8%N BandFormatUchar
                (with_BandFmt BandFormatFloat animation)
                (with_BandFmt BandFormatUchar animation) s1).
  destruct (premultiply_unpremultiply_roundtrip sample_engine s 7%N animation
              sample_cast_sets_format) as [Hpair _].
  - split; reflexivity.
  - destruct (Hpair eq_refl eq_refl s1 s2) as (q & j & Hl & Hfmt & Hpm).
    + vm_compute. reflexivity.
    + vm_compute. reflexivity.
    + exists s1, s2, q, j. split; [vm_compute; reflexivity|].
      split; [vm_compute; reflexivity|]. auto.
Defined.

(** ** Failure and partial application *)

Section Atomicity.
Context (E : Engine).
Context (SRGBV2MicroICCProfilePath SGrayV2MicroICCProfilePath
         SRGBIEC6196621ICCProfilePath : string).
Context (SizeBoth : Size).

(** *** Four properties of a method body *)

Lemma stage_fail_safe m : stage m -> fail_safe m.
Proof. intros H s e s' Hm. destruct (H _ _ _ Hm) as (new & _ & Hobs). exact Hobs. Qed.

Lemma stage_guarded m : stage m -> guarded m.
Proof.
  intros H s r s' Hm. destruct (H _ _ _ Hm) as (new & Htr & Hobs).
  exists new. split; [exact Htr|]. destruct r; auto.
Qed.

Lemma silent_ret {A} (a : A) : silent (ret a).
Proof. intros s b s' [= <- <-]. auto. Qed.

Lemma silent_self : silent self.
Proof. intros s b s' [= <- <-]. auto. Qed.

Lemma silent_deref p : silent (deref p).
Proof. intros s i s' H. apply deref_Some in H as (a & _ & _ & ->). auto. Qed.

Lemma silent_bind {A B} (m : M A) (k : A -> M B) :
  silent m -> (forall a, silent (k a)) -> silent (bind m k).
Proof.
  intros Hm Hk s b s' H. apply bind_Some in H as (a & s1 & H1 & H2).
  destruct (Hm _ _ _ H1) as [Ht1 Ho1]. destruct (Hk _ _ _ _ H2) as [Ht2 Ho2].
  split; congruence.
Qed.

Lemma silent_read {A} (f : VipsImage -> A) :
  silent (r <- self ;; j <- deref (image r) ;; ret (f j)).
Proof.
  apply silent_bind; [apply silent_self|]. intros r.
  apply silent_bind; [apply silent_deref|]. intros j. apply silent_ret.
Qed.

Lemma silent_set_profile path : silent (update (set_optimizedIccProfile path)).
Proof. intros s [] s' [= <-]. split; reflexivity. Qed.

Lemma stage_ret r : stage (ret r).
Proof.
  intros s r' s' [= <- <-]. exists []. rewrite app_nil_r. split; [reflexivity|].
  destruct r; auto.
Qed.

Lemma silent_bind_stage {A} (m : M A) (k : A -> M (res unit)) :
  silent m -> (forall a, stage (k a)) -> stage (bind m k).
Proof.
  intros Hm Hk s r s' H. apply bind_Some in H as (a & s1 & H1 & H2).
  destruct (Hm _ _ _ H1) as [Ht1 Ho1].
  destruct (Hk _ _ _ _ H2) as (new & Ht2 & Ho2).
  exists new. rewrite Ht2, Ht1. split; [reflexivity|].
  rewrite <- Ho1. exact Ho2.
Qed.

Lemma silent_bind_guarded {A} (m : M A) (k : A -> M (res unit)) :
  silent m -> (forall a, guarded (k a)) -> guarded (bind m k).
Proof.
  intros Hm Hk s r s' H. apply bind_Some in H as (a & s1 & H1 & H2).
  destruct (Hm _ _ _ H1) as [Ht1 Ho1].
  destruct (Hk _ _ _ _ H2) as (new & Ht2 & Ho2).
  exists new. rewrite Ht2, Ht1. split; [reflexivity|].
  rewrite <- Ho1. exact Ho2.
Qed.

(** [_, err := m; if err != nil { return err }; k]: once [m] has done
    something, a later error comes after two native calls or more. *)
Lemma guarded_then (m : M (res unit)) (k : unit -> M (res unit)) :
  guarded m -> (forall a, guarded (k a)) ->
  guarded (bind m (fun r => match r with Ok x => k x | Error e => ret (Error e) end)).
Proof.
  intros Hm Hk s r s' H. apply bind_Some in H as (r1 & s1 & H1 & H2).
  destruct (Hm _ _ _ H1) as (new1 & Ht1 & Ho1).
  destruct r1 as [x|e1].
  - destruct (Hk _ _ _ _ H2) as (new2 & Ht2 & Ho2).
    exists (new1 ++ new2). rewrite Ht2, Ht1, app_assoc. split; [reflexivity|].
    rewrite length_app.
    destruct Ho1 as [[-> Ho1] | Hlong].
    + cbn. rewrite <- Ho1. exact Ho2.
    + destruct r; [right|intros ?]; lia.
  - unfold ret in H2. injection H2 as <- <-.
    exists new1. split; [exact Ht1|]. exact Ho1.
Qed.

Lemma guarded_ext (m m' : M (res unit)) :
  (forall s, m s = m' s) -> guarded m' -> guarded m.
Proof. intros Heq H s r s' Hm. rewrite Heq in Hm. exact (H _ _ _ Hm). Qed.

Lemma observe_log ev s : observe (log ev s) = observe s.
Proof. reflexivity. Qed.

(** *** The building blocks are stages *)

Lemma stage_transform op others : stage (transform E op others).
Proof.
  intros s r s' H.
  apply transform_inv in H as (p & i & rest & Hl & _ & H).
  destruct (exec E op (i :: map snd rest)) as [out|e]; destruct H as [-> ->].
  - eexists. split; [reflexivity|]. right. cbn. lia.
  - eexists. split; [reflexivity|]. apply observe_log.
Qed.

Lemma live_or_dead s :
  (exists p i, live s p i) \/
  image (handle s) = None \/
  (exists p, image (handle s) = Some p /\ heap s !! p = None).
Proof.
  destruct (image (handle s)) as [p|] eqn:Hp; [|auto].
  destruct (heap s !! p) as [i|] eqn:Hi.
  - left. exists p, i. split; assumption.
  - right. right. eauto.
Qed.

Ltac crashes H Hp Hi :=
  unfold call, deref_all, deref in H; unfold_monad; cbn in H;
  rewrite ?Hp in H; cbn in H; rewrite ?Hi in H; cbn in H; discriminate H.

Lemma stage_copy_edit e : stage (copy_edit E e).
Proof.
  intros s r s' H.
  destruct (live_or_dead s) as [(p & i & Hl) | [Hp | (p & Hp & Hi)]].
  - rewrite (copy_edit_run E e _ _ _ Hl) in H.
    destruct (exec E vipsCopyImage [i]) as [out|err]; injection H as <- <-.
    + eexists. split; [reflexivity|]. right. cbn. lia.
    + eexists. split; [reflexivity|]. apply observe_log.
  - unfold copy_edit in H. crashes H Hp Hp.
  - unfold copy_edit in H. crashes H Hp Hi.
Qed.

Lemma stage_SetPages pages : stage (SetPages E pages).
Proof.
  intros s r s' H.
  destruct (live_or_dead s) as [(p & i & Hl) | [Hp | (p & Hp & Hi)]].
  - destruct (exec E vipsCopyImage [i]) as [out|err] eqn:Hcopy.
    + rewrite (SetPages_run E pages _ _ _ _ Hl Hcopy) in H. injection H as <- <-.
      eexists. split; [reflexivity|]. right. cbn. lia.
    + destruct Hl as [Hp Hi]. unfold SetPages in H.
      rewrite (bind_run _ _ _ _ _ (eq_refl : self s = Some (handle s, s))) in H.
      rewrite Hp in H.
      rewrite (bind_run_pair _ _ _ _ (call_run E _ _ _ _ Hi)) in H.
      rewrite Hcopy in H. injection H as <- <-.
      eexists. split; [reflexivity|]. apply observe_log.
  - unfold SetPages in H. crashes H Hp Hp.
  - unfold SetPages in H. crashes H Hp Hi.
Qed.

Lemma HasAlpha_live s a s' : HasAlpha s = Some (a, s') -> exists p i, live s p i.
Proof.
  unfold HasAlpha. intros H.
  apply bind_Some in H as (r & s1 & [= <- <-] & H).
  apply bind_Some in H as (j & s2 & Hd & _).
  apply deref_Some in Hd as (p & Hp & Hj & _). exists p, j. split; assumption.
Qed.

Lemma observe_premultiplied_trace p i out s :
  trace (premultiplied p i out s)
  = trace s ++ [EvPrim vipsPremultiplyAlpha [p]; EvClear p].
Proof. reflexivity. Qed.

Lemma stage_PremultiplyAlpha : stage (PremultiplyAlpha E).
Proof.
  intros s r s' H.
  destruct (preMultiplication (handle s)) as [pm|] eqn:Hpm.
  - unfold PremultiplyAlpha in H.
    rewrite (bind_run _ _ _ _ _ (eq_refl : self s = Some (handle s, s))), Hpm in H.
    apply (stage_ret _ _ _ _ H).
  - assert (Hl : exists p i, live s p i).
    { unfold PremultiplyAlpha in H.
      rewrite (bind_run _ _ _ _ _ (eq_refl : self s = Some (handle s, s))), Hpm in H.
      apply bind_Some in H as (a & s1 & Ha & _). exact (HasAlpha_live _ _ _ Ha). }
    destruct Hl as (p & i & Hl).
    rewrite (PremultiplyAlpha_run E _ _ _ Hl), Hpm in H.
    destruct (negb (vipsHasAlpha i)).
    + injection H as <- <-. exists []. rewrite app_nil_r. auto.
    + destruct (exec E vipsPremultiplyAlpha [i]) as [out|e]; injection H as <- <-.
      * eexists. split; [apply observe_premultiplied_trace|]. right. cbn. lia.
      * eexists. split; [reflexivity|]. apply observe_log.
Qed.

Lemma stage_UnpremultiplyAlpha : stage (UnpremultiplyAlpha E).
Proof.
  intros s r s' H.
  destruct (preMultiplication (handle s)) as [pm|] eqn:Hpm.
  - destruct (live_or_dead s) as [(p & i & Hl) | [Hp | (p & Hp & Hi)]].
    + rewrite (UnpremultiplyAlpha_run E _ _ _ Hl), Hpm in H.
      destruct (exec E vipsUnpremultiplyAlpha [i]) as [u|e].
      * destruct (exec E (vipsCast (bandFormat pm)) [u]) as [out|e];
          injection H as <- <-.
        -- eexists. split; [reflexivity|]. right. cbn. lia.
        -- eexists. split; [reflexivity|].
           destruct Hl as [Hp Hi]. unfold observe, cast_failed. cbn.
           rewrite Hp. rewrite delete_insert_eq, delete_id; [reflexivity|].
           apply not_elem_of_dom. apply is_fresh.
      * injection H as <- <-. eexists. split; [reflexivity|]. apply observe_log.
    + unfold UnpremultiplyAlpha in H.
      rewrite (bind_run _ _ _ _ _ (eq_refl : self s = Some (handle s, s))), Hpm in H.
      crashes H Hp Hp.
    + unfold UnpremultiplyAlpha in H.
      rewrite (bind_run _ _ _ _ _ (eq_refl : self s = Some (handle s, s))), Hpm in H.
      crashes H Hp Hi.
  - unfold UnpremultiplyAlpha in H.
    rewrite (bind_run _ _ _ _ _ (eq_refl : self s = Some (handle s, s))), Hpm in H.
    apply (stage_ret _ _ _ _ H).
Qed.

Lemma stage_Linear a b : stage (Linear E a b).
Proof.
  unfold Linear. destruct (negb (length a =? length b)%nat).
  - apply stage_ret.
  - apply stage_transform.
Qed.

Lemma stage_AddAlpha : stage (AddAlpha E).
Proof.
  unfold AddAlpha. apply silent_bind_stage; [apply silent_read|].
  intros [|]; [apply stage_ret | apply stage_transform].
Qed.

Lemma stage_by_height (m1 m2 : M (res unit)) :
  stage m1 -> stage m2 ->
  stage (h <- Height ;; ph <- PageHeight ;; if ph <? h then m1 else m2).
Proof.
  intros H1 H2.
  apply silent_bind_stage; [apply silent_read|]. intros h.
  apply silent_bind_stage; [apply silent_read|]. intros ph.
  destruct (ph <? h); assumption.
Qed.

Lemma stage_TransformICCProfile path :
  stage (TransformICCProfile E SRGBIEC6196621ICCProfilePath path).
Proof.
  unfold TransformICCProfile. apply silent_bind_stage; [apply silent_read|].
  intros embedded. apply stage_transform.
Qed.

Lemma stage_OptimizeICCProfile :
  stage (OptimizeICCProfile E SRGBV2MicroICCProfilePath SGrayV2MicroICCProfilePath).
Proof.
  unfold OptimizeICCProfile, determineInputICCProfile.
  apply silent_bind_stage.
  { apply silent_bind; [apply silent_read|]. intros c.
    destruct (decide (c = InterpretationCMYK)); apply silent_ret. }
  intros inputProfile.
  apply silent_bind_stage; [apply silent_read|]. intros hasProfile.
  destruct (negb hasProfile && String.eqb inputProfile ""); [apply stage_ret|].
  apply silent_bind_stage; [apply silent_set_profile|]. intros _.
  apply silent_bind_stage; [apply silent_read|]. intros bands.
  apply silent_bind_stage.
  { destruct (bands <=? 2); [apply silent_set_profile | apply silent_ret]. }
  intros _.
  apply silent_bind_stage; [apply silent_read|]. intros embedded.
  apply silent_bind_stage; [apply silent_read|]. intros fmt.
  apply silent_bind_stage; [apply silent_self|]. intros r.
  apply stage_transform.
Qed.

Lemma fail_safe_inplace op :
  fail_safe (r <- self ;; call_inplace E op (image r)).
Proof.
  intros s e s' H.
  apply bind_Some in H as (r & s1 & [= <- <-] & H).
  unfold call_inplace in H.
  apply bind_Some in H as (i & s2 & Hd & H).
  apply deref_Some in Hd as (a & Hp & Hi & ->). rewrite Hp in H.
  unfold_monad. destruct (exec_inplace E op i); [discriminate|].
  injection H as <- <-. reflexivity.
Qed.

(** *** The composed methods *)

(** The swap written out inside a longer body is [transform]. *)
Lemma inline_transform op (k : M (res unit)) s :
  (r <- self ;; out <~ call E op [image r] ;; setImage (Some out) ;; k) s
  = (_ <~ transform E op [] ;; k) s.
Proof.
  unfold transform. unfold_monad.
  destruct (call E op [image (handle s)] s) as [[[out|e] s1]|]; [|reflexivity..].
  destruct (setImage (Some out) s1) as [[[] s2]|]; reflexivity.
Qed.

Lemma guarded_Modulate brightness saturation hue :
  guarded (Modulate E brightness saturation hue).
Proof.
  unfold Modulate, ColorSpace, Interpretation_, HasAlpha, ToColorSpace.
  apply silent_bind_guarded; [apply silent_read|]. intros c.
  apply silent_bind_guarded; [apply (silent_read vipsHasAlpha)|]. intros a.
  apply guarded_then; [apply stage_guarded, stage_transform|]. intros _.
  apply guarded_then; [apply stage_guarded, stage_Linear|]. intros _.
  apply guarded_then; [apply stage_guarded, stage_transform|]. intros _.
  apply stage_guarded, stage_ret.
Qed.

Lemma guarded_ModulateHSV brightness saturation hue :
  guarded (ModulateHSV E brightness saturation hue).
Proof.
  unfold ModulateHSV, ColorSpace, Interpretation_, HasAlpha, ToColorSpace.
  apply silent_bind_guarded; [apply silent_read|]. intros c.
  apply silent_bind_guarded; [apply (silent_read vipsHasAlpha)|]. intros a.
  apply guarded_then; [apply stage_guarded, stage_transform|]. intros _.
  apply guarded_then; [apply stage_guarded, stage_Linear|]. intros _.
  apply guarded_then; [apply stage_guarded, stage_transform|]. intros _.
  apply stage_guarded, stage_ret.
Qed.

Lemma silent_Pages : silent Pages.
Proof.
  unfold Pages. apply silent_bind; [apply silent_self|]. intros r.
  destruct (decide (format r = ImageTypeJP2K)); [apply silent_ret|].
  apply silent_bind; [apply silent_deref|]. intros j. apply silent_ret.
Qed.

Lemma guarded_ResizeWithVScale hScale vScale kernel :
  guarded (ResizeWithVScale E hScale vScale kernel).
Proof.
  unfold ResizeWithVScale.
  apply guarded_then; [apply stage_guarded, stage_PremultiplyAlpha|]. intros _.
  apply silent_bind_guarded; [apply silent_Pages|]. intros pages.
  apply silent_bind_guarded; [apply (silent_read vipsGetPageHeight)|]. intros pageHeight.
  eapply guarded_ext; [intros s; apply inline_transform|].
  apply guarded_then; [apply stage_guarded, stage_transform|]. intros _.
  apply guarded_then.
  { destruct (1 <? pages); apply stage_guarded;
      [apply stage_copy_edit | apply stage_ret]. }
  intros _. apply stage_guarded, stage_UnpremultiplyAlpha.
Qed.

Lemma guarded_Rotate angle : guarded (Rotate E angle).
Proof.
  unfold Rotate.
  apply silent_bind_guarded; [apply (silent_read Xsize)|]. intros width.
  apply silent_bind_guarded; [apply silent_Pages|]. intros pages.
  apply guarded_then.
  { destruct ((1 <? pages) && is_quarter_turn angle);
      [|apply stage_guarded, stage_ret].
    apply guarded_then.
    { destruct (decide (angle = Angle270)); apply stage_guarded;
        [apply stage_transform | apply stage_ret]. }
    intros _.
    apply silent_bind_guarded; [apply (silent_read vipsGetPageHeight)|]. intros ph.
    apply silent_bind_guarded; [apply silent_Pages|]. intros n.
    apply guarded_then; [apply stage_guarded, stage_transform|]. intros _.
    apply guarded_then.
    { destruct (decide (angle = Angle270)); apply stage_guarded;
        [apply stage_transform | apply stage_ret]. }
    intros _. apply stage_guarded, stage_ret. }
  intros _.
  eapply guarded_ext; [intros s; apply inline_transform|].
  apply guarded_then; [apply stage_guarded, stage_transform|]. intros _.
  apply silent_bind_guarded; [apply silent_Pages|]. intros pages'.
  apply guarded_then.
  { destruct ((1 <? pages') && is_quarter_turn angle); apply stage_guarded;
      [apply stage_copy_edit | apply stage_ret]. }
  intros _. apply stage_guarded, stage_ret.
Qed.

Lemma fail_safe_simple m : composed m = false -> fail_safe (invoke E SRGBV2MicroICCProfilePath SGrayV2MicroICCProfilePath
      SRGBIEC6196621ICCProfilePath SizeBoth m).
Proof.
  destruct m; cbn [composed invoke]; try discriminate; intros _;
    autounfold with methods;
    try (apply stage_fail_safe;
         first [ apply stage_transform | apply stage_copy_edit | apply stage_SetPages
               | apply stage_AddAlpha | apply stage_PremultiplyAlpha
               | apply stage_UnpremultiplyAlpha | apply stage_Linear
               | apply stage_TransformICCProfile | apply stage_OptimizeICCProfile
               | apply stage_by_height; apply stage_transform ]);
    try apply fail_safe_inplace.
  (* EmbedBackground dereferences its colour first *)
  unfold EmbedBackground. destruct backgroundColor as [bg|].
  - apply stage_fail_safe, stage_by_height; apply stage_transform.
  - intros s e s' H. discriminate H.
Qed.

(** C1, amended.  When a mutating method returns an error, the native
    pointer, the two format fields, the pre-multiplication state and the
    native object behind the pointer (page attributes included) are what they
    were before the call, provided the method is not one of the composed ones
    ([Modulate], [ModulateHSV], [Rotate], [Resize], [ResizeWithVScale]).  For
    a composed method the same holds when the failing primitive was the only
    native call the method made, that is, when its first step failed. *)
Theorem mutation_error_leaves_handle (m : Mutation) (s : State) (e : error)
    (s' : State) :
  invoke E SRGBV2MicroICCProfilePath SGrayV2MicroICCProfilePath
      SRGBIEC6196621ICCProfilePath SizeBoth m s
    = Some (Error e, s') ->
  composed m = false \/ (exists ev, trace s' = trace s ++ [ev]) ->
  observe s' = observe s.
Proof.
  intros Hrun Hcase.
  destruct (composed m) eqn:Hc.
  - destruct Hcase as [Hcase | (ev & Hev)]; [discriminate Hcase|].
    assert (Hg : guarded (invoke E SRGBV2MicroICCProfilePath SGrayV2MicroICCProfilePath
      SRGBIEC6196621ICCProfilePath SizeBoth m)).
    { destruct m; try discriminate Hc; cbn [invoke].
      - apply guarded_Modulate.
      - apply guarded_ModulateHSV.
      - apply guarded_ResizeWithVScale.
      - apply guarded_ResizeWithVScale.
      - apply guarded_Rotate. }
    destruct (Hg _ _ _ Hrun) as (new & Hnew & Hobs).
    apply Hobs. rewrite Hev in Hnew. apply app_inv_head in Hnew. subst new.
    cbn. lia.
  - exact (fail_safe_simple m Hc _ _ _ Hrun).
Qed.

End Atomicity.

(** C1, as stated, fails.  [ResizeWithVScale(-2, -1, KernelAuto)] on the
    animation: the premultiplication goes through and is swapped in, then the
    resize rejects the scale.  The method returns that error with the handle
    on the premultiplied float image and the tracker active. *)
Lemma resize_error_after_premultiply :
  (exists e s',
     ResizeWithVScale sample_engine (-2)%float (-1)%float KernelAuto
       (loaded animation ImageTypeGIF) = Some (Error e, s') /\
     image (handle s') = Some 8%N /\
     preMultiplication (handle s') = Some {| bandFormat := BandFormatUchar |} /\
     observe s' <> observe (loaded animation ImageTypeGIF)) /\
  ~ every_mutation_fail_safe sample_engine.
Proof.
  pose (s := loaded animation ImageTypeGIF).
  pose (s' := log (EvPrim (vipsResizeWithVScale (-2)%float (-1)%float KernelAuto) [8%N])
                  (premultiplied 7%N animation
                     (with_BandFmt BandFormatFloat animation) s)).
  assert (Hrun : ResizeWithVScale sample_engine (-2)%float (-1)%float KernelAuto s
                 = Some (Error (NativeError "resize: scale out of range"), s'))
    by (vm_compute; reflexivity).
  assert (Hobs : observe s' <> observe s) by (vm_compute; discriminate).
  split.
  - exists (NativeError "resize: scale out of range"), s'.
    split; [exact Hrun|]. split; [reflexivity|]. split; [reflexivity|exact Hobs].
  - intros H. apply Hobs.
    exact (H (CallResizeWithVScale (-2)%float (-1)%float KernelAuto) s _ s' Hrun).
Qed.

Lemma mutation_error_leaves_handle_witness :
  observe (log (EvPrim (vipsResizeWithVScale (-2)%float (-1)%float KernelAuto) [7%N])
               (loaded photo ImageTypeJPEG))
  = observe (loaded photo ImageTypeJPEG).
Proof.
  apply (mutation_error_leaves_handle sample_engine "srgb.icc" "sgray.icc"
           "srgb_iec.icc" 0
           (CallResizeWithVScale (-2)%float (-1)%float KernelAuto)
           (loaded photo ImageTypeJPEG)
           (NativeError "resize: scale out of range")).
  - vm_compute. reflexivity.
  - right. eexists. reflexivity.
Defined.

Example cast_failure_is_invisible :
  forall E s e s',
    UnpremultiplyAlpha E s = Some (Error e, s') -> observe s' = observe s.
Proof. intros E. exact (stage_fail_safe _ (stage_UnpremultiplyAlpha E)). Qed.

(** ** Page geometry across resize and rotation *)

Lemma no_page_height_write_nil : no_page_height_write [].
Proof. intros h q []. Qed.

Lemma no_page_height_write_app t1 t2 :
  no_page_height_write t1 -> no_page_height_write t2 ->
  no_page_height_write (t1 ++ t2).
Proof.
  intros H1 H2 h q Hin. apply in_app_or in Hin as [Hin|Hin];
    [exact (H1 _ _ Hin) | exact (H2 _ _ Hin)].
Qed.

Ltac no_write :=
  let h := fresh "h" in let q := fresh "q" in let Hin := fresh "Hin" in
  intros h q Hin; cbn in Hin;
  repeat (destruct Hin as [Hin|Hin]; [discriminate Hin|]); exact Hin.

Section Steps.
Context (E : Engine).

(** [x, err := m; if err != nil { return err }; k x] returned nil. *)
Lemma try_Ok {A} (m : M (res A)) (k : A -> M (res unit)) s u s' :
  bind m (fun r => match r with Ok x => k x | Error e => ret (Error e) end) s
    = Some (Ok u, s') ->
  exists x s1, m s = Some (Ok x, s1) /\ k x s1 = Some (Ok u, s').
Proof.
  intros H. apply bind_Some in H as (r & s1 & Hm & Hk).
  destruct r as [x|e]; [eauto|]. discriminate Hk.
Qed.

Lemma transform_Ok op s p i u s' :
  live s p i ->
  transform E op [] s = Some (Ok u, s') ->
  exists out, exec E op [i] = Ok out /\
    live s' (fresh (dom (heap s))) out /\
    trace s' = trace s ++ [EvPrim op [p]; EvClear p] /\
    format (handle s') = format (handle s) /\
    preMultiplication (handle s') = preMultiplication (handle s).
Proof.
  intros Hl H. rewrite (transform_run E op _ _ _ Hl) in H.
  destruct (exec E op [i]) as [out|e]; [|discriminate H].
  injection H as <- <-. exists out. split; [reflexivity|].
  split; [apply (replaced_live _ _ _ _ _ i), Hl|]. auto.
Qed.

Lemma copy_edit_Ok e s p i u s' :
  live s p i ->
  copy_edit E e s = Some (Ok u, s') ->
  exists out, exec E vipsCopyImage [i] = Ok out /\
    live s' (fresh (dom (heap s))) (apply_edit e out) /\
    trace s' = trace s ++ [EvPrim vipsCopyImage [p];
                           EvEdit e (fresh (dom (heap s))); EvClear p] /\
    format (handle s') = format (handle s) /\
    preMultiplication (handle s') = preMultiplication (handle s).
Proof.
  intros Hl H. rewrite (copy_edit_run E e _ _ _ Hl) in H.
  destruct (exec E vipsCopyImage [i]) as [out|err]; [|discriminate H].
  injection H as <- <-. exists out. split; [reflexivity|].
  split; [apply (edited_live _ _ _ _ i), Hl|]. auto.
Qed.

Lemma PremultiplyAlpha_Ok s p i u s' :
  keeps_page_count E vipsPremultiplyAlpha ->
  keeps_page_height E vipsPremultiplyAlpha ->
  live s p i ->
  PremultiplyAlpha E s = Some (Ok u, s') ->
  exists p' i' t, live s' p' i' /\ trace s' = trace s ++ t /\
    no_page_height_write t /\
    n_pages i' = n_pages i /\ page_height i' = page_height i /\
    format (handle s') = format (handle s).
Proof.
  intros Hn Hh Hl H. rewrite (PremultiplyAlpha_run E _ _ _ Hl) in H.
  assert (Hsame : s' = s -> exists p' i' t, live s' p' i' /\ trace s' = trace s ++ t /\
            no_page_height_write t /\ n_pages i' = n_pages i /\
            page_height i' = page_height i /\ format (handle s') = format (handle s)).
  { intros ->. exists p, i, []. rewrite app_nil_r.
    split; [exact Hl|]. split; [reflexivity|].
    split; [apply no_page_height_write_nil|]. auto. }
  destruct (preMultiplication (handle s)) as [pm|].
  { injection H as <- <-. apply Hsame. reflexivity. }
  destruct (negb (vipsHasAlpha i)).
  { injection H as <- <-. apply Hsame. reflexivity. }
  destruct (exec E vipsPremultiplyAlpha [i]) as [out|e] eqn:Hx; [|discriminate H].
  injection H as <- <-.
  exists (fresh (dom (heap s))), out, [EvPrim vipsPremultiplyAlpha [p]; EvClear p].
  split; [apply premultiplied_live, Hl|]. split; [reflexivity|].
  split; [no_write|]. split; [exact (Hn _ _ Hx)|]. split; [exact (Hh _ _ Hx)|].
  reflexivity.
Qed.

Lemma UnpremultiplyAlpha_Ok s p i u s' :
  keeps_page_height E vipsUnpremultiplyAlpha ->
  (forall f, keeps_page_height E (vipsCast f)) ->
  live s p i ->
  UnpremultiplyAlpha E s = Some (Ok u, s') ->
  exists p' i' t, live s' p' i' /\ trace s' = trace s ++ t /\
    no_page_height_write t /\ page_height i' = page_height i.
Proof.
  intros Hun Hcast Hl H. rewrite (UnpremultiplyAlpha_run E _ _ _ Hl) in H.
  destruct (preMultiplication (handle s)) as [pm|].
  - destruct (exec E vipsUnpremultiplyAlpha [i]) as [v|e] eqn:Hv; [|discriminate H].
    destruct (exec E (vipsCast (bandFormat pm)) [v]) as [out|e] eqn:Hout;
      [|discriminate H].
    injection H as <- <-.
    eexists. exists out. eexists.
    split; [apply (unpremultiplied_live _ _ _ _ _ i), Hl|].
    split; [reflexivity|]. split; [no_write|].
    rewrite (Hcast _ _ _ Hout). exact (Hun _ _ Hv).
  - injection H as <- <-. exists p, i, []. rewrite app_nil_r.
    split; [exact Hl|]. split; [reflexivity|].
    split; [apply no_page_height_write_nil|]. reflexivity.
Qed.

End Steps.

Lemma sample_keeps_pages op :
  keeps_page_count sample_engine op /\ keeps_page_height sample_engine op.
Proof.
  split; intros i out H; cbn in H; destruct op; cbn in H;
    repeat match type of H with
           | (if ?c then _ else _) = _ => destruct c
           end;
    try discriminate H; injection H as <-; reflexivity.
Qed.

Arguments ResizeWithVScale : simpl never.
Arguments Rotate : simpl never.
Arguments SetPageHeight : simpl never.

Lemma page_count_eq t t' i i' :
  t' = t -> n_pages i' = n_pages i -> page_count t' i' = page_count t i.
Proof. intros -> Hn. unfold page_count. rewrite Hn. reflexivity. Qed.

(** C3.  Let the premultiply, unpremultiply and cast primitives carry the
    page attributes over.  After a successful [ResizeWithVScale], if the
    handle reported more than one page before the call, the image it holds
    stores as page height the old page height multiplied by the vertical
    scale factor, which is [vScale], or [hScale] when [vScale] is -1: the
    product is taken in binary64 and its fraction discarded, as Go's
    [int(float64(pageHeight) * scale)] does.  The attribute is written by an
    event that comes after the resize primitive in the trace of the call, and
    by no other event.  If the handle reported at most one page, no event of
    the call writes the page height. *)
Theorem ResizeWithVScale_rescales_page_height (E : Engine)
    (hScale vScale : float64) (kernel : Kernel) (s : State) (p : N) (i : VipsImage)
    (s' : State) :
  keeps_page_count E vipsPremultiplyAlpha ->
  keeps_page_height E vipsPremultiplyAlpha ->
  keeps_page_height E vipsUnpremultiplyAlpha ->
  (forall f, keeps_page_height E (vipsCast f)) ->
  live s p i ->
  ResizeWithVScale E hScale vScale kernel s = Some (Ok tt, s') ->
  let factor := if PrimFloat.eqb vScale (-1)%float then hScale else vScale in
  let newPageHeight :=
    int_of_f64 (PrimFloat.mul (f64_of_int (page_height i)) factor) in
  (1 < page_count (format (handle s)) i ->
   exists p' i' t1 src t2 dst t3,
     live s' p' i' /\ page_height i' = newPageHeight /\
     trace s' = trace s ++ t1
                  ++ [EvPrim (vipsResizeWithVScale hScale vScale kernel) [src]] ++ t2
                  ++ [EvEdit (vipsSetPageHeight newPageHeight) dst] ++ t3 /\
     no_page_height_write t1 /\ no_page_height_write t2 /\ no_page_height_write t3) /\
  (page_count (format (handle s)) i <= 1 ->
   exists t, trace s' = trace s ++ t /\ no_page_height_write t).
Proof.
  intros Hpn Hph Hun Hcast Hl H factor newPageHeight.
  assert (Hnew : scaled_page_height (page_height i) (page_scale hScale vScale)
                 = newPageHeight).
  { unfold newPageHeight, factor, scaled_page_height, page_scale.
    destruct (PrimFloat.eqb vScale (-1)%float); reflexivity. }
  unfold ResizeWithVScale in H.
  apply try_Ok in H as (u1 & s1 & Hpre & H).
  destruct (PremultiplyAlpha_Ok E _ _ _ _ _ Hpn Hph Hl Hpre)
    as (p1 & i1 & t1 & Hl1 & Htr1 & Hnw1 & Hn1 & Hh1 & Hf1).
  rewrite (bind_run _ _ _ _ _ (Pages_run _ _ _ Hl1)) in H.
  rewrite (bind_run _ _ _ _ _ (GetPageHeight_run _ _ _ Hl1)) in H.
  rewrite inline_transform in H.
  apply try_Ok in H as (u2 & s2 & Hres & H).
  destruct (transform_Ok E _ _ _ _ _ _ Hl1 Hres) as (out & Hx & Hl2 & Htr2 & Hf2 & _).
  apply try_Ok in H as (u3 & s3 & Hset & H).
  rewrite (page_count_eq _ _ _ _ Hf1 Hn1) in Hset. rewrite Hh1 in Hset.
  rewrite Hnew in Hset.
  split.
  - intros Hmulti. apply Z.ltb_lt in Hmulti. rewrite Hmulti in Hset.
    destruct (copy_edit_Ok E _ _ _ _ _ _ Hl2 Hset) as (c & Hc & Hl3 & Htr3 & _).
    destruct (UnpremultiplyAlpha_Ok E _ _ _ _ _ Hun Hcast Hl3 H)
      as (p4 & i4 & t4 & Hl4 & Htr4 & Hnw4 & Hh4).
    exists p4, i4, t1, p1, [EvClear p1; EvPrim vipsCopyImage [fresh (dom (heap s1))]],
      (fresh (dom (heap s2))), (EvClear (fresh (dom (heap s1))) :: t4).
    split; [exact Hl4|]. split; [rewrite Hh4; reflexivity|].
    split.
    { rewrite Htr4, Htr3, Htr2, Htr1. rewrite <- !app_assoc. reflexivity. }
    split; [exact Hnw1|]. split; [no_write|].
    apply (no_page_height_write_app [_]); [no_write|exact Hnw4].
  - intros Hsingle. apply Z.ltb_ge in Hsingle. rewrite Hsingle in Hset.
    injection Hset as <- <-.
    destruct (UnpremultiplyAlpha_Ok E _ _ _ _ _ Hun Hcast Hl2 H)
      as (p4 & i4 & t4 & Hl4 & Htr4 & Hnw4 & Hh4).
    exists (t1 ++ [EvPrim (vipsResizeWithVScale hScale vScale kernel) [p1]; EvClear p1]
               ++ t4).
    split.
    { rewrite Htr4, Htr2, Htr1. rewrite <- !app_assoc. reflexivity. }
    apply no_page_height_write_app; [exact Hnw1|].
    apply no_page_height_write_app; [no_write|exact Hnw4].
Qed.

Lemma ResizeWithVScale_rescales_page_height_witness :
  (exists s' p' i',
     ResizeWithVScale sample_engine 0.5%float (-1)%float KernelAuto
       (loaded animation ImageTypeGIF) = Some (Ok tt, s') /\
     live s' p' i' /\ page_height i' = 40) /\
  (exists s' p' i',
     ResizeWithVScale sample_engine 0.5%float 2%float KernelAuto
       (loaded animation ImageTypeGIF) = Some (Ok tt, s') /\
     live s' p' i' /\ page_height i' = 160).
Proof.
  pose (s := loaded animation ImageTypeGIF).
  split.
  - pose (s' := final_state
                  (ResizeWithVScale sample_engine 0.5%float (-1)%float KernelAuto s) s).
    assert (Hrun : ResizeWithVScale sample_engine 0.5%float (-1)%float KernelAuto s
                   = Some (Ok tt, s')) by (vm_compute; reflexivity).
    destruct (ResizeWithVScale_rescales_page_height sample_engine 0.5%float (-1)%float
                KernelAuto s 7%N animation s'
                (proj1 (sample_keeps_pages _)) (proj2 (sample_keeps_pages _))
                (proj2 (sample_keeps_pages _))
                (fun f => proj2 (sample_keeps_pages (vipsCast f)))
                (conj eq_refl eq_refl) Hrun) as [Hmulti _].
    destruct Hmulti as (p' & i' & t1 & src & t2 & dst & t3 & Hl & Hh & _).
    + reflexivity.
    + exists s', p', i'. split; [exact Hrun|]. split; [exact Hl|].
      rewrite Hh. vm_compute. reflexivity.
  - pose (s' := final_state
                  (ResizeWithVScale sample_engine 0.5%float 2%float KernelAuto s) s).
    assert (Hrun : ResizeWithVScale sample_engine 0.5%float 2%float KernelAuto s
                   = Some (Ok tt, s')) by (vm_compute; reflexivity).
    destruct (ResizeWithVScale_rescales_page_height sample_engine 0.5%float 2%float
                KernelAuto s 7%N animation s'
                (proj1 (sample_keeps_pages _)) (proj2 (sample_keeps_pages _))
                (proj2 (sample_keeps_pages _))
                (fun f => proj2 (sample_keeps_pages (vipsCast f)))
                (conj eq_refl eq_refl) Hrun) as [Hmulti _].
    destruct Hmulti as (p' & i' & t1 & src & t2 & dst & t3 & Hl & Hh & _).
    + reflexivity.
    + exists s', p', i'. split; [exact Hrun|]. split; [exact Hl|].
      rewrite Hh. vm_compute. reflexivity.
Defined.

Section RotateSteps.
Context (E : Engine).

(** The flip [Rotate] wraps around the grid for [Angle270]. *)
Lemma optional_Flip_Ok angle s p i u s' :
  (forall d, keeps_page_count E (vipsFlip d)) ->
  (forall d, keeps_page_height E (vipsFlip d)) ->
  live s p i ->
  (if decide (angle = Angle270) then Flip E DirectionHorizontal else ret (Ok tt)) s
    = Some (Ok u, s') ->
  exists p' i' t, live s' p' i' /\ trace s' = trace s ++ t /\
    n_pages i' = n_pages i /\ page_height i' = page_height i /\
    format (handle s') = format (handle s) /\
    mirrored_for E angle i i'.
Proof.
  intros Hn Hh Hl H. unfold mirrored_for. destruct (decide (angle = Angle270)).
  - unfold Flip in H.
    destruct (transform_Ok E _ _ _ _ _ _ Hl H) as (out & Hx & Hl' & Htr & Hf & _).
    eexists. exists out. eexists. split; [exact Hl'|]. split; [exact Htr|].
    split; [exact (Hn _ _ _ Hx)|]. split; [exact (Hh _ _ _ Hx)|].
    split; [exact Hf|exact Hx].
  - injection H as <- <-. exists p, i, []. rewrite app_nil_r. auto 10.
Qed.

End RotateSteps.

(** C4.  Let flip keep both page attributes and let grid, rotate and copy
    keep the page count.  On a handle that reports more than one page, a
    successful [Rotate] by [Angle90] or [Angle270] reshapes before it
    rotates: the grid primitive (tile height = page height, across = page
    count, down = 1) runs on the image of the handle (mirrored for
    [Angle270]), the rotate primitive runs on what the grid returned
    (mirrored again for [Angle270]), and the handle ends on a copy of the
    rotated image whose page height has been set to the width the image had
    before the call.  The handle reports the same page count as before, and
    the grid call precedes the rotate call in the trace. *)
Theorem Rotate_quarter_turn_keeps_pages (E : Engine) (angle : Angle) (s : State)
    (p : N) (i : VipsImage) (s' : State) :
  (forall d, keeps_page_count E (vipsFlip d)) ->
  (forall d, keeps_page_height E (vipsFlip d)) ->
  (forall th a d, keeps_page_count E (vipsGrid th a d)) ->
  keeps_page_count E (vipsRotate angle) ->
  keeps_page_count E vipsCopyImage ->
  live s p i ->
  is_quarter_turn angle = true ->
  1 < page_count (format (handle s)) i ->
  Rotate E angle s = Some (Ok tt, s') ->
  exists (column grid sheet rotated copy : VipsImage) p' i' t1 a t2 b t3,
    mirrored_for E angle i column /\
    exec E (vipsGrid (page_height i) (page_count (format (handle s)) i) 1) [column]
      = Ok grid /\
    mirrored_for E angle grid sheet /\
    exec E (vipsRotate angle) [sheet] = Ok rotated /\
    exec E vipsCopyImage [rotated] = Ok copy /\
    i' = apply_edit (vipsSetPageHeight (Xsize i)) copy /\
    live s' p' i' /\
    page_height i' = Xsize i /\
    page_count (format (handle s')) i' = page_count (format (handle s)) i /\
    Pages s' = Some (page_count (format (handle s)) i, s') /\
    trace s' = trace s ++ t1
                 ++ [EvPrim (vipsGrid (page_height i)
                                      (page_count (format (handle s)) i) 1) [a]] ++ t2
                 ++ [EvPrim (vipsRotate angle) [b]] ++ t3.
Proof.
  intros Hfn Hfh Hgrid Hrot Hcopy Hl Hq Hmulti H.
  pose proof Hmulti as Hmb. apply Z.ltb_lt in Hmb.
  unfold Rotate in H.
  rewrite (bind_run _ _ _ _ _ (Width_run _ _ _ Hl)) in H.
  rewrite (bind_run _ _ _ _ _ (Pages_run _ _ _ Hl)) in H.
  rewrite Hmb, Hq in H. cbn [andb] in H.
  apply try_Ok in H as (u0 & sC & Hblock & H).
  (* the reshaping block *)
  apply try_Ok in Hblock as (u1 & sA & Hflip1 & Hblock).
  destruct (optional_Flip_Ok E _ _ _ _ _ _ Hfn Hfh Hl Hflip1)
    as (pA & iA & tA & HlA & HtrA & HnA & HhA & HfA & HmA).
  rewrite (bind_run _ _ _ _ _ (GetPageHeight_run _ _ _ HlA)) in Hblock.
  rewrite (bind_run _ _ _ _ _ (Pages_run _ _ _ HlA)) in Hblock.
  rewrite (page_count_eq _ _ _ _ HfA HnA), HhA in Hblock.
  apply try_Ok in Hblock as (u2 & sB & Hgr & Hblock).
  unfold Grid in Hgr.
  destruct (transform_Ok E _ _ _ _ _ _ HlA Hgr) as (g & Hg & HlB & HtrB & HfB & _).
  apply try_Ok in Hblock as (u3 & sC' & Hflip2 & Hblock).
  destruct (optional_Flip_Ok E _ _ _ _ _ _ Hfn Hfh HlB Hflip2)
    as (pC & iC & tC & HlC & HtrC & HnC & _ & HfC & HmC).
  injection Hblock as _ ->.
  (* the rotation *)
  rewrite inline_transform in H.
  apply try_Ok in H as (u4 & sD & Hr & H).
  destruct (transform_Ok E _ _ _ _ _ _ HlC Hr) as (rot & Hrx & HlD & HtrD & HfD & _).
  rewrite (bind_run _ _ _ _ _ (Pages_run _ _ _ HlD)) in H.
  assert (Hcount : page_count (format (handle sD)) rot
                   = page_count (format (handle s)) i).
  { apply page_count_eq; [congruence|].
    rewrite (Hrot _ _ Hrx), HnC, (Hgrid _ _ _ _ _ Hg). exact HnA. }
  rewrite Hcount, Hmb in H. cbn [andb] in H.
  apply try_Ok in H as (u5 & sE & Hset & H).
  injection H as <-.
  unfold SetPageHeight in Hset.
  destruct (copy_edit_Ok E _ _ _ _ _ _ HlD Hset) as (c & Hc & HlE & HtrE & HfE & _).
  assert (Hfinal : page_count (format (handle sE)) (apply_edit (vipsSetPageHeight (Xsize i)) c)
                   = page_count (format (handle s)) i).
  { rewrite <- Hcount. apply page_count_eq; [exact HfE|]. cbn. exact (Hcopy _ _ Hc). }
  exists iA, g, iC, rot, c. eexists. eexists. exists tA, pA, (EvClear pA :: tC), pC.
  eexists.
  split; [exact HmA|]. split; [exact Hg|]. split; [exact HmC|].
  split; [exact Hrx|]. split; [exact Hc|]. split; [reflexivity|].
  split; [exact HlE|]. split; [reflexivity|]. split; [exact Hfinal|].
  split; [rewrite (Pages_run _ _ _ HlE), Hfinal; reflexivity|].
  rewrite HtrE, HtrD, HtrC, HtrB, HtrA. rewrite <- !app_assoc. cbn. reflexivity.
Qed.

Lemma Rotate_quarter_turn_keeps_pages_witness :
  exists s' p' i',
    Rotate sample_engine Angle90 (loaded animation ImageTypeGIF) = Some (Ok tt, s') /\
    live s' p' i' /\ page_height i' = 100 /\ Pages s' = Some (3, s') /\
    Xsize i' = 80 /\ Ysize i' = 300.
Proof.
  pose (s := loaded animation ImageTypeGIF).
  pose (s' := final_state (Rotate sample_engine Angle90 s) s).
  assert (Hrun : Rotate sample_engine Angle90 s = Some (Ok tt, s'))
    by (vm_compute; reflexivity).
  destruct (Rotate_quarter_turn_keeps_pages sample_engine Angle90 s 7%N animation s'
              (fun d => proj1 (sample_keeps_pages (vipsFlip d)))
              (fun d => proj2 (sample_keeps_pages (vipsFlip d)))
              (fun th a d => proj1 (sample_keeps_pages (vipsGrid th a d)))
              (proj1 (sample_keeps_pages _)) (proj1 (sample_keeps_pages _))
              (conj eq_refl eq_refl) eq_refl eq_refl Hrun)
    as (column & grid & sheet & rotated & copy & p' & i' & t1 & a & t2 & b & t3
        & Hcol & Hgrid & Hsheet & Hrot & Hcopy & Hi & Hl & Hh & _ & Hpages & _).
  exists s', p', i'. split; [exact Hrun|]. split; [exact Hl|].
  split; [exact Hh|]. split; [exact Hpages|].
  vm_compute in Hcol. subst column.
  vm_compute in Hgrid. injection Hgrid as <-.
  vm_compute in Hsheet. subst sheet.
  vm_compute in Hrot. injection Hrot as <-.
  vm_compute in Hcopy. injection Hcopy as <-.
  subst i'. split; reflexivity.
Defined.

Example Rotate_270_trace :
  option_map (fun x => trace (snd x))
    (Rotate sample_engine Angle270 (loaded animation ImageTypeGIF))
  = Some [EvPrim (vipsFlip DirectionHorizontal) [7%N]; EvClear 7%N;
          EvPrim (vipsGrid 80 3 1) [8%N]; EvClear 8%N;
          EvPrim (vipsFlip DirectionHorizontal) [9%N]; EvClear 9%N;
          EvPrim (vipsRotate Angle270) [10%N]; EvClear 10%N;
          EvPrim vipsCopyImage [11%N]; EvEdit (vipsSetPageHeight 100) 12%N;
          EvClear 11%N].
Proof. vm_compute. reflexivity. Qed.


(** ** EXIF orientation *)

Lemma orientation_cases (o : Z) :
  1 <= o <= 8 ->
  o = 1 \/ o = 2 \/ o = 3 \/ o = 4 \/ o = 5 \/ o = 6 \/ o = 7 \/ o = 8.
Proof. lia. Qed.

(** X1.  [GetRotationAngleFromExif] tells the eight EXIF orientations apart:
    two different orientations between 1 and 8 never give the same angle and
    mirror flag. *)
Theorem GetRotationAngleFromExif_distinguishes (a b : Z) :
  1 <= a <= 8 -> 1 <= b <= 8 -> a <> b ->
  GetRotationAngleFromExif a <> GetRotationAngleFromExif b.
Proof.
  intros Ha Hb Hne.
  apply orientation_cases in Ha. apply orientation_cases in Hb.
  repeat (destruct Ha as [Ha|Ha]); subst a;
    repeat (destruct Hb as [Hb|Hb]); subst b;
    first [ congruence | cbn; discriminate ].
Qed.

Lemma GetRotationAngleFromExif_distinguishes_witness :
  GetRotationAngleFromExif 5 <> GetRotationAngleFromExif 8.
Proof. apply GetRotationAngleFromExif_distinguishes; lia. Defined.

(** X2.  Any orientation outside 1..8 (0, a negative number, 9 and above)
    reads as upright and not mirrored, the same answer as orientation 1. *)
Theorem GetRotationAngleFromExif_out_of_range (o : Z) :
  o < 1 \/ 8 < o ->
  GetRotationAngleFromExif o = (Angle0, false) /\
  GetRotationAngleFromExif o = GetRotationAngleFromExif 1.
Proof.
  intros Hrange. unfold GetRotationAngleFromExif.
  destruct (Z.eqb_spec o 0) as [->|H0]; [split; reflexivity|].
  destruct (Z.eqb_spec o 1) as [->|H1]; [lia|].
  destruct (Z.eqb_spec o 2) as [->|H2]; [lia|].
  destruct (Z.eqb_spec o 3) as [->|H3]; [lia|].
  destruct (Z.eqb_spec o 4) as [->|H4]; [lia|].
  destruct (Z.eqb_spec o 5) as [->|H5]; [lia|].
  destruct (Z.eqb_spec o 8) as [->|H8]; [lia|].
  destruct (Z.eqb_spec o 6) as [->|H6]; [lia|].
  destruct (Z.eqb_spec o 7) as [->|H7]; [lia|].
  split; reflexivity.
Qed.

Lemma GetRotationAngleFromExif_out_of_range_witness :
  GetRotationAngleFromExif 9 = (Angle0, false) /\
  GetRotationAngleFromExif 9 = GetRotationAngleFromExif 1.
Proof. apply GetRotationAngleFromExif_out_of_range. right. lia. Defined.

(** ** Import options *)

Lemma commas_append s t : commas (String.append s t) = (commas s + commas t)%nat.
Proof.
  induction s as [|c s IH]; [reflexivity|].
  change (String.append (String c s) t) with (String c (String.append s t)).
  cbn [commas]. rewrite IH. lia.
Qed.

Lemma commas_uint d : commas (NilEmpty.string_of_uint d) = 0%nat.
Proof. induction d; cbn; auto. Qed.

Lemma commas_Itoa n : commas (Itoa n) = 0%nat.
Proof.
  unfold Itoa. destruct (Z.to_int n) as [d|d]; cbn.
  - destruct d; cbn; auto using commas_uint.
  - destruct d; cbn; auto using commas_uint.
Qed.

Lemma commas_boolToStr b : commas (boolToStr b) = 0%nat.
Proof. destruct b; reflexivity. Qed.

Lemma entry_int key n : key <> ""%string -> commas key = 0%nat ->
  entry (String.append key (Itoa n)).
Proof.
  intros Hk Hc. split.
  - destruct key; [congruence|]. unfold String.append. discriminate.
  - rewrite commas_append, Hc, commas_Itoa. reflexivity.
Qed.

Lemma entry_bool key b : key <> ""%string -> commas key = 0%nat ->
  entry (String.append key (boolToStr b)).
Proof.
  intros Hk Hc. split.
  - destruct key; [congruence|]. unfold String.append. discriminate.
  - rewrite commas_append, Hc, commas_boolToStr. reflexivity.
Qed.

Lemma commas_concat (l : list string) :
  Forall entry l -> commas (String.concat "," l) = pred (length l).
Proof.
  induction 1 as [|x l [Hx Hc] Hl IH]; [reflexivity|].
  destruct l as [|y l'].
  - cbn. rewrite Hc. reflexivity.
  - change (String.concat "," (x :: y :: l'))
      with (String.append x (String.append "," (String.concat "," (y :: l')))).
    rewrite !commas_append, Hc, IH. cbn. lia.
Qed.

Lemma concat_empty (l : list string) :
  Forall entry l -> (String.concat "," l = ""%string <-> l = []).
Proof.
  intros Hl. split; [|intros ->; reflexivity].
  destruct Hl as [|x l [Hx _] _]; [reflexivity|].
  intros H. exfalso. destruct x as [|c x]; [congruence|].
  destruct l; cbn in H; unfold String.append in H; discriminate H.
Qed.

Lemma append_int_step key p values :
  key <> ""%string -> commas key = 0%nat ->
  int_parameter p -> Forall entry values ->
  exists values', append_int key p values = Some values' /\ Forall entry values' /\
    length values' = (length values + if isSet p then 1 else 0)%nat.
Proof.
  intros Hk Hc Hp Hv. unfold append_int, IsSet, IntParameter_Get.
  destruct (isSet p) eqn:Hs.
  - destruct (Hp Hs) as [n ->]. eexists. split; [reflexivity|]. split.
    + apply Forall_app. split; [exact Hv|]. constructor; [|constructor].
      apply entry_int; assumption.
    + rewrite length_app. reflexivity.
  - exists values. split; [reflexivity|]. split; [exact Hv|]. lia.
Qed.

Lemma append_bool_step key p values :
  key <> ""%string -> commas key = 0%nat ->
  bool_parameter p -> Forall entry values ->
  exists values', append_bool key p values = Some values' /\ Forall entry values' /\
    length values' = (length values + if isSet p then 1 else 0)%nat.
Proof.
  intros Hk Hc Hp Hv. unfold append_bool, IsSet, BoolParameter_Get.
  destruct (isSet p) eqn:Hs.
  - destruct (Hp Hs) as [b ->]. eexists. split; [reflexivity|]. split.
    + apply Forall_app. split; [exact Hv|]. constructor; [|constructor].
      apply entry_bool; assumption.
    + rewrite length_app. reflexivity.
  - exists values. split; [reflexivity|]. split; [exact Hv|]. lia.
Qed.

Lemma set_count_sum i :
  set_count i =
  ((if isSet (NumPages i) then 1 else 0) + (if isSet (Page i) then 1 else 0) +
   (if isSet (Density i) then 1 else 0) + (if isSet (FailOnError i) then 1 else 0) +
   (if isSet (JpegShrinkFactor i) then 1 else 0) +
   (if isSet (AutoRotate_ i) then 1 else 0) +
   (if isSet (SvgUnlimited i) then 1 else 0) +
   (if isSet (HeifThumbnail i) then 1 else 0))%nat.
Proof.
  unfold set_count. cbn [List.filter].
  destruct (isSet (NumPages i)), (isSet (Page i)), (isSet (Density i)),
    (isSet (FailOnError i)), (isSet (JpegShrinkFactor i)), (isSet (AutoRotate_ i)),
    (isSet (SvgUnlimited i)), (isSet (HeifThumbnail i)); reflexivity.
Qed.

(** X3.  For import parameters built through the exported API,
    [OptionString] does not panic; its result has one comma fewer than there
    are set options (each entry is free of commas, so the string splits back
    into exactly the set options), and it is empty exactly when no option is
    set. *)
Theorem OptionString_well_formed (i : ImportParams) :
  well_typed i ->
  exists s, OptionString i = Some s /\
    commas s = pred (set_count i) /\
    (s = ""%string <-> set_count i = 0%nat).
Proof.
  intros (H1 & H2 & H3 & H4 & H5 & H6 & H7 & H8).
  unfold OptionString.
  destruct (append_int_step "n=" _ [] ltac:(discriminate) eq_refl H1 (List.Forall_nil entry))
    as (v1 & -> & F1 & L1). cbn [mbind option_bind].
  destruct (append_int_step "page=" _ v1 ltac:(discriminate) eq_refl H2 F1)
    as (v2 & -> & F2 & L2). cbn [mbind option_bind].
  destruct (append_int_step "dpi=" _ v2 ltac:(discriminate) eq_refl H3 F2)
    as (v3 & -> & F3 & L3). cbn [mbind option_bind].
  destruct (append_bool_step "fail=" _ v3 ltac:(discriminate) eq_refl H4 F3)
    as (v4 & -> & F4 & L4). cbn [mbind option_bind].
  destruct (append_int_step "shrink=" _ v4 ltac:(discriminate) eq_refl H5 F4)
    as (v5 & -> & F5 & L5). cbn [mbind option_bind].
  destruct (append_bool_step "autorotate=" _ v5 ltac:(discriminate) eq_refl H6 F5)
    as (v6 & -> & F6 & L6). cbn [mbind option_bind].
  destruct (append_bool_step "unlimited=" _ v6 ltac:(discriminate) eq_refl H7 F6)
    as (v7 & -> & F7 & L7). cbn [mbind option_bind].
  destruct (append_bool_step "thumbnail=" _ v7 ltac:(discriminate) eq_refl H8 F7)
    as (v8 & -> & F8 & L8). cbn [mbind option_bind].
  assert (Hlen : length v8 = set_count i).
  { rewrite set_count_sum, L8, L7, L6, L5, L4, L3, L2, L1. cbn [length]. lia. }
  eexists. split; [reflexivity|]. split.
  - rewrite commas_concat by exact F8. rewrite Hlen. reflexivity.
  - rewrite concat_empty by exact F8. rewrite <- Hlen.
    split; [intros ->; reflexivity|]. destruct v8; [reflexivity|discriminate].
Qed.

Lemma OptionString_well_formed_witness :
  exists s, OptionString three_pages = Some s /\ commas s = 2%nat.
Proof.
  destruct (OptionString_well_formed three_pages) as (s & Hs & Hc & _).
  - repeat split; intros H; try discriminate H; cbn; eauto.
  - exists s. split; [exact Hs|exact Hc].
Defined.

Example OptionString_three_pages :
  OptionString three_pages = Some "n=3,page=2,fail=TRUE"%string.
Proof. reflexivity. Qed.

Example OptionString_default :
  OptionString NewImportParams = Some "fail=TRUE"%string.
Proof. reflexivity. Qed.

(** ** Export with a requested format *)

Section ExportMore.
Context (E : Engine).
Context (IsTypeSupported : ImageType -> bool) (ImageTypes : ImageType -> string).

Lemma ExportWebp_run params s p i :
  live s p i ->
  let sent := with_IccProfile (optimizedIccProfile (handle s))
                (match params with None => NewWebpExportParams | Some q => q end) in
  ExportWebp E params s =
  Some (export_result (save E (vipsSaveWebPToBuffer sent) i)
                      (metadata_of ImageTypeWEBP (handle s) i),
        log (EvSave (vipsSaveWebPToBuffer sent) p) s).
Proof.
  intros Hl sent. unfold ExportWebp.
  erewrite bind_run by (apply ExportWebp_inout_run; exact Hl). reflexivity.
Qed.

Lemma Export_as_supported ep s p i :
  live s p i ->
  IsTypeSupported (Format ep) = true ->
  exists c, codec_of c = generic_target (Format ep) /\
    Export_as E IsTypeSupported ImageTypes ep s =
    Some (export_result (save E c i)
            (metadata_of (generic_target (Format ep)) (handle s) i),
          log (EvSave c p) s).
Proof.
  intros Hl Hsup. unfold Export_as. rewrite Hsup. cbn [negb].
  destruct (Format ep); cbn [generic_target];
    (eexists; split;
     [| first [ apply (ExportWebp_run _ _ _ _ Hl)
              | unfold ExportJpeg, ExportPng, ExportHeif, ExportTiff, ExportGIF,
                  ExportAvif; apply export_with_run; exact Hl ] ]);
    reflexivity.
Qed.

Lemma Export_as_unsupported ep s p i :
  live s p i ->
  IsTypeSupported (Format ep) = false ->
  Export_as E IsTypeSupported ImageTypes ep s =
  Some ((None, Some (metadata_of ImageTypeUnknown (handle s) i),
         Some (ErrCannotSave (ImageTypes (Format ep)))), s).
Proof.
  intros Hl Hsup. unfold Export_as. rewrite Hsup. cbn [negb].
  erewrite bind_run by (apply (newMetadata_run _ _ p i); exact Hl). reflexivity.
Qed.

End ExportMore.

(** X4.  When [Export] is given a format that [IsTypeSupported] accepts, it
    runs exactly one encoder: the format's own for GIF, WEBP, PNG, TIFF, HEIF
    and AVIF, and the JPEG encoder for every other format, JP2K included.  The
    metadata it returns names the codec that ran, not the format asked for. *)
Theorem Export_requested_format_codec (E : Engine)
    (IsTypeSupported : ImageType -> bool) (ImageTypes : ImageType -> string)
    (ep : ExportParams) (s : State) (p : N) (i : VipsImage) :
  live s p i ->
  Format ep <> ImageTypeUnknown ->
  IsTypeSupported (Format ep) = true ->
  exists c, codec_of c = generic_target (Format ep) /\
    Export E IsTypeSupported ImageTypes (Some ep) s =
    Some (export_result (save E c i)
            (metadata_of (generic_target (Format ep)) (handle s) i),
          log (EvSave c p) s).
Proof.
  intros Hl Hfmt Hsup. unfold Export. rewrite decide_False by exact Hfmt.
  apply Export_as_supported; assumption.
Qed.

Lemma Export_requested_format_codec_witness :
  exists c, codec_of c = ImageTypeJPEG /\
    Export sample_engine sample_supported sample_names (Some jp2k_request)
      (loaded photo ImageTypeJP2K) =
    Some (export_result (save sample_engine c photo)
            (metadata_of ImageTypeJPEG (handle (loaded photo ImageTypeJP2K)) photo),
          log (EvSave c 7%N) (loaded photo ImageTypeJP2K)).
Proof.
  apply (Export_requested_format_codec sample_engine sample_supported sample_names
           jp2k_request (loaded photo ImageTypeJP2K) 7%N photo).
  - split; reflexivity.
  - discriminate.
  - reflexivity.
Defined.

(** X5.  [Export] only reads the handle.  On a handle that holds an image it
    always returns, whatever the parameters and whatever the encoder answers;
    the handle record (recorded format included) and every native object are
    as before, and the trace has gained at most one event, an encoder call on
    the handle's image. *)
Theorem Export_only_reads (E : Engine)
    (IsTypeSupported : ImageType -> bool) (ImageTypes : ImageType -> string)
    (params : option ExportParams) (s : State) (p : N) (i : VipsImage) :
  live s p i ->
  exists out s',
    Export E IsTypeSupported ImageTypes params s = Some (out, s') /\
    handle s' = handle s /\ heap s' = heap s /\
    (trace s' = trace s \/ exists c, trace s' = trace s ++ [EvSave c p]).
Proof.
  intros Hl.
  assert (Hnative : exists out s',
            ExportNative E s = Some (out, s') /\ handle s' = handle s /\
            heap s' = heap s /\
            (trace s' = trace s \/ exists c, trace s' = trace s ++ [EvSave c p])).
  { eexists. eexists. split; [apply (ExportNative_run E _ _ _ Hl)|].
    cbn. eauto 6. }
  unfold Export. destruct params as [ep|]; [|exact Hnative].
  destruct (decide (Format ep = ImageTypeUnknown)); [exact Hnative|].
  destruct (IsTypeSupported (Format ep)) eqn:Hsup.
  - destruct (Export_as_supported E IsTypeSupported ImageTypes ep s p i Hl Hsup)
      as (c & _ & ->).
    eexists. eexists. split; [reflexivity|]. cbn. eauto 6.
  - rewrite (Export_as_unsupported E IsTypeSupported ImageTypes ep s p i Hl Hsup).
    eexists. eexists. split; [reflexivity|]. auto.
Qed.

Lemma Export_only_reads_witness :
  exists out s',
    Export sample_engine sample_supported sample_names (Some jp2k_request)
      (loaded photo ImageTypePNG) = Some (out, s') /\
    handle s' = handle (loaded photo ImageTypePNG) /\
    heap s' = heap (loaded photo ImageTypePNG).
Proof.
  destruct (Export_only_reads sample_engine sample_supported sample_names
              (Some jp2k_request) (loaded photo ImageTypePNG) 7%N photo)
    as (out & s' & Hrun & Hh & Hheap & _).
  - split; reflexivity.
  - exists out, s'. auto.
Defined.

Lemma Format_forwarded ep : Format (forwarded ep) = Format ep.
Proof. unfold forwarded. destruct (Format ep) eqn:H; cbn; exact H. Qed.

Lemma Export_forwarded E IsTypeSupported ImageTypes ep s :
  Export E IsTypeSupported ImageTypes (Some ep) s
  = Export E IsTypeSupported ImageTypes (Some (forwarded ep)) s.
Proof.
  unfold Export, Export_as. rewrite !Format_forwarded.
  destruct (decide (Format ep = ImageTypeUnknown)); [reflexivity|].
  destruct (negb (IsTypeSupported (Format ep))); [reflexivity|].
  unfold forwarded. destruct (Format ep) eqn:H; cbn; rewrite ?H; reflexivity.
Qed.

(** X6.  The generic fields [Export] does not translate for the requested
    codec never reach it: two parameter sets that agree on the fields the
    codec is handed give the same export, in any state.  (GIF is handed
    [Quality] only; WEBP [StripMetadata], [Quality], [Lossless], [Effort];
    PNG [StripMetadata], [Compression], [Interlaced]; TIFF [StripMetadata],
    [Quality], [Lossless]; HEIF [Quality], [Lossless]; AVIF [StripMetadata],
    [Quality], [Lossless], [Speed]; the JPEG branch everything but
    [Compression], [Lossless], [Effort] and [Speed].) *)
Theorem Export_drops_untranslated_fields (E : Engine)
    (IsTypeSupported : ImageType -> bool) (ImageTypes : ImageType -> string)
    (ep ep' : ExportParams) (s : State) :
  forwarded ep = forwarded ep' ->
  Export E IsTypeSupported ImageTypes (Some ep) s
  = Export E IsTypeSupported ImageTypes (Some ep') s.
Proof.
  intros H. rewrite (Export_forwarded _ _ _ ep), (Export_forwarded _ _ _ ep'), H.
  reflexivity.
Qed.

Lemma Export_drops_untranslated_fields_witness :
  Export sample_engine sample_supported sample_names (Some webp_plain)
    (loaded photo ImageTypePNG)
  = Export sample_engine sample_supported sample_names (Some webp_decorated)
      (loaded photo ImageTypePNG).
Proof.
  apply (Export_drops_untranslated_fields sample_engine sample_supported sample_names
           webp_plain webp_decorated).
  reflexivity.
Defined.

(** ** Copies *)

Arguments AddAlpha : simpl never.
Arguments Linear : simpl never.
Arguments ToColorSpace : simpl never.

(** X7.  [Copy] leaves the source handle and its image as they are.  When
    the native copy succeeds it returns a handle on a new native object at an
    address not used before, with the buffer and both format fields of the
    source, and with an empty pre-multiplication tracker and optimized
    profile, whatever the source has recorded; nothing is released.  When the
    native copy fails it returns the error and no handle, and only the failed
    call is in the trace. *)
Theorem Copy_fresh_handle (E : Engine) (s : State) (p : N) (i : VipsImage) :
  live s p i ->
  match exec E vipsCopyImage [i] with
  | Error e => Copy E s = Some (Error e, log (EvPrim vipsCopyImage [p]) s)
  | Ok out =>
      exists q, heap s !! q = None /\ q <> p /\
        Copy E s =
        Some (Ok {| buf := buf (handle s); image := Some q;
                    format := format (handle s);
                    originalFormat := originalFormat (handle s);
                    preMultiplication := None; optimizedIccProfile := "" |},
              {| handle := handle s; heap := <[q := out]> (heap s);
                 trace := trace s ++ [EvPrim vipsCopyImage [p]] |})
  end.
Proof.
  intros [Hp Hi].
  assert (Hrun : Copy E s =
            Some (match exec E vipsCopyImage [i] with
                  | Error e => (Error e, log (EvPrim vipsCopyImage [p]) s)
                  | Ok out =>
                      (Ok (newImageRef (Some (fresh (dom (heap s)))) (format (handle s))
                             (originalFormat (handle s)) (buf (handle s))),
                       {| handle := handle s;
                          heap := <[fresh (dom (heap s)) := out]> (heap s);
                          trace := trace s ++ [EvPrim vipsCopyImage [p]] |})
                  end)).
  { unfold Copy.
    rewrite (bind_run _ _ _ _ _ (eq_refl : self s = Some (handle s, s))). rewrite Hp.
    rewrite (bind_run_pair _ _ _ _ (call_run E _ _ _ _ Hi)).
    destruct (exec E vipsCopyImage [i]); reflexivity. }
  destruct (exec E vipsCopyImage [i]) as [out|e]; [|exact Hrun].
  exists (fresh (dom (heap s))). split; [|split].
  - apply not_elem_of_dom. apply is_fresh.
  - apply not_eq_sym. exact (fresh_not_live _ _ _ Hi).
  - exact Hrun.
Qed.

Lemma Copy_fresh_handle_witness :
  exists q, heap already_premultiplied !! q = None /\ q <> 7%N /\
    Copy sample_engine already_premultiplied =
    Some (Ok {| buf := Some []; image := Some q; format := ImageTypeGIF;
                originalFormat := ImageTypeGIF;
                preMultiplication := None; optimizedIccProfile := "" |},
          {| handle := handle already_premultiplied;
             heap := <[q := with_BandFmt BandFormatFloat animation]>
                       (heap already_premultiplied);
             trace := [EvPrim vipsCopyImage [7%N]] |}).
Proof.
  exact (Copy_fresh_handle sample_engine already_premultiplied 7%N
           (with_BandFmt BandFormatFloat animation) (conj eq_refl eq_refl)).
Defined.

(** ** Attribute setters *)

Section Setters.
Context (E : Engine).

Lemma PageHeight_run s p i : live s p i -> PageHeight s = Some (page_height i, s).
Proof. apply (read_run vipsGetPageHeight). Qed.

(** X8.  What [SetPageHeight], [SetOrientation] and [RemoveOrientation]
    write is what the handle reports afterwards: [PageHeight] answers the
    height just set, [Orientation] the orientation just set, and 0 after a
    removal.  (The attribute is written on the copy that becomes the
    handle's image.) *)
Theorem setters_read_back (s : State) (p : N) (i : VipsImage) (s' : State)
    (height o : Z) :
  live s p i ->
  (SetPageHeight E height s = Some (Ok tt, s') ->
   PageHeight s' = Some (height, s')) /\
  (SetOrientation E o s = Some (Ok tt, s') -> Orientation s' = Some (o, s')) /\
  (RemoveOrientation E s = Some (Ok tt, s') -> Orientation s' = Some (0, s')).
Proof.
  intros Hl. unfold SetPageHeight, SetOrientation, RemoveOrientation.
  split; [|split]; intros H;
    destruct (copy_edit_Ok E _ _ _ _ _ _ Hl H) as (out & _ & Hl' & _).
  - rewrite (PageHeight_run _ _ _ Hl'). reflexivity.
  - rewrite (Orientation_run _ _ _ Hl'). reflexivity.
  - rewrite (Orientation_run _ _ _ Hl'). reflexivity.
Qed.

End Setters.

Lemma setters_read_back_witness :
  PageHeight (final_state (SetPageHeight sample_engine 60 (loaded animation ImageTypeGIF))
                          (loaded animation ImageTypeGIF))
  = Some (60, final_state (SetPageHeight sample_engine 60 (loaded animation ImageTypeGIF))
                          (loaded animation ImageTypeGIF)).
Proof.
  apply (setters_read_back sample_engine (loaded animation ImageTypeGIF) 7%N animation
           _ 60 0 (conj eq_refl eq_refl)).
  vm_compute. reflexivity.
Defined.

(** ** Profile optimisation *)

Section Profiles.
Context (E : Engine).
Context (srgb sgray : string).

Lemma determineInputICCProfile_run s p i :
  live s p i ->
  determineInputICCProfile s =
  Some ((if decide (Type_ i = InterpretationCMYK) then "cmyk" else "")%string, s).
Proof.
  intros Hl. unfold determineInputICCProfile, Interpretation_.
  rewrite (bind_run _ _ _ _ _ (read_run Type_ _ _ _ Hl)).
  destruct (decide (Type_ i = InterpretationCMYK)); reflexivity.
Qed.

Lemma live_with_handle_profile path s p i :
  live s p i -> live (with_handle (set_optimizedIccProfile path (handle s)) s) p i.
Proof. intros [Hp Hi]. split; assumption. Qed.

Lemma OptimizeICCProfile_run s p i :
  live s p i ->
  OptimizeICCProfile E srgb sgray s =
  Some (if needs_profile i
        then
          let s0 := with_handle
                      (set_optimizedIccProfile (chosen_profile srgb sgray i) (handle s)) s in
          match exec E (optimize_call srgb sgray i) [i] with
          | Error e => (Error e, log (EvPrim (optimize_call srgb sgray i) [p]) s0)
          | Ok out => (Ok tt, replaced (optimize_call srgb sgray i) [p] p out s0)
          end
        else (Ok tt, s)).
Proof.
  intros Hl.
  unfold OptimizeICCProfile, needs_profile, optimize_call, chosen_profile.
  rewrite (bind_run _ _ _ _ _ (determineInputICCProfile_run _ _ _ Hl)).
  unfold HasICCProfile, HasProfile, Bands_, BandFormat_.
  rewrite (bind_run _ _ _ _ _ (read_run vipsHasICCProfile _ _ _ Hl)).
  assert (Hcond : negb (vipsHasICCProfile i) &&
                  String.eqb (if decide (Type_ i = InterpretationCMYK)
                              then "cmyk" else "")%string ""
                  = negb (vipsHasICCProfile i ||
                          bool_decide (Type_ i = InterpretationCMYK))).
  { destruct (vipsHasICCProfile i); [reflexivity|].
    destruct (decide (Type_ i = InterpretationCMYK)) as [Hc|Hc].
    - rewrite (bool_decide_eq_true_2 _ Hc). reflexivity.
    - rewrite (bool_decide_eq_false_2 _ Hc). reflexivity. }
  rewrite Hcond.
  destruct (vipsHasICCProfile i || bool_decide (Type_ i = InterpretationCMYK));
    cbn [negb]; [|reflexivity].
  rewrite (bind_run _ _ _ _ _ (eq_refl : update _ s = Some (tt, _))).
  pose proof (live_with_handle_profile srgb _ _ _ Hl) as Hl1.
  rewrite (bind_run _ _ _ _ _ (read_run Bands _ _ _ Hl1)).
  destruct (Bands i <=? 2).
  - rewrite (bind_run _ _ _ _ _ (eq_refl : update _ _ = Some (tt, _))).
    pose proof (live_with_handle_profile sgray _ _ _ Hl1) as Hl2.
    rewrite (bind_run _ _ _ _ _ (read_run vipsHasICCProfile _ _ _ Hl2)).
    rewrite (bind_run _ _ _ _ _ (read_run BandFmt _ _ _ Hl2)).
    rewrite (bind_run _ _ _ _ _ (eq_refl : self _ = Some (_, _))).
    rewrite (transform_run E _ _ _ _ Hl2). reflexivity.
  - rewrite (bind_run _ _ _ _ _ (eq_refl : ret tt _ = Some (tt, _))).
    rewrite (bind_run _ _ _ _ _ (read_run vipsHasICCProfile _ _ _ Hl1)).
    rewrite (bind_run _ _ _ _ _ (read_run BandFmt _ _ _ Hl1)).
    rewrite (bind_run _ _ _ _ _ (eq_refl : self _ = Some (_, _))).
    rewrite (transform_run E _ _ _ _ Hl1). reflexivity.
Qed.

(** X9.  [OptimizeICCProfile] does nothing, and calls nothing, on an image
    that has no embedded profile and is not CMYK.  Otherwise it records the
    target profile in the handle (the gray one for one or two bands, the sRGB
    one above) before it asks for the transform with that same profile: if
    the transform fails, the error is returned with the image untouched but
    the target profile still recorded. *)
Theorem OptimizeICCProfile_records_profile_first (s : State) (p : N) (i : VipsImage) :
  live s p i ->
  (needs_profile i = false -> OptimizeICCProfile E srgb sgray s = Some (Ok tt, s)) /\
  (needs_profile i = true ->
   exists r s', OptimizeICCProfile E srgb sgray s = Some (r, s') /\
     optimizedIccProfile (handle s') = chosen_profile srgb sgray i /\
     (exists rest, trace s' = trace s ++ EvPrim (optimize_call srgb sgray i) [p] :: rest) /\
     (forall e, r = Error e ->
        exec E (optimize_call srgb sgray i) [i] = Error e /\ observe s' = observe s)).
Proof.
  intros Hl. rewrite (OptimizeICCProfile_run _ _ _ Hl). split; intros ->.
  - reflexivity.
  - cbn zeta. destruct (exec E (optimize_call srgb sgray i) [i]) as [out|e0] eqn:Hx.
    + eexists. eexists. split; [reflexivity|]. split; [reflexivity|].
      split; [eexists; reflexivity|]. intros e He. discriminate He.
    + eexists. eexists. split; [reflexivity|]. split; [reflexivity|].
      split; [exists []; reflexivity|]. intros e [= <-]. split; reflexivity.
Qed.

End Profiles.

Lemma OptimizeICCProfile_records_profile_first_witness :
  exists r s',
    OptimizeICCProfile sample_engine "srgb.icc" "sgray.icc"
      (loaded (with_Type InterpretationCMYK photo) ImageTypeJPEG) = Some (r, s') /\
    optimizedIccProfile (handle s') = "srgb.icc"%string.
Proof.
  destruct (OptimizeICCProfile_records_profile_first sample_engine "srgb.icc" "sgray.icc"
              (loaded (with_Type InterpretationCMYK photo) ImageTypeJPEG) 7%N
              (with_Type InterpretationCMYK photo) (conj eq_refl eq_refl))
    as [_ Hneeds].
  destruct (Hneeds eq_refl) as (r & s' & Hrun & Hprofile & _).
  exists r, s'. split; [exact Hrun|exact Hprofile].
Defined.

(** ** Alpha *)

Section Alpha.
Context (E : Engine).

Lemma AddAlpha_run s p i :
  live s p i ->
  AddAlpha E s =
  Some (if vipsHasAlpha i then (Ok tt, s)
        else match exec E vipsAddAlpha [i] with
             | Error e => (Error e, log (EvPrim vipsAddAlpha [p]) s)
             | Ok out => (Ok tt, replaced vipsAddAlpha [p] p out s)
             end).
Proof.
  intros Hl. unfold AddAlpha.
  rewrite (bind_run _ _ _ _ _ (HasAlpha_run _ _ _ Hl)).
  destruct (vipsHasAlpha i); [reflexivity|].
  apply (transform_run E _ _ _ _ Hl).
Qed.

(** X10.  [AddAlpha] is idempotent: if the primitive's result has an alpha
    channel, a second [AddAlpha] right after a successful one returns nil
    and leaves the state, trace included, as it is. *)
Theorem AddAlpha_idempotent (s : State) (p : N) (i : VipsImage) (s1 : State) :
  adds_alpha E ->
  live s p i ->
  AddAlpha E s = Some (Ok tt, s1) ->
  AddAlpha E s1 = Some (Ok tt, s1).
Proof.
  intros Hadd Hl H. rewrite (AddAlpha_run _ _ _ Hl) in H.
  destruct (vipsHasAlpha i) eqn:Ha.
  - injection H as <-. rewrite (AddAlpha_run _ _ _ Hl), Ha. reflexivity.
  - destruct (exec E vipsAddAlpha [i]) as [out|e] eqn:Hx; [|discriminate H].
    injection H as <-.
    rewrite (AddAlpha_run _ _ _ (replaced_live _ _ _ out _ _ (proj2 Hl))).
    rewrite (Hadd _ _ Hx). reflexivity.
Qed.

(** X11.  Both halves of the pre-multiplication bracket are idempotent,
    with no assumption on the engine: after a successful [PremultiplyAlpha]
    a second one changes nothing, and after a successful
    [UnpremultiplyAlpha] a second one changes nothing. *)
Theorem premultiplication_idempotent (s : State) (p : N) (i : VipsImage) (s1 : State) :
  live s p i ->
  (PremultiplyAlpha E s = Some (Ok tt, s1) ->
   PremultiplyAlpha E s1 = Some (Ok tt, s1)) /\
  (UnpremultiplyAlpha E s = Some (Ok tt, s1) ->
   UnpremultiplyAlpha E s1 = Some (Ok tt, s1)).
Proof.
  intros Hl. pose proof Hl as [Hp Hi]. split; intros H.
  - rewrite (PremultiplyAlpha_run E _ _ _ Hl) in H.
    destruct (preMultiplication (handle s)) as [pm|] eqn:Hpm.
    { injection H as <-. rewrite (PremultiplyAlpha_run E _ _ _ Hl), Hpm. reflexivity. }
    destruct (negb (vipsHasAlpha i)) eqn:Ha.
    { injection H as <-. rewrite (PremultiplyAlpha_run E _ _ _ Hl), Hpm, Ha.
      reflexivity. }
    destruct (exec E vipsPremultiplyAlpha [i]) as [out|e]; [|discriminate H].
    injection H as <-.
    rewrite (PremultiplyAlpha_run E _ _ _ (premultiplied_live p i out s Hi)).
    reflexivity.
  - rewrite (UnpremultiplyAlpha_run E _ _ _ Hl) in H.
    destruct (preMultiplication (handle s)) as [pm|] eqn:Hpm.
    + destruct (exec E vipsUnpremultiplyAlpha [i]) as [u|e]; [|discriminate H].
      destruct (exec E (vipsCast (bandFormat pm)) [u]) as [out|e]; [|discriminate H].
      injection H as <-.
      rewrite (UnpremultiplyAlpha_run E _ _ _ (unpremultiplied_live _ _ _ _ _ i Hi)).
      reflexivity.
    + injection H as <-. rewrite (UnpremultiplyAlpha_run E _ _ _ Hl), Hpm. reflexivity.
Qed.

Lemma UnpremultiplyAlpha_clears s u s' :
  UnpremultiplyAlpha E s = Some (Ok u, s') -> preMultiplication (handle s') = None.
Proof.
  intros H.
  destruct (preMultiplication (handle s)) as [pm|] eqn:Hpm.
  - assert (Hl : exists p i, live s p i).
    { unfold UnpremultiplyAlpha in H.
      rewrite (bind_run _ _ _ _ _ (eq_refl : self s = Some (handle s, s))), Hpm in H.
      apply bind_Some in H as (c & s1 & Hc & _).
      apply call_inv in Hc as (args & Hd & _).
      apply deref_all_cons in Hd as (a & j & rest & Ha & Hj & _).
      exists a, j. split; assumption. }
    destruct Hl as (p & i & Hl).
    rewrite (UnpremultiplyAlpha_run E _ _ _ Hl), Hpm in H.
    destruct (exec E vipsUnpremultiplyAlpha [i]) as [v|e]; [|discriminate H].
    destruct (exec E (vipsCast (bandFormat pm)) [v]) as [out|e]; [|discriminate H].
    injection H as _ <-. reflexivity.
  - unfold UnpremultiplyAlpha in H.
    rewrite (bind_run _ _ _ _ _ (eq_refl : self s = Some (handle s, s))), Hpm in H.
    injection H as _ <-. exact Hpm.
Qed.

(** X12.  A successful [ResizeWithVScale] always ends with the
    pre-multiplication tracker nil, also when the caller had premultiplied
    the image before the call: the method's closing [UnpremultiplyAlpha]
    reverses whatever premultiplication is active. *)
Theorem ResizeWithVScale_ends_unpremultiplied (hScale vScale : float64)
    (kernel : Kernel) (s s' : State) :
  ResizeWithVScale E hScale vScale kernel s = Some (Ok tt, s') ->
  preMultiplication (handle s') = None.
Proof.
  intros H. unfold ResizeWithVScale in H.
  apply try_Ok in H as (u1 & s1 & _ & H).
  apply bind_Some in H as (pages & s2 & _ & H).
  apply bind_Some in H as (ph & s3 & _ & H).
  apply bind_Some in H as (r & s4 & _ & H).
  apply try_Ok in H as (out & s5 & _ & H).
  apply bind_Some in H as (u2 & s6 & _ & H).
  apply try_Ok in H as (u3 & s7 & _ & H).
  exact (UnpremultiplyAlpha_clears _ _ _ H).
Qed.

(** X13.  The bracket inside [ResizeWithVScale] is transparent for the band
    format: on an image with alpha and an inactive tracker, given a cast
    primitive that returns the format it is asked for, a successful resize
    ends on an image of the band format the call started from, whatever
    formats the premultiply and resize primitives produce in between. *)
Theorem ResizeWithVScale_restores_band_format (hScale vScale : float64)
    (kernel : Kernel) (s : State) (p : N) (i : VipsImage) (s' : State) :
  cast_sets_format E ->
  live s p i ->
  vipsHasAlpha i = true ->
  preMultiplication (handle s) = None ->
  ResizeWithVScale E hScale vScale kernel s = Some (Ok tt, s') ->
  exists p' i', live s' p' i' /\ BandFmt i' = BandFmt i.
Proof.
  intros Hcast Hl Ha Hpm H. pose proof Hl as [Hp Hi].
  unfold ResizeWithVScale in H.
  rewrite (bind_run_pair _ _ _ _ (PremultiplyAlpha_run E _ _ _ Hl)) in H.
  rewrite Hpm, Ha in H. cbn [negb] in H.
  destruct (exec E vipsPremultiplyAlpha [i]) as [pre|e]; [|discriminate H].
  cbn [fst snd] in H.
  pose proof (premultiplied_live p i pre s Hi) as Hl1.
  rewrite (bind_run _ _ _ _ _ (Pages_run _ _ _ Hl1)) in H.
  rewrite (bind_run _ _ _ _ _ (GetPageHeight_run _ _ _ Hl1)) in H.
  rewrite inline_transform in H.
  apply try_Ok in H as (u2 & s2 & Hres & H).
  destruct (transform_Ok E _ _ _ _ _ _ Hl1 Hres) as (out & _ & Hl2 & _ & _ & Hpm2).
  apply try_Ok in H as (u3 & s3 & Hset & H).
  assert (Hl3 : exists p3 i3, live s3 p3 i3 /\
                  preMultiplication (handle s3) = Some {| bandFormat := BandFmt i |}).
  { destruct (1 <? _) in Hset.
    - destruct (copy_edit_Ok E _ _ _ _ _ _ Hl2 Hset) as (c & _ & Hl3 & _ & _ & Hpm3).
      eexists. eexists. split; [exact Hl3|]. rewrite Hpm3, Hpm2. reflexivity.
    - injection Hset as _ <-. eexists. eexists. split; [exact Hl2|].
      rewrite Hpm2. reflexivity. }
  destruct Hl3 as (p3 & i3 & Hl3 & Hpm3).
  rewrite (UnpremultiplyAlpha_run E _ _ _ Hl3), Hpm3 in H. cbn [bandFormat] in H.
  destruct (exec E vipsUnpremultiplyAlpha [i3]) as [v|e]; [|discriminate H].
  destruct (exec E (vipsCast (BandFmt i)) [v]) as [back|e] eqn:Hback; [|discriminate H].
  injection H as <-.
  eexists. exists back. split.
  - apply (unpremultiplied_live _ _ _ _ _ i3). apply Hl3.
  - exact (Hcast _ _ _ Hback).
Qed.

End Alpha.

Lemma sample_adds_alpha : adds_alpha sample_engine.
Proof. intros i out H. cbn in H. injection H as <-. reflexivity. Qed.

Lemma AddAlpha_idempotent_witness :
  AddAlpha sample_engine
    (final_state (AddAlpha sample_engine (loaded photo ImageTypePNG))
                 (loaded photo ImageTypePNG))
  = Some (Ok tt, final_state (AddAlpha sample_engine (loaded photo ImageTypePNG))
                             (loaded photo ImageTypePNG)).
Proof.
  apply (AddAlpha_idempotent sample_engine (loaded photo ImageTypePNG) 7%N photo _
           sample_adds_alpha (conj eq_refl eq_refl)).
  vm_compute. reflexivity.
Defined.

Lemma premultiplication_idempotent_witness :
  PremultiplyAlpha sample_engine
    (final_state (PremultiplyAlpha sample_engine (loaded animation ImageTypeGIF))
                 (loaded animation ImageTypeGIF))
  = Some (Ok tt,
          final_state (PremultiplyAlpha sample_engine (loaded animation ImageTypeGIF))
                      (loaded animation ImageTypeGIF)).
Proof.
  apply (premultiplication_idempotent sample_engine (loaded animation ImageTypeGIF) 7%N
           animation _ (conj eq_refl eq_refl)).
  vm_compute. reflexivity.
Defined.

Lemma ResizeWithVScale_ends_unpremultiplied_witness :
  preMultiplication
    (handle (final_state
               (ResizeWithVScale sample_engine 0.5%float (-1)%float KernelAuto
                  already_premultiplied) already_premultiplied)) = None.
Proof.
  apply (ResizeWithVScale_ends_unpremultiplied sample_engine 0.5%float (-1)%float
           KernelAuto already_premultiplied).
  vm_compute. reflexivity.
Defined.

Lemma ResizeWithVScale_restores_band_format_witness :
  exists p' i',
    live (final_state
            (ResizeWithVScale sample_engine 0.5%float 2%float KernelAuto
               (loaded animation ImageTypeGIF)) (loaded animation ImageTypeGIF)) p' i' /\
    BandFmt i' = BandFormatUchar.
Proof.
  apply (ResizeWithVScale_restores_band_format sample_engine 0.5%float 2%float KernelAuto
           (loaded animation ImageTypeGIF) 7%N animation _ sample_cast_sets_format
           (conj eq_refl eq_refl) eq_refl eq_refl).
  vm_compute. reflexivity.
Defined.

(** ** Modulate, Rotate, Pixelate *)

Section Compose.
Context (E : Engine).

Lemma transform_error op others s e s' :
  transform E op others s = Some (Error e, s') ->
  exists imgs, exec E op imgs = Error e.
Proof.
  intros H. apply transform_inv in H as (p & i & rest & _ & _ & H).
  destruct (exec E op (i :: map snd rest)) as [out|e0] eqn:Hx.
  - destruct H as [H _]. discriminate H.
  - destruct H as [[= <-] _]. eauto.
Qed.

Lemma Linear_same_length a b :
  length a = length b ->
  Linear E a b = transform E (vipsLinear a b (Z.of_nat (length a))) [].
Proof.
  intros H. unfold Linear. rewrite H, Nat.eqb_refl. reflexivity.
Qed.

(** The body shared by [Modulate] and [ModulateHSV] once the vectors are
    built. *)
Lemma three_steps_error c1 a b c2 s e s' :
  length a = length b ->
  (_ <~ ToColorSpace E c1 ;; _ <~ Linear E a b ;; _ <~ ToColorSpace E c2 ;; ret (Ok tt)) s
    = Some (Error e, s') ->
  exists op imgs, exec E op imgs = Error e.
Proof.
  intros Hlen H. rewrite (Linear_same_length _ _ Hlen) in H. unfold ToColorSpace in H.
  apply bind_Some in H as ([u1|e1] & s1 & H1 & H).
  2:{ injection H as <- <-. destruct (transform_error _ _ _ _ _ H1). eauto. }
  apply bind_Some in H as ([u2|e2] & s2 & H2 & H).
  2:{ injection H as <- <-. destruct (transform_error _ _ _ _ _ H2). eauto. }
  apply bind_Some in H as ([u3|e3] & s3 & H3 & H).
  2:{ injection H as <- <-. destruct (transform_error _ _ _ _ _ H3). eauto. }
  discriminate H.
Qed.

(** X14.  Every error [Modulate] or [ModulateHSV] returns is one the engine
    returned for some primitive: the two vectors handed to [Linear] always
    have the same length (three entries, four with alpha), so its length
    check never fires inside these methods. *)
Theorem Modulate_errors_come_from_engine (brightness saturation hue : float64)
    (hueHSV : Z) (s : State) (e : error) (s' : State) :
  Modulate E brightness saturation hue s = Some (Error e, s') \/
  ModulateHSV E brightness saturation hueHSV s = Some (Error e, s') ->
  exists op imgs, exec E op imgs = Error e.
Proof.
  intros [H|H].
  - unfold Modulate in H.
    apply bind_Some in H as (c & s1 & _ & H).
    apply bind_Some in H as (a & s2 & _ & H).
    destruct a; apply three_steps_error in H; auto.
  - unfold ModulateHSV in H.
    apply bind_Some in H as (c & s1 & _ & H).
    apply bind_Some in H as (a & s2 & _ & H).
    destruct a; apply three_steps_error in H; auto.
Qed.

Lemma three_steps_Ok c1 a b c2 s p i s' :
  sets_interpretation E ->
  length a = length b ->
  live s p i ->
  (_ <~ ToColorSpace E c1 ;; _ <~ Linear E a b ;; _ <~ ToColorSpace E c2 ;; ret (Ok tt)) s
    = Some (Ok tt, s') ->
  exists p' i', live s' p' i' /\ Type_ i' = c2.
Proof.
  intros Hset Hlen Hl H. rewrite (Linear_same_length _ _ Hlen) in H.
  unfold ToColorSpace in H.
  apply try_Ok in H as (u1 & s1 & H1 & H).
  destruct (transform_Ok E _ _ _ _ _ _ Hl H1) as (o1 & _ & Hl1 & _).
  apply try_Ok in H as (u2 & s2 & H2 & H).
  destruct (transform_Ok E _ _ _ _ _ _ Hl1 H2) as (o2 & _ & Hl2 & _).
  apply try_Ok in H as (u3 & s3 & H3 & H).
  destruct (transform_Ok E _ _ _ _ _ _ Hl2 H3) as (o3 & Hx & Hl3 & _).
  injection H as <-. eexists. exists o3. split; [exact Hl3|]. exact (Hset _ _ _ Hx).
Qed.

(** X15.  Given a colour-space primitive whose result carries the
    interpretation asked for, a successful [Modulate] or [ModulateHSV] ends
    on an image in the interpretation the call started from, except that an
    RGB image comes back as sRGB. *)
Theorem Modulate_returns_to_colour_space (brightness saturation hue : float64)
    (hueHSV : Z) (s : State) (p : N) (i : VipsImage) (s' : State) :
  sets_interpretation E ->
  live s p i ->
  Modulate E brightness saturation hue s = Some (Ok tt, s') \/
  ModulateHSV E brightness saturation hueHSV s = Some (Ok tt, s') ->
  exists p' i', live s' p' i' /\ Type_ i' = back_to (Type_ i).
Proof.
  intros Hset Hl [H|H]; unfold back_to.
  - unfold Modulate in H.
    rewrite (bind_run _ _ _ _ _ (ColorSpace_run _ _ _ Hl)) in H.
    rewrite (bind_run _ _ _ _ _ (HasAlpha_run _ _ _ Hl)) in H.
    destruct (vipsHasAlpha i);
      (eapply three_steps_Ok in H; [exact H | exact Hset | reflexivity | exact Hl]).
  - unfold ModulateHSV in H.
    rewrite (bind_run _ _ _ _ _ (ColorSpace_run _ _ _ Hl)) in H.
    rewrite (bind_run _ _ _ _ _ (HasAlpha_run _ _ _ Hl)) in H.
    destruct (vipsHasAlpha i);
      (eapply three_steps_Ok in H; [exact H | exact Hset | reflexivity | exact Hl]).
Qed.

(** X16.  [Rotate] by [Angle0] or [Angle180], or by any angle on a handle
    that reports at most one page (with a rotate primitive that keeps the
    page count), is the plain swap: one rotate primitive, one release, no
    grid, no flip and no page-height write, and nothing at all when the
    primitive fails. *)
Theorem Rotate_plain (angle : Angle) (s : State) (p : N) (i : VipsImage) :
  live s p i ->
  is_quarter_turn angle = false \/
  (page_count (format (handle s)) i <= 1 /\ keeps_page_count E (vipsRotate angle)) ->
  Rotate E angle s = transform E (vipsRotate angle) [] s.
Proof.
  intros Hl Hcase. pose proof Hl as [Hp Hi]. unfold Rotate.
  rewrite (bind_run _ _ _ _ _ (Width_run _ _ _ Hl)).
  rewrite (bind_run _ _ _ _ _ (Pages_run _ _ _ Hl)).
  assert (Hcond : (1 <? page_count (format (handle s)) i) && is_quarter_turn angle
                  = false).
  { destruct Hcase as [-> | [Hle _]]; [apply andb_false_r|].
    apply Z.ltb_ge in Hle. rewrite Hle. reflexivity. }
  rewrite Hcond.
  rewrite (bind_run _ _ _ _ _ (eq_refl : ret (Ok tt) s = Some (Ok tt, s))).
  rewrite inline_transform.
  rewrite (bind_run_pair _ _ _ _ (transform_run E _ _ _ _ Hl)).
  rewrite (transform_run E _ _ _ _ Hl).
  destruct (exec E (vipsRotate angle) [i]) as [out|e] eqn:Hx; [|reflexivity].
  cbn [fst snd].
  pose proof (replaced_live (vipsRotate angle) [p] p out s i Hi) as Hl1.
  rewrite (bind_run _ _ _ _ _ (Pages_run _ _ _ Hl1)).
  assert (Hcond' : (1 <? page_count (format (handle (replaced (vipsRotate angle) [p]
                                                        p out s))) out)
                   && is_quarter_turn angle = false).
  { destruct Hcase as [-> | [Hle Hkeep]]; [apply andb_false_r|].
    change (format (handle (replaced (vipsRotate angle) [p] p out s)))
      with (format (handle s)).
    rewrite (page_count_eq (format (handle s)) _ i out eq_refl (Hkeep _ _ Hx)).
    apply Z.ltb_ge in Hle. rewrite Hle. reflexivity. }
  rewrite Hcond'. reflexivity.
Qed.

Lemma ResizeWithVScale_Ok_tracker hScale vScale kernel s u s' :
  ResizeWithVScale E hScale vScale kernel s = Some (Ok u, s') ->
  preMultiplication (handle s') = None.
Proof.
  destruct u. unfold ResizeWithVScale. intros H.
  apply try_Ok in H as (u1 & s1 & _ & H).
  apply bind_Some in H as (pages & s2 & _ & H).
  apply bind_Some in H as (ph & s3 & _ & H).
  apply bind_Some in H as (r & s4 & _ & H).
  apply try_Ok in H as (out & s5 & _ & H).
  apply bind_Some in H as (u2 & s6 & _ & H).
  apply try_Ok in H as (u3 & s7 & _ & H).
  exact (UnpremultiplyAlpha_clears E _ _ _ H).
Qed.

(** X17.  [Pixelate] returns its own error exactly when the factor is below
    1, and then it has not touched the handle or called the engine (a factor
    of 1 is accepted, and so is a NaN).  When it returns nil, the
    pre-multiplication tracker is nil. *)
Theorem Pixelate_factor_check (factor : float64) (s : State)
    (r : option PixelateError) (s' : State) :
  Pixelate E factor s = Some (r, s') ->
  (r = Some ErrFactor <-> PrimFloat.ltb factor 1%float = true) /\
  (r = Some ErrFactor -> s' = s) /\
  (r = None -> preMultiplication (handle s') = None).
Proof.
  intros H. unfold Pixelate in H.
  destruct (PrimFloat.ltb factor 1%float).
  - injection H as <- <-. repeat split; auto; discriminate.
  - apply bind_Some in H as (w & s1 & _ & H).
    apply bind_Some in H as (h & s2 & _ & H).
    apply bind_Some in H as ([u1|e1] & s3 & _ & H).
    2:{ injection H as <- <-. repeat split; try discriminate; intros ?; discriminate. }
    apply bind_Some in H as (w' & s4 & _ & H).
    apply bind_Some in H as (h' & s5 & _ & H).
    apply bind_Some in H as ([u2|e2] & s6 & H2 & H).
    2:{ injection H as <- <-. repeat split; try discriminate; intros ?; discriminate. }
    injection H as <- <-. split; [split; discriminate|]. split; [discriminate|].
    intros _. destruct u2.
    exact (ResizeWithVScale_Ok_tracker _ _ _ _ _ _ H2).
Qed.

End Compose.

Lemma sample_sets_interpretation : sets_interpretation sample_engine.
Proof. intros c i out H. cbn in H. injection H as <-. reflexivity. Qed.

Lemma Modulate_errors_come_from_engine_witness :
  exists op imgs,
    exec sample_engine op imgs
    = Error (NativeError "linear: vector must have 1 or bands elements").
Proof.
  apply (Modulate_errors_come_from_engine sample_engine 1%float 1%float 0%float 0
           (loaded grey ImageTypePNG) _
           (final_state (Modulate sample_engine 1%float 1%float 0%float
                           (loaded grey ImageTypePNG)) (loaded grey ImageTypePNG))).
  left. vm_compute. reflexivity.
Defined.

Lemma Modulate_returns_to_colour_space_witness :
  exists p' i',
    live (final_state (Modulate sample_engine 1.5%float 1%float 0%float
                         (loaded (with_Type InterpretationRGB photo) ImageTypePNG))
                      (loaded photo ImageTypePNG)) p' i' /\
    Type_ i' = InterpretationSRGB.
Proof.
  apply (Modulate_returns_to_colour_space sample_engine 1.5%float 1%float 0%float 0
           (loaded (with_Type InterpretationRGB photo) ImageTypePNG) 7%N
           (with_Type InterpretationRGB photo) _ sample_sets_interpretation
           (conj eq_refl eq_refl)).
  left. vm_compute. reflexivity.
Defined.

Lemma Rotate_plain_witness :
  Rotate sample_engine Angle180 (loaded animation ImageTypeGIF)
  = transform sample_engine (vipsRotate Angle180) [] (loaded animation ImageTypeGIF).
Proof.
  apply (Rotate_plain sample_engine Angle180 (loaded animation ImageTypeGIF) 7%N
           animation (conj eq_refl eq_refl)).
  left. reflexivity.
Defined.

Lemma Pixelate_factor_check_witness :
  preMultiplication
    (handle (final_state (Pixelate sample_engine 4%float (loaded animation ImageTypeGIF))
                         (loaded animation ImageTypeGIF))) = None.
Proof.
  destruct (Pixelate_factor_check sample_engine 4%float (loaded animation ImageTypeGIF)
              None
              (final_state (Pixelate sample_engine 4%float (loaded animation ImageTypeGIF))
                           (loaded animation ImageTypeGIF)))
    as (_ & _ & Hnil).
  - vm_compute. reflexivity.
  - exact (Hnil eq_refl).
Defined.

Example Pixelate_runs_two_resizes :
  option_map (fun x => (fst x, trace (snd x)))
    (Pixelate sample_engine 4%float (loaded photo ImageTypePNG))
  = Some (None,
          [EvPrim (vipsResizeWithVScale 0.25%float (-1)%float KernelAuto) [7%N];
           EvClear 7%N;
           EvPrim (vipsResizeWithVScale 4%float 4%float KernelNearest) [8%N];
           EvClear 8%N]).
Proof. vm_compute. reflexivity. Qed.

(** ** No leak, no dangling pointer *)

Lemma same_footprint_refl s : same_footprint s s.
Proof. split; auto. Qed.

Lemma same_footprint_trans s1 s2 s3 :
  same_footprint s1 s2 -> same_footprint s2 s3 -> same_footprint s1 s3.
Proof. intros [H1 L1] [H2 L2]. split; [congruence|auto]. Qed.

Lemma size_swap (h : gmap N VipsImage) p q x :
  is_Some (h !! p) -> h !! q = None -> size (delete p (<[q := x]> h)) = size h.
Proof.
  intros Hp Hq.
  assert (Hne : q <> p) by (intros ->; rewrite Hq in Hp; destruct Hp; discriminate).
  rewrite map_size_delete_Some by (rewrite lookup_insert_ne by exact Hne; exact Hp).
  rewrite map_size_insert_None by exact Hq. reflexivity.
Qed.

Lemma fresh_free (h : gmap N VipsImage) : h !! fresh (dom h) = None.
Proof. apply not_elem_of_dom. apply is_fresh. Qed.

Lemma footprint_replaced op ins p out s i :
  heap s !! p = Some i -> same_footprint s (replaced op ins p out s).
Proof.
  intros Hi. split.
  - apply size_swap; [eauto|apply fresh_free].
  - intros _. eexists. eexists. apply (replaced_live _ _ _ _ _ i Hi).
Qed.

Lemma footprint_log ev s : same_footprint s (log ev s).
Proof. split; auto. Qed.

Lemma footprint_with_handle r s :
  image r = image (handle s) -> same_footprint s (with_handle r s).
Proof.
  intros Himg. split; [reflexivity|].
  intros (p & i & Hp & Hi). exists p, i. split; [cbn; congruence|exact Hi].
Qed.

Lemma keeps_ret {A} (a : A) : keeps_footprint (ret a).
Proof. intros s b s' [= <- <-]. apply same_footprint_refl. Qed.

Lemma keeps_crash {A} : keeps_footprint (@crash A).
Proof. intros s b s' H. discriminate H. Qed.

Lemma keeps_bind {A B} (m : M A) (k : A -> M B) :
  keeps_footprint m -> (forall a, keeps_footprint (k a)) -> keeps_footprint (bind m k).
Proof.
  intros Hm Hk s b s' H. apply bind_Some in H as (a & s1 & H1 & H2).
  exact (same_footprint_trans _ _ _ (Hm _ _ _ H1) (Hk _ _ _ _ H2)).
Qed.

Lemma keeps_try {A} (m : M (res A)) (k : A -> M (res unit)) :
  keeps_footprint m -> (forall a, keeps_footprint (k a)) ->
  keeps_footprint
    (bind m (fun r => match r with Ok x => k x | Error e => ret (Error e) end)).
Proof.
  intros Hm Hk. apply keeps_bind; [exact Hm|].
  intros [x|e]; [apply Hk | apply keeps_ret].
Qed.

Lemma keeps_ext {A} (m m' : M A) :
  (forall s, m s = m' s) -> keeps_footprint m' -> keeps_footprint m.
Proof. intros Heq H s a s' Hm. rewrite Heq in Hm. exact (H _ _ _ Hm). Qed.

Lemma keeps_self : keeps_footprint self.
Proof. intros s b s' [= <- <-]. apply same_footprint_refl. Qed.

Lemma keeps_deref p : keeps_footprint (deref p).
Proof.
  intros s i s' H. apply deref_Some in H as (a & _ & _ & ->). apply same_footprint_refl.
Qed.

Lemma keeps_read {A} (f : VipsImage -> A) :
  keeps_footprint (r <- self ;; j <- deref (image r) ;; ret (f j)).
Proof.
  apply keeps_bind; [apply keeps_self|]. intros r.
  apply keeps_bind; [apply keeps_deref|]. intros j. apply keeps_ret.
Qed.

Lemma keeps_Pages : keeps_footprint Pages.
Proof.
  unfold Pages. apply keeps_bind; [apply keeps_self|]. intros r.
  destruct (decide (format r = ImageTypeJP2K)); [apply keeps_ret|].
  apply keeps_bind; [apply keeps_deref|]. intros j. apply keeps_ret.
Qed.

Lemma keeps_set_profile path : keeps_footprint (update (set_optimizedIccProfile path)).
Proof. intros s [] s' [= <-]. apply footprint_with_handle. reflexivity. Qed.

Ltac dead_handle H Hp Hi :=
  unfold call, deref_all, deref in H; unfold_monad; cbn in H;
  rewrite ?Hp in H; cbn in H; rewrite ?Hi in H; cbn in H; discriminate H.

Section Footprint.
Context (E : Engine).
Context (SRGBV2MicroICCProfilePath SGrayV2MicroICCProfilePath
         SRGBIEC6196621ICCProfilePath : string).
Context (SizeBoth : Size).

Lemma keeps_transform op others : keeps_footprint (transform E op others).
Proof.
  intros s r s' H.
  apply transform_inv in H as (p & i & rest & [Hp Hi] & _ & H).
  destruct (exec E op (i :: map snd rest)) as [out|e]; destruct H as [_ ->].
  - apply (footprint_replaced _ _ _ _ _ i Hi).
  - apply footprint_log.
Qed.

Lemma keeps_copy_edit e : keeps_footprint (copy_edit E e).
Proof.
  intros s r s' H.
  destruct (live_or_dead s) as [(p & i & Hl) | [Hp | (p & Hp & Hi)]].
  - rewrite (copy_edit_run E e _ _ _ Hl) in H. destruct Hl as [Hp Hi].
    destruct (exec E vipsCopyImage [i]) as [out|err]; injection H as _ <-.
    + split.
      * apply size_swap; [eauto|apply fresh_free].
      * intros _. eexists. eexists. apply (edited_live _ _ _ _ i Hi).
    + apply footprint_log.
  - unfold copy_edit in H. dead_handle H Hp Hp.
  - unfold copy_edit in H. dead_handle H Hp Hi.
Qed.

Lemma keeps_SetPages pages : keeps_footprint (SetPages E pages).
Proof.
  intros s r s' H.
  destruct (live_or_dead s) as [(p & i & Hl) | [Hp | (p & Hp & Hi)]].
  - destruct (exec E vipsCopyImage [i]) as [out|err] eqn:Hcopy.
    + rewrite (SetPages_run E pages _ _ _ _ Hl Hcopy) in H. injection H as _ <-.
      destruct Hl as [Hp Hi]. split.
      * cbn. rewrite delete_insert_eq. apply size_swap; [eauto|apply fresh_free].
      * intros _. exists (fresh (dom (heap s))), out. split; [reflexivity|]. cbn.
        rewrite delete_insert_eq.
        rewrite lookup_delete_ne by (exact (fresh_not_live _ _ _ Hi)).
        apply lookup_insert_eq.
    + destruct Hl as [Hp Hi]. unfold SetPages in H.
      rewrite (bind_run _ _ _ _ _ (eq_refl : self s = Some (handle s, s))) in H.
      rewrite Hp in H.
      rewrite (bind_run_pair _ _ _ _ (call_run E _ _ _ _ Hi)) in H.
      rewrite Hcopy in H. injection H as _ <-. apply footprint_log.
  - unfold SetPages in H. dead_handle H Hp Hp.
  - unfold SetPages in H. dead_handle H Hp Hi.
Qed.

Lemma keeps_PremultiplyAlpha : keeps_footprint (PremultiplyAlpha E).
Proof.
  intros s r s' H.
  destruct (preMultiplication (handle s)) as [pm|] eqn:Hpm.
  - unfold PremultiplyAlpha in H.
    rewrite (bind_run _ _ _ _ _ (eq_refl : self s = Some (handle s, s))), Hpm in H.
    injection H as _ <-. apply same_footprint_refl.
  - assert (Hl : exists p i, live s p i).
    { unfold PremultiplyAlpha in H.
      rewrite (bind_run _ _ _ _ _ (eq_refl : self s = Some (handle s, s))), Hpm in H.
      apply bind_Some in H as (a & s1 & Ha & _). exact (HasAlpha_live _ _ _ Ha). }
    destruct Hl as (p & i & Hl).
    rewrite (PremultiplyAlpha_run E _ _ _ Hl), Hpm in H. destruct Hl as [Hp Hi].
    destruct (negb (vipsHasAlpha i)).
    + injection H as _ <-. apply same_footprint_refl.
    + destruct (exec E vipsPremultiplyAlpha [i]) as [out|e]; injection H as _ <-.
      * split.
        -- apply size_swap; [eauto|apply fresh_free].
        -- intros _. eexists. eexists. apply (premultiplied_live _ _ _ _ Hi).
      * apply footprint_log.
Qed.

Lemma keeps_UnpremultiplyAlpha : keeps_footprint (UnpremultiplyAlpha E).
Proof.
  intros s r s' H.
  destruct (preMultiplication (handle s)) as [pm|] eqn:Hpm.
  - destruct (live_or_dead s) as [(p & i & Hl) | [Hp | (p & Hp & Hi)]].
    + rewrite (UnpremultiplyAlpha_run E _ _ _ Hl), Hpm in H.
      pose proof Hl as [Hp Hi].
      destruct (exec E vipsUnpremultiplyAlpha [i]) as [u|e].
      * destruct (exec E (vipsCast (bandFormat pm)) [u]) as [out|e];
          injection H as _ <-.
        -- split.
           ++ cbn. set (q := fresh (dom (heap s))).
              set (q2 := fresh (dom (<[q := u]> (heap s)))).
              assert (Hq : p <> q) by exact (fresh_not_live _ _ _ Hi).
              assert (Hq2 : p <> q2).
              { apply (fresh_not_live _ _ i).
                rewrite lookup_insert_ne by congruence. exact Hi. }
              assert (Hqq : q <> q2).
              { apply (fresh_not_live _ _ u). apply lookup_insert_eq. }
              rewrite map_size_delete_Some.
              2:{ rewrite lookup_delete_ne by congruence.
                  rewrite lookup_insert_ne by congruence.
                  rewrite lookup_insert_eq. eauto. }
              rewrite size_swap.
              ** rewrite map_size_insert_None by apply fresh_free. reflexivity.
              ** rewrite lookup_insert_ne by congruence. eauto.
              ** apply fresh_free.
           ++ intros _. eexists. eexists.
              apply (unpremultiplied_live _ _ _ _ _ i Hi).
        -- split.
           ++ cbn. rewrite delete_insert_eq, delete_id by apply fresh_free.
              reflexivity.
           ++ intros _. exists p, i. split; [exact Hp|]. cbn.
              rewrite delete_insert_eq, delete_id by apply fresh_free. exact Hi.
      * injection H as _ <-. apply footprint_log.
    + unfold UnpremultiplyAlpha in H.
      rewrite (bind_run _ _ _ _ _ (eq_refl : self s = Some (handle s, s))), Hpm in H.
      dead_handle H Hp Hp.
    + unfold UnpremultiplyAlpha in H.
      rewrite (bind_run _ _ _ _ _ (eq_refl : self s = Some (handle s, s))), Hpm in H.
      dead_handle H Hp Hi.
  - unfold UnpremultiplyAlpha in H.
    rewrite (bind_run _ _ _ _ _ (eq_refl : self s = Some (handle s, s))), Hpm in H.
    injection H as _ <-. apply same_footprint_refl.
Qed.

Lemma keeps_inplace op : keeps_footprint (r <- self ;; call_inplace E op (image r)).
Proof.
  intros s r s' H.
  apply bind_Some in H as (r0 & s1 & [= <- <-] & H).
  unfold call_inplace in H.
  apply bind_Some in H as (i & s2 & Hd & H).
  apply deref_Some in Hd as (a & Hp & Hi & ->). rewrite Hp in H.
  unfold_monad. destruct (exec_inplace E op i) as [i'|e]; injection H as _ <-.
  - split.
    + cbn. apply map_size_insert_Some. eauto.
    + intros _. exists a, i'. split; [exact Hp|]. cbn. apply lookup_insert_eq.
  - apply footprint_log.
Qed.

Lemma keeps_Linear a b : keeps_footprint (Linear E a b).
Proof.
  unfold Linear. destruct (negb (length a =? length b)%nat);
    [apply keeps_ret | apply keeps_transform].
Qed.

Lemma keeps_by_height (m1 m2 : M (res unit)) :
  keeps_footprint m1 -> keeps_footprint m2 ->
  keeps_footprint (h <- Height ;; ph <- PageHeight ;; if ph <? h then m1 else m2).
Proof.
  intros H1 H2.
  apply keeps_bind; [apply keeps_read|]. intros h.
  apply keeps_bind; [apply keeps_read|]. intros ph.
  destruct (ph <? h); assumption.
Qed.

Lemma keeps_OptimizeICCProfile :
  keeps_footprint
    (OptimizeICCProfile E SRGBV2MicroICCProfilePath SGrayV2MicroICCProfilePath).
Proof.
  unfold OptimizeICCProfile, determineInputICCProfile.
  apply keeps_bind.
  { apply keeps_bind; [apply keeps_read|]. intros c.
    destruct (decide (c = InterpretationCMYK)); apply keeps_ret. }
  intros inputProfile.
  apply keeps_bind; [apply keeps_read|]. intros hasProfile.
  destruct (negb hasProfile && String.eqb inputProfile ""); [apply keeps_ret|].
  apply keeps_bind; [apply keeps_set_profile|]. intros _.
  apply keeps_bind; [apply keeps_read|]. intros bands.
  apply keeps_bind.
  { destruct (bands <=? 2); [apply keeps_set_profile | apply keeps_ret]. }
  intros _.
  apply keeps_bind; [apply keeps_read|]. intros embedded.
  apply keeps_bind; [apply keeps_read|]. intros fmt.
  apply keeps_bind; [apply keeps_self|]. intros r.
  apply keeps_transform.
Qed.

Lemma keeps_Modulate brightness saturation hue :
  keeps_footprint (Modulate E brightness saturation hue).
Proof.
  unfold Modulate, ColorSpace, Interpretation_, HasAlpha, ToColorSpace.
  apply keeps_bind; [apply keeps_read|]. intros c.
  apply keeps_bind; [apply (keeps_read vipsHasAlpha)|]. intros a.
  apply keeps_try; [apply keeps_transform|]. intros _.
  apply keeps_try; [apply keeps_Linear|]. intros _.
  apply keeps_try; [apply keeps_transform|]. intros _.
  apply keeps_ret.
Qed.

Lemma keeps_ModulateHSV brightness saturation hue :
  keeps_footprint (ModulateHSV E brightness saturation hue).
Proof.
  unfold ModulateHSV, ColorSpace, Interpretation_, HasAlpha, ToColorSpace.
  apply keeps_bind; [apply keeps_read|]. intros c.
  apply keeps_bind; [apply (keeps_read vipsHasAlpha)|]. intros a.
  apply keeps_try; [apply keeps_transform|]. intros _.
  apply keeps_try; [apply keeps_Linear|]. intros _.
  apply keeps_try; [apply keeps_transform|]. intros _.
  apply keeps_ret.
Qed.

Lemma keeps_ResizeWithVScale hScale vScale kernel :
  keeps_footprint (ResizeWithVScale E hScale vScale kernel).
Proof.
  unfold ResizeWithVScale.
  apply keeps_try; [apply keeps_PremultiplyAlpha|]. intros _.
  apply keeps_bind; [apply keeps_Pages|]. intros pages.
  apply keeps_bind; [apply (keeps_read vipsGetPageHeight)|]. intros pageHeight.
  eapply keeps_ext; [intros s; apply inline_transform|].
  apply keeps_try; [apply keeps_transform|]. intros _.
  apply keeps_try.
  { destruct (1 <? pages); [apply keeps_copy_edit | apply keeps_ret]. }
  intros _. apply keeps_UnpremultiplyAlpha.
Qed.

Lemma keeps_Rotate angle : keeps_footprint (Rotate E angle).
Proof.
  unfold Rotate.
  apply keeps_bind; [apply (keeps_read Xsize)|]. intros width.
  apply keeps_bind; [apply keeps_Pages|]. intros pages.
  apply keeps_try.
  { destruct ((1 <? pages) && is_quarter_turn angle); [|apply keeps_ret].
    apply keeps_try.
    { destruct (decide (angle = Angle270)); [apply keeps_transform | apply keeps_ret]. }
    intros _.
    apply keeps_bind; [apply (keeps_read vipsGetPageHeight)|]. intros ph.
    apply keeps_bind; [apply keeps_Pages|]. intros n.
    apply keeps_try; [apply keeps_transform|]. intros _.
    apply keeps_try.
    { destruct (decide (angle = Angle270)); [apply keeps_transform | apply keeps_ret]. }
    intros _. apply keeps_ret. }
  intros _.
  eapply keeps_ext; [intros s; apply inline_transform|].
  apply keeps_try; [apply keeps_transform|]. intros _.
  apply keeps_bind; [apply keeps_Pages|]. intros pages'.
  apply keeps_try.
  { destruct ((1 <? pages') && is_quarter_turn angle);
      [apply keeps_copy_edit | apply keeps_ret]. }
  intros _. apply keeps_ret.
Qed.

Lemma keeps_invoke m :
  keeps_footprint
    (invoke E SRGBV2MicroICCProfilePath SGrayV2MicroICCProfilePath
       SRGBIEC6196621ICCProfilePath SizeBoth m).
Proof.
  destruct m; cbn [invoke]; autounfold with methods;
    try first
      [ apply keeps_transform | apply keeps_copy_edit | apply keeps_SetPages
      | apply keeps_PremultiplyAlpha | apply keeps_UnpremultiplyAlpha
      | apply keeps_Linear | apply keeps_OptimizeICCProfile
      | apply keeps_inplace | apply keeps_Modulate | apply keeps_ModulateHSV
      | apply keeps_ResizeWithVScale | apply keeps_Rotate
      | apply keeps_by_height; apply keeps_transform ].
  - (* AddAlpha *)
    unfold AddAlpha. apply keeps_bind; [apply keeps_read|].
    intros [|]; [apply keeps_ret | apply keeps_transform].
  - (* TransformICCProfile *)
    unfold TransformICCProfile. apply keeps_bind; [apply keeps_read|].
    intros embedded. apply keeps_transform.
  - (* EmbedBackground *)
    unfold EmbedBackground. destruct backgroundColor as [bg|]; [|apply keeps_crash].
    apply keeps_by_height; apply keeps_transform.
Qed.

Lemma keeps_run_calls ms :
  keeps_footprint
    (run_calls E SRGBV2MicroICCProfilePath SGrayV2MicroICCProfilePath
       SRGBIEC6196621ICCProfilePath SizeBoth ms).
Proof.
  induction ms as [|m ms IH]; cbn [run_calls]; [apply keeps_ret|].
  apply keeps_bind; [apply keeps_invoke|]. intros r.
  apply keeps_bind; [exact IH|]. intros rs. apply keeps_ret.
Qed.

(** X18.  No mutating method leaks a native object or leaves the handle
    dangling.  Through any sequence of mutating calls, each of which may
    succeed or fail, the heap holds as many native objects after the
    sequence as before it, and a handle that pointed to a native object at
    the start points to one at the end; there is one result per call. *)
Theorem mutations_keep_footprint (ms : list Mutation) (s : State)
    (rs : list (res unit)) (s' : State) :
  run_calls E SRGBV2MicroICCProfilePath SGrayV2MicroICCProfilePath
    SRGBIEC6196621ICCProfilePath SizeBoth ms s = Some (rs, s') ->
  size (heap s') = size (heap s) /\
  ((exists p i, live s p i) -> exists p' i', live s' p' i') /\
  length rs = length ms.
Proof.
  revert s rs s'. induction ms as [|m ms IH]; intros s rs s' H.
  - injection H as <- <-. auto.
  - cbn [run_calls] in H.
    apply bind_Some in H as (r & s1 & Hm & H).
    apply bind_Some in H as (rs' & s2 & Hrest & H).
    injection H as <- <-.
    destruct (keeps_invoke m _ _ _ Hm) as [Hsize Hlive].
    destruct (IH _ _ _ Hrest) as (Hsize' & Hlive' & Hlen).
    split; [congruence|]. split; [auto|]. cbn. congruence.
Qed.

(** X19.  A handle that owns the only native object, put through any
    sequence of mutating calls and then closed, leaves no native object
    behind: [Close] returns and the heap is empty.  In general the heap ends
    one object smaller than it started. *)
Theorem mutate_then_Close_frees_everything (ms : list Mutation) (s : State)
    (p : N) (i : VipsImage) (rs : list (res unit)) (s1 : State) :
  live s p i ->
  run_calls E SRGBV2MicroICCProfilePath SGrayV2MicroICCProfilePath
    SRGBIEC6196621ICCProfilePath SizeBoth ms s = Some (rs, s1) ->
  exists s2, Close s1 = Some (tt, s2) /\
    image (handle s2) = None /\
    S (size (heap s2)) = size (heap s) /\
    (heap s = {[ p := i ]} -> heap s2 = ∅).
Proof.
  intros Hl Hrun.
  destruct (keeps_run_calls ms _ _ _ Hrun) as (Hsize & Hlive).
  destruct (Hlive (ex_intro _ p (ex_intro _ i Hl))) as (p1 & i1 & Hp1 & Hi1).
  eexists. split; [apply Close_run|]. cbn. rewrite Hp1.
  split; [reflexivity|].
  assert (Hs : S (size (delete p1 (heap s1))) = size (heap s)).
  { rewrite map_size_delete_Some by eauto. rewrite <- Hsize.
    assert (size (heap s1) <> 0%nat); [|lia].
    intros H0. apply map_size_empty_iff in H0. rewrite H0 in Hi1.
    rewrite lookup_empty in Hi1. discriminate Hi1. }
  split; [exact Hs|].
  intros Hone. rewrite Hone, map_size_singleton in Hs.
  apply map_size_empty_iff. lia.
Qed.

End Footprint.

Lemma mutations_keep_footprint_witness :
  size (heap (final_state (run_calls sample_engine "srgb.icc" "sgray.icc" "srgb_iec.icc" 0
                             sample_calls (loaded animation ImageTypeGIF))
                          (loaded animation ImageTypeGIF))) = 1%nat.
Proof.
  destruct (mutations_keep_footprint sample_engine "srgb.icc" "sgray.icc" "srgb_iec.icc" 0
              sample_calls (loaded animation ImageTypeGIF)
              [Ok tt; Ok tt; Error ErrLinearLength;
               Error (NativeError "resize: scale out of range"); Ok tt]
              (final_state (run_calls sample_engine "srgb.icc" "sgray.icc" "srgb_iec.icc" 0
                              sample_calls (loaded animation ImageTypeGIF))
                           (loaded animation ImageTypeGIF)))
    as (Hsize & _ & _).
  - vm_compute. reflexivity.
  - exact Hsize.
Defined.

Lemma mutate_then_Close_frees_everything_witness :
  exists s2,
    Close (final_state (run_calls sample_engine "srgb.icc" "sgray.icc" "srgb_iec.icc" 0
                          sample_calls (loaded animation ImageTypeGIF))
                       (loaded animation ImageTypeGIF)) = Some (tt, s2) /\
    heap s2 = ∅.
Proof.
  destruct (mutate_then_Close_frees_everything sample_engine "srgb.icc" "sgray.icc"
              "srgb_iec.icc" 0 sample_calls (loaded animation ImageTypeGIF) 7%N animation
              [Ok tt; Ok tt; Error ErrLinearLength;
               Error (NativeError "resize: scale out of range"); Ok tt]
              (final_state (run_calls sample_engine "srgb.icc" "sgray.icc" "srgb_iec.icc" 0
                              sample_calls (loaded animation ImageTypeGIF))
                           (loaded animation ImageTypeGIF))
              (conj eq_refl eq_refl))
    as (s2 & Hclose & _ & _ & Hempty).
  - vm_compute. reflexivity.
  - exists s2. split; [exact Hclose|]. apply Hempty. reflexivity.
Defined.
